(** * OwlDB: the storage and notification core

    A shallow embedding of the Go sources of OwlDB (ordered index,
    document store, subscription fabric, patch engine) together with
    the properties of the specification checked against it.

    The embedding is sequential: one operation runs at a time, so every
    [mutex.Lock] succeeds at once and the [lockedNodes] bookkeeping of
    the skip list has no effect on the data; it is left out.  Atomic
    loads and stores become plain reads and writes of the node store. *)

From Stdlib Require Import ZArith Lia Ascii.
From stdpp Require Import base option list sorting strings gmap.

Open Scope string_scope.
Open Scope list_scope.

(** ** Results of running Go code *)

(** A Go call either returns, panics (index out of range, nil
    dereference), or is still running when the fuel of the model is
    used up (a loop that never exits). *)
Inductive outcome (A : Type) : Type :=
| Done (a : A)
| Panic
| Timeout.
Arguments Done {A} a.
Arguments Panic {A}.
Arguments Timeout {A}.

Definition obind {A B} (m : outcome A) (f : A -> outcome B) : outcome B :=
  match m with
  | Done a => f a
  | Panic => Panic
  | Timeout => Timeout
  end.

Global Instance outcome_bind : MBind outcome := fun A B f m => obind m f.
Global Instance outcome_ret : MRet outcome := @Done.

(** [s[i]] on a slice: out of range is a run-time panic. *)
Definition index {A} (l : list A) (i : nat) : outcome A :=
  match l !! i with
  | Some a => Done a
  | None => Panic
  end.

(** [*p] on a pointer that may be nil. *)
Definition deref {A} (p : option A) : outcome A :=
  match p with
  | Some a => Done a
  | None => Panic
  end.

(** Go's [error] values are modelled by their message. *)
Definition error := string.

(** ** Ordering of keys

    Keys are Go strings; [<], [>] and [==] on strings compare byte by
    byte, which is [String.compare]. *)
Definition key_lt (a b : string) : Prop := String.ltb a b = true.
Definition key_gt_b (a b : string) : bool := String.ltb b a.
Definition key_eq_b (a b : string) : bool := String.eqb a b.

Lemma compare_refl (a : string) : (a ?= a)%string = Eq.
Proof.
  induction a as [|c a IH]; simpl; [done|].
  unfold Ascii.compare. by rewrite N.compare_refl.
Qed.

Lemma ltb_irrefl (a : string) : String.ltb a a = false.
Proof. unfold String.ltb. by rewrite compare_refl. Qed.

Lemma ltb_leb_neg (a b : string) : String.ltb a b = negb (String.leb b a).
Proof.
  unfold String.ltb, String.leb. rewrite (String.compare_antisym a b).
  by destruct (b ?= a)%string.
Qed.

Lemma ltb_trans (a b c : string) :
  String.ltb a b = true -> String.ltb b c = true -> String.ltb a c = true.
Proof.
  rewrite !ltb_leb_neg, !negb_true_iff. intros Hba Hcb.
  destruct (String.leb c a) eqn:Hca; [|done].
  destruct (String.leb_total b c) as [Hbc|Hbc]; [|congruence].
  assert (String.le b a) as Hle.
  { transitivity c; unfold String.le; by apply Is_true_true. }
  apply Is_true_true in Hle. congruence.
Qed.

Lemma ltb_asym (a b : string) : String.ltb a b = true -> String.ltb b a = false.
Proof.
  intros H. destruct (String.ltb b a) eqn:E; [|done].
  pose proof (ltb_trans _ _ _ H E) as H'. by rewrite ltb_irrefl in H'.
Qed.

Lemma ltb_trichotomy (a b : string) :
  String.ltb a b = true \/ a = b \/ String.ltb b a = true.
Proof.
  unfold String.ltb. rewrite (String.compare_antisym b a).
  destruct (a ?= b)%string eqn:E; simpl; auto.
  right; left. by apply String.compare_eq_iff.
Qed.

Lemma ltb_empty_r (a : string) : String.ltb a "" = false.
Proof. by destruct a. Qed.

Lemma leb_ltb_neg (a b : string) : String.leb a b = negb (String.ltb b a).
Proof. rewrite ltb_leb_neg. by destruct (String.leb a b). Qed.

Lemma key_eq_b_true (a b : string) : key_eq_b a b = true <-> a = b.
Proof. apply String.eqb_eq. Qed.

Lemma key_eq_b_false (a b : string) : key_eq_b a b = false <-> a <> b.
Proof. apply String.eqb_neq. Qed.

(** ** The skip list (package skiplist) *)

Module skiplist.

Definition MAX_LEVEL : nat := 11.

(** Node addresses; a Go pointer is [option addr], [None] being nil. *)
Abbreviation addr := nat (only parsing).

(** The outcomes of the successive tests [rand.Float64() < 0.5]. *)
Definition coins := nat -> bool.

Fixpoint randomLevel_loop (fuel : nat) (c : coins) (n level : nat) : nat :=
  match fuel with
  | 0 => level
  | S fuel' =>
      if c n && Nat.ltb level MAX_LEVEL
      then randomLevel_loop fuel' c (S n) (S level)
      else level
  end.

(** [randomLevel]: level := 1; for coin && level < MAX_LEVEL { level++ }.
    The loop runs at most [MAX_LEVEL - 1] times. *)
Definition randomLevel (c : coins) : nat := randomLevel_loop MAX_LEVEL c 0 1.

Section SkipList.
Context {V : Type}.
(** The zero value of [V], Go's [*new(V)]. *)
Context (zeroV : V).

(** [type Node]: [mutex] is left out (sequential embedding); [value] is
    an atomic pointer, nil in the two sentinels. *)
Record Node : Type := mkNode {
  key : string;
  value : option V;
  topLevel : nat;
  marked : bool;
  fullyLinked : bool;
  next : list (option addr)
}.

(** [type SkipList], with the store of the nodes it has allocated. *)
Record SkipList : Type := mkSkipList {
  head : addr;
  tail : addr;
  count : Z;
  heap : list Node
}.

(** [UpdateCheck]: the new value, or an error. *)
Definition UpdateCheck := string -> V -> bool -> V + error.

(** Dereference a node pointer. *)
Definition load (sl : SkipList) (p : option addr) : outcome Node :=
  a ← deref p; index (heap sl) a.

(** [p.next[level].Load()] *)
Definition load_next (sl : SkipList) (p : option addr) (level : nat)
  : outcome (option addr) :=
  nd ← load sl p; index (next nd) level.

Definition is_ptr (p : option addr) (a : addr) : bool :=
  match p with
  | Some b => Nat.eqb b a
  | None => false
  end.

Definition ptr_eqb (p q : option addr) : bool :=
  match p, q with
  | Some a, Some b => Nat.eqb a b
  | None, None => true
  | _, _ => false
  end.

Definition set_heap (sl : SkipList) (h : list Node) : SkipList :=
  mkSkipList (head sl) (tail sl) (count sl) h.

(** [p.next[level].Store(q)] *)
Definition store_next (sl : SkipList) (p : option addr) (level : nat)
    (q : option addr) : outcome SkipList :=
  a ← deref p;
  nd ← index (heap sl) a;
  _ ← index (next nd) level;
  Done (set_heap sl (<[a := mkNode (key nd) (value nd) (topLevel nd) (marked nd)
                              (fullyLinked nd) (<[level := q]> (next nd))]> (heap sl))).

(** [p.value.Store(&v)] *)
Definition store_value (sl : SkipList) (p : option addr) (v : V)
  : outcome SkipList :=
  a ← deref p;
  nd ← index (heap sl) a;
  Done (set_heap sl (<[a := mkNode (key nd) (Some v) (topLevel nd) (marked nd)
                              (fullyLinked nd) (next nd)]> (heap sl))).

(** [p.marked.Store(true)] *)
Definition store_marked (sl : SkipList) (p : option addr) : outcome SkipList :=
  a ← deref p;
  nd ← index (heap sl) a;
  Done (set_heap sl (<[a := mkNode (key nd) (value nd) (topLevel nd) true
                              (fullyLinked nd) (next nd)]> (heap sl))).

(** [p.fullyLinked.Store(true)] *)
Definition store_fullyLinked (sl : SkipList) (p : option addr)
  : outcome SkipList :=
  a ← deref p;
  nd ← index (heap sl) a;
  Done (set_heap sl (<[a := mkNode (key nd) (value nd) (topLevel nd) (marked nd)
                              true (next nd)]> (heap sl))).

(** [skiplist.count.Add(1)] *)
Definition count_add1 (sl : SkipList) : SkipList :=
  mkSkipList (head sl) (tail sl) (count sl + 1) (heap sl).

(** [NewSkipList]: the tail is allocated first, then the head; the loop
    points every level of the head at the tail. *)
Definition NewSkipList : SkipList :=
  let tailNode := mkNode "" None MAX_LEVEL false false (replicate MAX_LEVEL None) in
  let headNode := mkNode "" None MAX_LEVEL false false (replicate MAX_LEVEL None) in
  let headNode' :=
    foldl (fun nd i => mkNode (key nd) (value nd) (topLevel nd) (marked nd)
                          (fullyLinked nd) (<[i := Some 0]> (next nd)))
          headNode (seq 0 MAX_LEVEL) in
  mkSkipList 1 0 0 [tailNode; headNode'].

(** The inner loop of [find]:
    for key > curr.key { pred = curr; curr = pred.next[level].Load();
                         if curr == s.tail { break } } *)
Fixpoint find_advance (fuel : nat) (sl : SkipList) (k : string) (level : nat)
    (pred curr : option addr) : outcome (option addr * option addr) :=
  match fuel with
  | 0 => Timeout
  | S fuel' =>
      c ← load sl curr;
      if key_gt_b k (key c) then
        curr' ← load_next sl curr level;
        if is_ptr curr' (tail sl) then Done (curr, curr')
        else find_advance fuel' sl k level curr curr'
      else Done (pred, curr)
  end.

(** One round of the outer loop of [find], at [level]. *)
Definition find_level (sl : SkipList) (k : string) (level : nat)
    (pred : option addr) : outcome (option addr * option addr) :=
  curr ← load_next sl pred level;
  if negb (is_ptr curr (tail sl))
  then find_advance (length (heap sl)) sl k level pred curr
  else Done (pred, curr).

(** The outer loop of [find], for the levels [n-1 .. 0]. [foundLevel] is
    [None] for Go's [-1]. *)
Fixpoint find_levels (sl : SkipList) (k : string) (n : nat) (pred : option addr)
    (foundLevel : option nat) (preds succs : list (option addr))
  : outcome (option nat * list (option addr) * list (option addr)) :=
  match n with
  | 0 => Done (foundLevel, preds, succs)
  | S level =>
      '(pred', curr) ← find_level sl k level pred;
      c ← load sl curr;
      let foundLevel' :=
        match foundLevel with
        | None => if key_eq_b k (key c) then Some level else None
        | Some _ => foundLevel
        end in
      find_levels sl k level pred' foundLevel'
                  (<[level := pred']> preds) (<[level := curr]> succs)
  end.

Definition find (sl : SkipList) (k : string)
  : outcome (option nat * list (option addr) * list (option addr)) :=
  find_levels sl k MAX_LEVEL (Some (head sl)) None
              (replicate MAX_LEVEL None) (replicate MAX_LEVEL None).

(** [Find] *)
Definition Find (sl : SkipList) (k : string) : outcome (V * bool) :=
  '(levelFound, _, succs) ← find sl k;
  match levelFound with
  | None => Done (zeroV, false)
  | Some lf =>
      s ← index succs lf;
      nd ← load sl s;
      v ← deref (value nd);
      Done (v, fullyLinked nd && negb (marked nd))
  end.

(** A call of the [check] callback: its arguments. *)
Definition call : Type := string * V * bool.

(** A computation together with the calls of the callback it made. *)
Definition traced (A : Type) : Type := list call * outcome A.

Definition untraced {A B} (m : outcome A) (f : A -> traced B) : traced B :=
  match m with
  | Done a => f a
  | Panic => ([], Panic)
  | Timeout => ([], Timeout)
  end.

(** The result of [Upsert]: the index, [updated] and [err]. *)
Definition UpsertResult : Type := SkipList * bool * option error.

(** The loop of [Upsert] that locks and validates the predecessors:
    for valid && level <= topLevel { ... }, [n] rounds being left. *)
Fixpoint Upsert_validate (sl : SkipList) (preds succs : list (option addr))
    (n level : nat) : outcome bool :=
  match n with
  | 0 => Done true
  | S n' =>
      predNode ← index preds level;
      succNode ← index succs level;
      if ptr_eqb predNode None || ptr_eqb succNode None then Done false
      else
        pn ← load sl predNode;
        sn ← load sl succNode;
        let unmarked := negb (marked pn) && negb (marked sn) in
        nx ← index (next pn) level;
        let connected := ptr_eqb nx succNode in
        if unmarked && connected
        then Upsert_validate sl preds succs n' (S level)
        else Done false
  end.

(** The loop of [Upsert] that links the new node:
    for level = 0; level <= topLevel; level++ { ... } *)
Fixpoint Upsert_link (sl : SkipList) (preds succs : list (option addr))
    (newNode : addr) (n level : nat) : outcome SkipList :=
  match n with
  | 0 => Done sl
  | S n' =>
      predNode ← index preds level;
      sl1 ← store_next sl predNode level (Some newNode);
      succNode ← index succs level;
      sl2 ← store_next sl1 (Some newNode) level succNode;
      Upsert_link sl2 preds succs newNode n' (S level)
  end.

(** [&Node{...}]: the new node gets the next free address.  The node is
    allocated when it is about to be linked; before that it is local to
    the call and invisible to everyone else. *)
Definition alloc (sl : SkipList) (nd : Node) : SkipList * addr :=
  (set_heap sl (heap sl ++ [nd]), length (heap sl)).

(** [Upsert].  Every [continue] of the outer [for] is a recursive call. *)
Fixpoint Upsert_loop (fuel : nat) (sl : SkipList) (k : string)
    (check : UpdateCheck) (c : coins) : traced UpsertResult :=
  match fuel with
  | 0 => ([], Timeout)
  | S fuel' =>
      untraced (find sl k) (fun '(levelFound, preds, succs) =>
      match levelFound with
      | Some lf =>
          untraced (foundNode ← index succs lf;
                    nd ← load sl foundNode;
                    Done (foundNode, nd)) (fun '(foundNode, nd) =>
          if marked nd || negb (fullyLinked nd)
          then Upsert_loop fuel' sl k check c
          else
            untraced (deref (value nd)) (fun v =>
            ([(k, v, true)],
             match check k v true with
             | inr err => Done (sl, false, Some err)
             | inl newValue =>
                 sl' ← store_value sl foundNode newValue;
                 Done (sl', true, None)
             end)))
      | None =>
          let topLevel := randomLevel c in
          untraced (Upsert_validate sl preds succs (S topLevel) 0) (fun valid =>
          if negb valid
          then Upsert_loop fuel' sl k check c
          else
            ([(k, zeroV, false)],
             match check k zeroV false with
             | inr err => Done (sl, false, Some err)
             | inl newValue =>
                 let '(sl1, newNode) :=
                   alloc sl (mkNode k (Some newValue) topLevel false false
                                    (replicate (S topLevel) None)) in
                 sl2 ← Upsert_link sl1 preds succs newNode (S topLevel) 0;
                 sl3 ← store_fullyLinked sl2 (Some newNode);
                 Done (count_add1 sl3, true, None)
             end))
      end)
  end.

Definition Upsert (fuel : nat) (sl : SkipList) (k : string)
    (check : UpdateCheck) (c : coins) : outcome UpsertResult :=
  snd (Upsert_loop fuel sl k check c).

(** The calls of [check] that [Upsert] makes. *)
Definition Upsert_calls (fuel : nat) (sl : SkipList) (k : string)
    (check : UpdateCheck) (c : coins) : list call :=
  fst (Upsert_loop fuel sl k check c).

(** The loop of [Remove] that locks and validates the predecessors. *)
Fixpoint Remove_validate (sl : SkipList) (preds : list (option addr))
    (victim : option addr) (n level : nat) : outcome bool :=
  match n with
  | 0 => Done true
  | S n' =>
      pred ← index preds level;
      pn ← load sl pred;
      nx ← index (next pn) level;
      let successor := ptr_eqb nx victim in
      if negb (marked pn) && successor
      then Remove_validate sl preds victim n' (S level)
      else Done false
  end.

(** The loop of [Remove] that unlinks the victim, for the levels
    [n-1 .. 0]:  preds[level].next[level].Store(victim.next[level].Load()) *)
Fixpoint Remove_unlink (sl : SkipList) (preds : list (option addr))
    (victim : option addr) (n : nat) : outcome SkipList :=
  match n with
  | 0 => Done sl
  | S level =>
      pred ← index preds level;
      nx ← load_next sl victim level;
      sl' ← store_next sl pred level nx;
      Remove_unlink sl' preds victim level
  end.

(** [Remove].  [isMarked] and [topLevel] live across the rounds of the
    outer loop; [topLevel] is read only once [isMarked] is set, so its
    initial [-1] is not represented. *)
Fixpoint Remove_loop (fuel : nat) (sl : SkipList) (k : string)
    (isMarked : bool) (topLevel0 : nat) : outcome (SkipList * (V * bool)) :=
  match fuel with
  | 0 => Timeout
  | S fuel' =>
      '(foundLevel, preds, succs) ← find sl k;
      match foundLevel with
      | None => Done (sl, (zeroV, false))
      | Some fl =>
          victim ← index succs fl;
          if ptr_eqb victim None then Done (sl, (zeroV, false))
          else
            r ← (if negb isMarked then
                   vn ← load sl victim;
                   if negb (fullyLinked vn) || marked vn
                      || negb (Nat.eqb (topLevel vn) fl)
                   then Done None
                   else
                     sl' ← store_marked sl victim;
                     Done (Some (sl', topLevel vn))
                 else Done (Some (sl, topLevel0)));
            match r with
            | None => Done (sl, (zeroV, false))
            | Some (sl1, topLevel1) =>
                valid ← Remove_validate sl1 preds victim (S topLevel1) 0;
                if negb valid
                then Remove_loop fuel' sl1 k true topLevel1
                else
                  sl2 ← Remove_unlink sl1 preds victim (S topLevel1);
                  vn ← load sl2 victim;
                  removedValue ← deref (value vn);
                  Done (count_add1 sl2, (removedValue, true))
            end
      end
  end.

Definition Remove (fuel : nat) (sl : SkipList) (k : string)
  : outcome (SkipList * (V * bool)) :=
  Remove_loop fuel sl k false 0.

(** The traversal of [Query] at level 0.  [ctx_done] tells whether the
    context is cancelled; [ctx.Err()] is then returned with nil results. *)
Fixpoint Query_scan (fuel : nat) (sl : SkipList) (ctx_done goToEnd : bool)
    (end_ : string) (current : option addr) (results : list V)
  : outcome (list V * option error) :=
  match fuel with
  | 0 => Timeout
  | S fuel' =>
      if is_ptr current (tail sl) then Done (results, None)
      else if ctx_done then Done ([], Some "context canceled")
      else
        cn ← load sl current;
        if negb goToEnd && key_gt_b (key cn) end_ then Done (results, None)
        else
          results' ←
            (if fullyLinked cn && negb (marked cn)
             then v ← deref (value cn); Done (results ++ [v])
             else Done results);
          nx ← index (next cn) 0;
          Query_scan fuel' sl ctx_done goToEnd end_ nx results'
  end.

(** [Query].  The retry on a changed [count] is the recursive call. *)
Fixpoint Query (fuel : nat) (sl : SkipList) (ctx_done : bool)
    (start end_ : string) : outcome (list V * option error) :=
  match fuel with
  | 0 => Timeout
  | S fuel' =>
      let preCount := count sl in
      current ←
        (if key_eq_b start ""
         then load_next sl (Some (head sl)) 0
         else '(_, _, succs) ← find sl start; index succs 0);
      let goToEnd := key_eq_b end_ "" in
      r ← Query_scan (S (length (heap sl))) sl ctx_done goToEnd end_ current [];
      match r with
      | (_, Some err) => Done r
      | (results, None) =>
          let postCount := count sl in
          if negb (Z.eqb postCount preCount)
          then Query fuel' sl ctx_done start end_
          else Done (results, None)
      end
  end.

End SkipList.

Arguments Node : clear implicits.
Arguments SkipList : clear implicits.
Arguments UpdateCheck : clear implicits.

End skiplist.


(** ** The representation invariant of the skip list *)

Module skiplist_rep.
Import skiplist.

(** The last element of [d :: l], and the first of [l ++ [d]]. *)
Fixpoint lastd {A} (d : A) (l : list A) : A :=
  match l with
  | [] => d
  | x :: l' => lastd x l'
  end.

Definition hdd {A} (d : A) (l : list A) : A :=
  match l with
  | [] => d
  | x :: _ => x
  end.

Lemma lastd_app {A} (d : A) (l1 l2 : list A) :
  lastd d (l1 ++ l2) = lastd (lastd d l1) l2.
Proof. revert d; induction l1 as [|x l1 IH]; intros d; simpl; auto. Qed.

Lemma lastd_elem {A} (d : A) (l : list A) : lastd d l = d \/ lastd d l ∈ l.
Proof.
  revert d; induction l as [|x l IH]; intros d; simpl; [by left|].
  right. destruct (IH x) as [->|H]; [left|by right].
Qed.

Lemma lastd_cons_elem {A} (d : A) (l : list A) : lastd d l ∈ d :: l.
Proof. destruct (lastd_elem d l) as [->|H]; [left|by right]. Qed.

Lemma filter_none {A} (P : A -> Prop) `{!forall x, Decision (P x)} (l : list A) :
  Forall (fun x => ~ P x) l -> filter P l = [].
Proof.
  induction 1 as [|x l Hx _ IH]; [done|]. by rewrite filter_cons_False.
Qed.

Lemma filter_all {A} (P : A -> Prop) `{!forall x, Decision (P x)} (l : list A) :
  Forall P l -> filter P l = l.
Proof.
  induction 1 as [|x l Hx _ IH]; [done|]. rewrite filter_cons_True by done.
  by f_equal.
Qed.

Lemma obind_Done {A B} (a : A) (f : A -> outcome B) : (Done a ≫= f) = f a.
Proof. reflexivity. Qed.

Lemma index_Some {A} (l : list A) i x : l !! i = Some x -> index l i = Done x.
Proof. unfold index. by intros ->. Qed.

Lemma index_Done {A} (l : list A) i x : index l i = Done x -> l !! i = Some x.
Proof. unfold index. destruct (l !! i); by inversion 1. Qed.

Section Rep.
Context {V : Type}.
Implicit Types (sl : SkipList V) (L : list addr) (a p q : addr) (k : string).

Definition keyOf sl a : string := from_option key "" (heap sl !! a).
Definition lvlOf sl a : nat := from_option topLevel 0 (heap sl !! a).
Definition valOf sl a : option V := heap sl !! a ≫= value.
Definition nextOf sl a (i : nat) : option (option addr) :=
  heap sl !! a ≫= fun nd => next nd !! i.

(** A node that is part of the list: fully linked, not marked, with a
    value, and with one [next] pointer per level [0 .. topLevel]. *)
Definition linked sl a : Prop :=
  exists nd, heap sl !! a = Some nd /\ fullyLinked nd = true /\ marked nd = false
    /\ is_Some (value nd) /\ topLevel nd < MAX_LEVEL
    /\ length (next nd) = S (topLevel nd) /\ a <> head sl /\ a <> tail sl.

(** From [p], the [next] pointers at level [i] run through [l] and then
    reach the tail. *)
Fixpoint chain sl (i : nat) p (l : list addr) : Prop :=
  match l with
  | [] => nextOf sl p i = Some (Some (tail sl))
  | q :: l' => nextOf sl p i = Some (Some q) /\ chain sl i q l'
  end.

Definition at_level sl (i : nat) L : list addr :=
  filter (fun a => i <= lvlOf sl a) L.

(** [Rep sl L]: the index holds the nodes [L], in ascending key order;
    level [i] links those of them whose [topLevel] is at least [i]. *)
Record Rep sl L : Prop := mkRep {
  rep_head_tail : head sl <> tail sl;
  rep_tail : exists nd, heap sl !! tail sl = Some nd /\ key nd = ""
               /\ marked nd = false /\ fullyLinked nd = false /\ value nd = None;
  rep_head : exists nd, heap sl !! head sl = Some nd /\ marked nd = false
               /\ length (next nd) = MAX_LEVEL;
  rep_nodes : Forall (linked sl) L;
  rep_sorted : StronglySorted key_lt (keyOf sl <$> L);
  rep_size : length L + 2 <= length (heap sl);
  rep_chain : forall i, i < MAX_LEVEL -> chain sl i (head sl) (at_level sl i L)
}.

Global Instance key_lt_dec : RelDecision key_lt.
Proof. intros a b. unfold key_lt. apply _. Defined.

(** The nodes with a key below [k], and the others. *)
Definition below sl k L : list addr := filter (fun a => key_lt (keyOf sl a) k) L.
Definition above sl k L : list addr := filter (fun a => ~ key_lt (keyOf sl a) k) L.

(** What [find] computes at level [i]. *)
Definition pred_at sl k L i : addr := lastd (head sl) (at_level sl i (below sl k L)).
Definition succ_at sl k L i : addr := hdd (tail sl) (at_level sl i (above sl k L)).

Lemma load_Some sl a nd : heap sl !! a = Some nd -> load sl (Some a) = Done nd.
Proof. intros H. unfold load. simpl. by apply index_Some. Qed.

Lemma load_next_Some sl a i (o : option addr) :
  nextOf sl a i = Some o -> load_next sl (Some a) i = Done o.
Proof.
  unfold nextOf, load_next. destruct (heap sl !! a) as [nd|] eqn:E; [|done].
  simpl. intros H. rewrite (load_Some _ _ _ E). simpl. by apply index_Some.
Qed.

Lemma is_ptr_true (o : option addr) a : is_ptr o a = true <-> o = Some a.
Proof.
  destruct o as [b|]; simpl; [|split; done].
  rewrite Nat.eqb_eq. split; congruence.
Qed.

Lemma is_ptr_ne a b : a <> b -> is_ptr (Some a) b = false.
Proof. intros H. simpl. by apply Nat.eqb_neq. Qed.

Lemma is_ptr_refl a : is_ptr (Some a) a = true.
Proof. simpl. apply Nat.eqb_refl. Qed.

Lemma linked_key sl a : linked sl a ->
  exists nd, heap sl !! a = Some nd /\ key nd = keyOf sl a.
Proof. intros (nd & H & _). exists nd. split; [done|]. unfold keyOf. by rewrite H. Qed.

Lemma chain_hd sl i p l : chain sl i p l -> nextOf sl p i = Some (Some (hdd (tail sl) l)).
Proof. destruct l; simpl; tauto. Qed.

Lemma chain_app_inv sl i p l1 q l2 :
  chain sl i p (l1 ++ q :: l2) -> chain sl i q l2.
Proof. revert p; induction l1 as [|x l1 IH]; simpl; intros p [_ H]; eauto. Qed.

Lemma chain_tl sl i p q l : chain sl i p (q :: l) -> chain sl i q l.
Proof. simpl; tauto. Qed.

(** The inner loop of [find] walks over the keys below [k]. *)
Lemma find_advance_spec sl k i X : forall fuel p Bl,
  length X < fuel ->
  X ++ Bl <> [] ->
  chain sl i p (X ++ Bl) ->
  Forall (linked sl) (X ++ Bl) ->
  Forall (fun a => key_lt (keyOf sl a) k) X ->
  (forall b, hdd (tail sl) Bl = b -> Bl <> [] -> ~ key_lt (keyOf sl b) k) ->
  find_advance fuel sl k i (Some p) (Some (hdd (tail sl) (X ++ Bl)))
  = Done (Some (lastd p X), Some (hdd (tail sl) Bl)).
Proof.
  induction X as [|x X IH]; intros fuel p Bl Hfuel Hne Hch Hl Hlt Hge.
  - simpl in *. destruct Bl as [|b Bl]; [done|]. simpl.
    destruct fuel as [|fuel]; [lia|]. simpl.
    apply Forall_cons in Hl as [Hb _].
    destruct (linked_key _ _ Hb) as (nd & Hnd & Hk).
    rewrite (load_Some _ _ _ Hnd). simpl. rewrite Hk.
    unfold key_gt_b. specialize (Hge b eq_refl). unfold key_lt in Hge.
    destruct (String.ltb (keyOf sl b) k); [exfalso; by apply Hge|done].
  - destruct fuel as [|fuel]; [simpl in Hfuel; lia|].
    simpl in Hch. destruct Hch as [_ Hch].
    simpl in Hl. apply Forall_cons in Hl as [Hx Hl].
    apply Forall_cons in Hlt as [Hxk Hlt].
    simpl. destruct (linked_key _ _ Hx) as (nd & Hnd & Hk).
    rewrite (load_Some _ _ _ Hnd). simpl. rewrite Hk.
    unfold key_gt_b. unfold key_lt in Hxk. rewrite Hxk.
    rewrite (load_next_Some _ _ _ _ (chain_hd _ _ _ _ Hch)). simpl.
    destruct (X ++ Bl) as [|y Y] eqn:EXB.
    + simpl. rewrite Nat.eqb_refl.
      apply app_eq_nil in EXB as [-> ->]. done.
    + assert (y <> tail sl) as Hy.
      { apply Forall_cons in Hl as [(? & ? & ? & ? & ? & ? & ? & ? & ?) _]. done. }
      cbn [hdd]. destruct (Nat.eqb_spec y (tail sl)) as [?|_]; [done|].
      rewrite <- EXB in *.
      replace y with (hdd (tail sl) (X ++ Bl)) by (by rewrite EXB).
      apply IH; auto.
      * simpl in Hfuel. lia.
      * rewrite EXB. done.
Qed.

Lemma filter_lastd_skip sl i (P Q : addr -> Prop)
    `{!forall x, Decision (P x)} `{!forall x, Decision (Q x)} :
  (forall x, P x -> Q x) ->
  forall (l : list addr) d Bl,
  chain sl i d (filter Q l ++ Bl) ->
  exists l1 X, filter Q l = l1 ++ X
    /\ chain sl i (lastd d (filter P l)) (X ++ Bl)
    /\ lastd (lastd d (filter P l)) X = lastd d (filter Q l).
Proof.
  intros HPQ l. induction l as [|a l IH] using rev_ind; intros d Bl Hch.
  - exists [], []. simpl. auto.
  - rewrite !filter_app in *. rewrite !filter_cons, !filter_nil in *.
    destruct (decide (P a)) as [HP|HP].
    + destruct (decide (Q a)) as [HQ|HQ]; [|by destruct HQ; auto].
      exists (filter Q l ++ [a]), []. rewrite app_nil_r. split; [done|].
      rewrite !lastd_app. simpl. split; [|done].
      rewrite <- app_assoc in Hch. simpl in Hch.
      by apply chain_app_inv in Hch.
    + rewrite app_nil_r. destruct (decide (Q a)) as [HQ|HQ].
      * rewrite <- app_assoc in Hch. simpl in Hch.
        destruct (IH d (a :: Bl) Hch) as (l1 & X & E & Hc & Hlast).
        exists l1, (X ++ [a]). rewrite E, <- !app_assoc. simpl.
        split; [done|]. split; [done|].
        by rewrite !lastd_app.
      * rewrite app_nil_r in *. by apply IH.
Qed.

Lemma key_lt_trans (x y z : string) : key_lt x y -> key_lt y z -> key_lt x z.
Proof. apply ltb_trans. Qed.

Lemma key_lt_irrefl (x : string) : ~ key_lt x x.
Proof. unfold key_lt. by rewrite ltb_irrefl. Qed.

Lemma sorted_split sl k L :
  StronglySorted key_lt (keyOf sl <$> L) -> L = below sl k L ++ above sl k L.
Proof.
  unfold below, above. induction L as [|a L IH]; [done|].
  rewrite fmap_cons, StronglySorted_cons, Forall_fmap. intros [Ha HL].
  rewrite !filter_cons. destruct (decide (key_lt (keyOf sl a) k)) as [Hk|Hk].
  - destruct (decide (~ key_lt (keyOf sl a) k)); [done|]. simpl. f_equal; auto.
  - destruct (decide (~ key_lt (keyOf sl a) k)); [|done].
    assert (Forall (fun x => ~ key_lt (keyOf sl x) k) L) as Hall.
    { eapply Forall_impl; [exact Ha|]. simpl. intros x Hax Hxk. apply Hk.
      eapply key_lt_trans; eauto. }
    assert (filter (fun x => key_lt (keyOf sl x) k) L = []) as ->.
    { apply filter_none. eapply Forall_impl; [exact Hall|]. auto. }
    simpl. f_equal. symmetry. by apply filter_all.
Qed.

Lemma at_level_app sl i l1 l2 :
  at_level sl i (l1 ++ l2) = at_level sl i l1 ++ at_level sl i l2.
Proof. apply filter_app. Qed.

Lemma linked_lvl sl a : linked sl a -> lvlOf sl a < MAX_LEVEL.
Proof. intros (nd & H & _ & _ & _ & Hl & _). unfold lvlOf. by rewrite H. Qed.

Lemma at_level_MAX sl L : Forall (linked sl) L -> at_level sl MAX_LEVEL L = [].
Proof.
  intros H. apply filter_none. eapply Forall_impl; [exact H|].
  intros a Ha%linked_lvl. simpl. lia.
Qed.

Lemma Forall_below sl k L : Forall (fun a => key_lt (keyOf sl a) k) (below sl k L).
Proof. apply Forall_forall. intros a Ha. by apply list_elem_of_filter in Ha as [? _]. Qed.

Lemma Forall_above sl k L : Forall (fun a => ~ key_lt (keyOf sl a) k) (above sl k L).
Proof. apply Forall_forall. intros a Ha. by apply list_elem_of_filter in Ha as [? _]. Qed.

Lemma Forall_sub_filter {A} (P : A -> Prop) `{!forall x, Decision (P x)}
    (R : A -> Prop) (l : list A) :
  Forall R l -> Forall R (filter P l).
Proof.
  intros HRl. apply Forall_forall. intros a Ha.
  apply list_elem_of_filter in Ha as [_ Ha]. eapply Forall_forall in HRl; eauto.
Qed.

Lemma pred_at_MAX sl k L : Rep sl L -> pred_at sl k L MAX_LEVEL = head sl.
Proof.
  intros HR. unfold pred_at. rewrite at_level_MAX; [done|].
  apply Forall_sub_filter, HR.
Qed.

(** One round of [find] at level [i], started from the predecessor found
    one level up. *)
Lemma find_level_spec sl k L i :
  Rep sl L -> i < MAX_LEVEL ->
  find_level sl k i (Some (pred_at sl k L (S i)))
  = Done (Some (pred_at sl k L i), Some (succ_at sl k L i)).
Proof.
  intros HR Hi.
  pose proof (rep_chain _ _ HR i Hi) as Hch.
  rewrite (sorted_split sl k L (rep_sorted _ _ HR)), at_level_app in Hch.
  unfold at_level at 1 in Hch.
  destruct (filter_lastd_skip sl i (fun a => S i <= lvlOf sl a) (fun a => i <= lvlOf sl a)
              ltac:(intros; simpl in *; lia) _ _ _ Hch) as (l1 & X & E & Hc & Hlast).
  fold (at_level sl (S i) (below sl k L)) in Hc, Hlast.
  fold (at_level sl i (below sl k L)) in E, Hlast.
  fold (pred_at sl k L (S i)) in Hc, Hlast. fold (pred_at sl k L i) in Hlast.
  unfold find_level.
  rewrite (load_next_Some _ _ _ _ (chain_hd _ _ _ _ Hc)). simpl.
  assert (Forall (linked sl) (X ++ at_level sl i (above sl k L))) as Hlk.
  { apply Forall_app. split.
    - assert (Forall (linked sl) (at_level sl i (below sl k L))) as H.
      { apply Forall_sub_filter, Forall_sub_filter, HR. }
      rewrite E in H. by apply Forall_app in H as [_ ?].
    - apply Forall_sub_filter, Forall_sub_filter, HR. }
  destruct (X ++ at_level sl i (above sl k L)) as [|y Y] eqn:EXB.
  - apply app_eq_nil in EXB as [-> EB]. simpl in Hlast. rewrite <- Hlast.
    cbn [hdd]. rewrite Nat.eqb_refl. simpl. unfold succ_at. by rewrite EB.
  - assert (y <> tail sl) as Hy.
    { apply Forall_cons in Hlk as [(? & ? & ? & ? & ? & ? & ? & ? & ?) _]. done. }
    cbn [hdd]. destruct (Nat.eqb_spec y (tail sl)) as [?|_]; [done|]. simpl.
    replace y with (hdd (tail sl) (X ++ at_level sl i (above sl k L)))
      by (by rewrite EXB).
    rewrite <- Hlast. unfold succ_at.
    apply find_advance_spec.
    + assert (length X <= length L) as HX.
      { transitivity (length (at_level sl i (below sl k L))).
        - rewrite E, length_app. lia.
        - unfold at_level, below. etransitivity; apply length_filter. }
      pose proof (rep_size _ _ HR). lia.
    + by rewrite EXB.
    + by rewrite EXB.
    + by rewrite EXB.
    + pose proof (Forall_sub_filter (fun a => i <= lvlOf sl a) _ _ (Forall_below sl k L)) as H.
      fold (at_level sl i (below sl k L)) in H. rewrite E in H.
      by apply Forall_app in H as [_ ?].
    + intros b Hb Hne.
      pose proof (Forall_sub_filter (fun a => i <= lvlOf sl a) _ _ (Forall_above sl k L)) as H.
      fold (at_level sl i (above sl k L)) in H.
      destruct (at_level sl i (above sl k L)) as [|b' Bl']; [done|].
      simpl in Hb. subst b'. by apply Forall_cons in H as [? _].
Qed.

(** The level at which [find] reports the key: the highest level whose
    successor carries the key (the tail carries the key [""]). *)
Fixpoint found_below sl k L (n : nat) : option nat :=
  match n with
  | 0 => None
  | S i => if key_eq_b k (keyOf sl (succ_at sl k L i)) then Some i
           else found_below sl k L i
  end.

(** The slices [preds] and [succs] after the rounds [n-1 .. 0]. *)
Fixpoint fill (f : nat -> addr) (n : nat) (l : list (option addr))
  : list (option addr) :=
  match n with
  | 0 => l
  | S i => fill f i (<[i := Some (f i)]> l)
  end.

Lemma fill_length f n l : length (fill f n l) = length l.
Proof. revert l; induction n as [|n IH]; intros l; simpl; [done|]. by rewrite IH, length_insert. Qed.

Lemma fill_lookup f n : forall l i, n <= length l ->
  fill f n l !! i = if decide (i < n) then Some (Some (f i)) else l !! i.
Proof.
  induction n as [|n IH]; intros l i Hn; simpl.
  - destruct (decide (i < 0)); [lia|done].
  - rewrite IH by (rewrite length_insert; lia).
    destruct (decide (i < n)); destruct (decide (i < S n)); try lia; try done.
    + assert (i = n) as -> by lia. by rewrite list_lookup_insert_eq by lia.
    + by rewrite list_lookup_insert_ne by lia.
Qed.

Lemma succ_at_elem sl k L i :
  succ_at sl k L i = tail sl \/ succ_at sl k L i ∈ above sl k L.
Proof.
  unfold succ_at. destruct (at_level sl i (above sl k L)) as [|b Bl] eqn:E; [by left|].
  right. simpl. assert (b ∈ at_level sl i (above sl k L)) as H by (rewrite E; left).
  by apply list_elem_of_filter in H as [_ ?].
Qed.

Lemma above_elem sl k L a : a ∈ above sl k L -> a ∈ L /\ ~ key_lt (keyOf sl a) k.
Proof. intros H. apply list_elem_of_filter in H. tauto. Qed.

Lemma below_elem sl k L a : a ∈ below sl k L -> a ∈ L /\ key_lt (keyOf sl a) k.
Proof. intros H. apply list_elem_of_filter in H. tauto. Qed.

Lemma Rep_linked sl L a : Rep sl L -> a ∈ L -> linked sl a.
Proof. intros HR Ha. pose proof (rep_nodes _ _ HR) as H. eapply Forall_forall in H; eauto. Qed.

Lemma succ_at_node sl k L i : Rep sl L ->
  exists nd, heap sl !! succ_at sl k L i = Some nd /\ key nd = keyOf sl (succ_at sl k L i).
Proof.
  intros HR. destruct (succ_at_elem sl k L i) as [E|Hin].
  - rewrite E. destruct (rep_tail _ _ HR) as (nd & Hnd & ?).
    exists nd. split; [done|]. unfold keyOf. by rewrite Hnd.
  - apply linked_key. eapply Rep_linked; eauto. by apply above_elem in Hin as [? _].
Qed.

Lemma find_levels_spec sl k L : Rep sl L -> forall n fl preds succs,
  n <= MAX_LEVEL ->
  find_levels sl k n (Some (pred_at sl k L n)) fl preds succs
  = Done (match fl with Some _ => fl | None => found_below sl k L n end,
          fill (pred_at sl k L) n preds, fill (succ_at sl k L) n succs).
Proof.
  intros HR. induction n as [|n IH]; intros fl preds succs Hn.
  - simpl. by destruct fl.
  - cbn [find_levels]. rewrite (find_level_spec sl k L n HR) by lia.
    rewrite obind_Done.
    destruct (succ_at_node sl k L n HR) as (nd & Hnd & Hk).
    rewrite (load_Some _ _ _ Hnd), obind_Done. rewrite IH by lia.
    cbn [found_below fill]. rewrite Hk.
    destruct fl; [done|]. by destruct (key_eq_b k (keyOf sl (succ_at sl k L n))).
Qed.

Definition preds_of sl k L : list (option addr) :=
  fill (pred_at sl k L) MAX_LEVEL (replicate MAX_LEVEL None).
Definition succs_of sl k L : list (option addr) :=
  fill (succ_at sl k L) MAX_LEVEL (replicate MAX_LEVEL None).

(** [find] under the invariant. *)
Lemma find_spec sl k L : Rep sl L ->
  find sl k = Done (found_below sl k L MAX_LEVEL, preds_of sl k L, succs_of sl k L).
Proof.
  intros HR. unfold find. rewrite <- (pred_at_MAX sl k L HR).
  by rewrite (find_levels_spec sl k L HR).
Qed.

Lemma preds_of_lookup sl k L i : i < MAX_LEVEL ->
  preds_of sl k L !! i = Some (Some (pred_at sl k L i)).
Proof.
  intros Hi. unfold preds_of. rewrite fill_lookup by (by rewrite length_replicate).
  by destruct (decide (i < MAX_LEVEL)).
Qed.

Lemma succs_of_lookup sl k L i : i < MAX_LEVEL ->
  succs_of sl k L !! i = Some (Some (succ_at sl k L i)).
Proof.
  intros Hi. unfold succs_of. rewrite fill_lookup by (by rewrite length_replicate).
  by destruct (decide (i < MAX_LEVEL)).
Qed.

Lemma preds_of_ge sl k L i : MAX_LEVEL <= i -> preds_of sl k L !! i = None.
Proof.
  intros Hi. apply lookup_ge_None. unfold preds_of.
  by rewrite fill_length, length_replicate.
Qed.

Lemma succs_of_ge sl k L i : MAX_LEVEL <= i -> succs_of sl k L !! i = None.
Proof.
  intros Hi. apply lookup_ge_None. unfold succs_of.
  by rewrite fill_length, length_replicate.
Qed.

Lemma found_below_Some sl k L n lf : found_below sl k L n = Some lf ->
  lf < n /\ keyOf sl (succ_at sl k L lf) = k.
Proof.
  induction n as [|n IH]; simpl; [done|].
  destruct (key_eq_b k (keyOf sl (succ_at sl k L n))) eqn:E.
  - intros [= <-]. apply key_eq_b_true in E. split; [lia|done].
  - intros H. destruct (IH H). split; [lia|done].
Qed.

Lemma found_below_None sl k L n i : found_below sl k L n = None ->
  i < n -> keyOf sl (succ_at sl k L i) <> k.
Proof.
  induction n as [|n IH]; simpl; [lia|].
  destruct (key_eq_b k (keyOf sl (succ_at sl k L n))) eqn:E; [done|].
  intros H Hi. apply key_eq_b_false in E.
  destruct (decide (i = n)) as [->|]; [congruence|]. apply IH; [done|lia].
Qed.

End Rep.
End skiplist_rep.

(** ** The operations preserve the invariant *)

Module skiplist_ops.
Import skiplist skiplist_rep.

Lemma StronglySorted_lt_NoDup (l : list string) : StronglySorted key_lt l -> NoDup l.
Proof.
  induction 1 as [|x l _ IH Hx]; [constructor|].
  apply NoDup_cons. split; [|done].
  intros Hin. eapply Forall_forall in Hx; [|exact Hin]. by apply key_lt_irrefl in Hx.
Qed.

Lemma filter_ext_elem {A} (P Q : A -> Prop) `{!forall x, Decision (P x)}
    `{!forall x, Decision (Q x)} (l : list A) :
  (forall x, x ∈ l -> P x <-> Q x) -> filter P l = filter Q l.
Proof.
  induction l as [|x l IH]; intros HPQ; [done|].
  rewrite !filter_cons.
  assert (filter P l = filter Q l) as -> by (apply IH; intros; apply HPQ; by right).
  destruct (decide (P x)) as [HP|HP]; destruct (decide (Q x)) as [HQ|HQ]; try done.
  - apply HPQ in HP; [done|left].
  - apply HPQ in HQ; [done|left].
Qed.

Section Ops.
Context {V : Type}.
Implicit Types (sl : SkipList V) (L : list addr) (a p q : addr) (k : string).

(** [frame exc sl sl']: every node of [sl] is still there in [sl'] with
    the same key, level and number of pointers and, except at [exc], the
    same flags and value.  Only the pointers themselves may differ. *)
Record frame (exc : option addr) sl sl' : Prop := mkFrame {
  fr_head : head sl' = head sl;
  fr_tail : tail sl' = tail sl;
  fr_len : length (heap sl) <= length (heap sl');
  fr_node : forall b nd, heap sl !! b = Some nd ->
    exists nd', heap sl' !! b = Some nd' /\ key nd' = key nd
      /\ topLevel nd' = topLevel nd /\ length (next nd') = length (next nd)
      /\ (exc <> Some b -> marked nd' = marked nd
            /\ fullyLinked nd' = fullyLinked nd /\ value nd' = value nd)
}.

Lemma frame_refl exc sl : frame exc sl sl.
Proof. split; auto. intros b nd H. exists nd. auto 10. Qed.

Lemma frame_trans exc sl1 sl2 sl3 :
  frame exc sl1 sl2 -> frame exc sl2 sl3 -> frame exc sl1 sl3.
Proof.
  intros [h1 t1 l1 n1] [h2 t2 l2 n2]. split; [congruence|congruence|lia|].
  intros b nd H. destruct (n1 b nd H) as (nd' & H' & ? & ? & ? & Hd).
  destruct (n2 b nd' H') as (nd'' & H'' & ? & ? & ? & Hd').
  exists nd''. split; [done|]. split; [congruence|]. split; [congruence|].
  split; [congruence|]. intros Hne.
  destruct (Hd Hne) as (? & ? & ?), (Hd' Hne) as (? & ? & ?).
  repeat split; congruence.
Qed.

Lemma frame_keyOf exc sl sl' b : frame exc sl sl' -> b < length (heap sl) ->
  keyOf sl' b = keyOf sl b.
Proof.
  intros HF Hb. apply lookup_lt_is_Some in Hb as [nd Hnd].
  destruct (fr_node _ _ _ HF b nd Hnd) as (nd' & Hnd' & Hk & _).
  unfold keyOf. by rewrite Hnd, Hnd'.
Qed.

Lemma frame_lvlOf exc sl sl' b : frame exc sl sl' -> b < length (heap sl) ->
  lvlOf sl' b = lvlOf sl b.
Proof.
  intros HF Hb. apply lookup_lt_is_Some in Hb as [nd Hnd].
  destruct (fr_node _ _ _ HF b nd Hnd) as (nd' & Hnd' & _ & Hk & _).
  unfold lvlOf. by rewrite Hnd, Hnd'.
Qed.

Lemma frame_valOf exc sl sl' b : frame exc sl sl' -> b < length (heap sl) ->
  exc <> Some b -> valOf sl' b = valOf sl b.
Proof.
  intros HF Hb Hne. apply lookup_lt_is_Some in Hb as [nd Hnd].
  destruct (fr_node _ _ _ HF b nd Hnd) as (nd' & Hnd' & _ & _ & _ & Hd).
  destruct (Hd Hne) as (_ & _ & Hv).
  unfold valOf. by rewrite Hnd, Hnd'.
Qed.

Lemma frame_linked exc sl sl' b : frame exc sl sl' -> exc <> Some b ->
  linked sl b -> linked sl' b.
Proof.
  intros HF Hne (nd & Hnd & Hf & Hm & Hv & Ht & Hl & Hh & Htl).
  destruct (fr_node _ _ _ HF b nd Hnd) as (nd' & Hnd' & _ & Ht' & Hl' & Hd).
  destruct (Hd Hne) as (Hm' & Hf' & Hv').
  exists nd'. rewrite (fr_head _ _ _ HF), (fr_tail _ _ _ HF).
  repeat split; congruence.
Qed.

Lemma linked_lt sl a : linked sl a -> a < length (heap sl).
Proof. intros (nd & H & _). by apply lookup_lt_Some in H. Qed.

Lemma chain_ext sl sl' i l : forall p,
  tail sl' = tail sl ->
  (forall b, b ∈ p :: l -> nextOf sl' b i = nextOf sl b i) ->
  chain sl i p l -> chain sl' i p l.
Proof.
  induction l as [|x l IH]; intros p Ht He; simpl.
  - intros H. rewrite He, Ht; [done|left].
  - intros [H1 H2]. split; [rewrite He; [done|left]|].
    apply IH; [done| |done]. intros b Hb. apply He. by right.
Qed.

Lemma chain_last sl i A : forall h B,
  chain sl i h (A ++ B) -> nextOf sl (lastd h A) i = Some (Some (hdd (tail sl) B)).
Proof.
  induction A as [|a A IH]; simpl; intros h B H; [by apply (chain_hd sl i h B)|].
  destruct H; eauto.
Qed.

Lemma chain_from_hd sl sl' i p l :
  tail sl' = tail sl ->
  nextOf sl' p i = Some (Some (hdd (tail sl) l)) ->
  (forall b, b ∈ l -> nextOf sl' b i = nextOf sl b i) ->
  match l with [] => True | q :: l' => chain sl i q l' end ->
  chain sl' i p l.
Proof.
  intros Ht Hn He Hc. destruct l as [|x l]; simpl in *; [by rewrite Ht|].
  split; [done|]. by apply (chain_ext sl sl').
Qed.

Lemma chain_insert sl sl' i n A : forall h B,
  tail sl' = tail sl ->
  chain sl i h (A ++ B) ->
  NoDup (h :: A ++ B) ->
  nextOf sl' (lastd h A) i = Some (Some n) ->
  nextOf sl' n i = Some (Some (hdd (tail sl) B)) ->
  (forall b, b ∈ h :: A ++ B -> b <> lastd h A -> nextOf sl' b i = nextOf sl b i) ->
  chain sl' i h (A ++ n :: B).
Proof.
  induction A as [|a A IH]; intros h B Ht Hc Hnd Hp Hn He.
  - simpl in *. split; [done|].
    apply (chain_from_hd sl sl'); [done|done| |destruct B; simpl in *; tauto].
    intros b Hb. apply He; [by right|]. intros ->.
    apply NoDup_cons in Hnd as [? _]. done.
  - simpl in *. destruct Hc as [Hc1 Hc2].
    apply NoDup_cons in Hnd as [Hh Hnd].
    split.
    + rewrite He; [done|left|]. intros ->. apply Hh.
      pose proof (lastd_cons_elem a A) as Hin.
      rewrite app_comm_cons. apply elem_of_app. by left.
    + apply IH; auto. intros b Hb. apply He. by right.
Qed.

Lemma chain_remove sl sl' i v A : forall h B,
  tail sl' = tail sl ->
  chain sl i h (A ++ v :: B) ->
  NoDup (h :: A ++ v :: B) ->
  nextOf sl' (lastd h A) i = Some (Some (hdd (tail sl) B)) ->
  (forall b, b ∈ h :: A ++ B -> b <> lastd h A -> nextOf sl' b i = nextOf sl b i) ->
  chain sl' i h (A ++ B).
Proof.
  induction A as [|a A IH]; intros h B Ht Hc Hnd Hp He.
  - simpl in *. destruct Hc as [_ Hc].
    apply (chain_from_hd sl sl'); [done|done| |destruct B; simpl in *; tauto].
    intros b Hb. apply He; [by right|]. intros ->.
    apply NoDup_cons in Hnd as [Hh _]. apply Hh. by right.
  - simpl in *. destruct Hc as [Hc1 Hc2].
    apply NoDup_cons in Hnd as [Hh Hnd].
    split.
    + rewrite He; [done|left|]. intros ->. apply Hh.
      pose proof (lastd_cons_elem a A) as Hin.
      rewrite app_comm_cons. apply elem_of_app. by left.
    + apply IH; auto. intros b Hb. apply He. by right.
Qed.

Lemma Rep_NoDup sl L : Rep sl L -> NoDup (head sl :: L).
Proof.
  intros HR. apply NoDup_cons. split.
  - intros Hin. destruct (Rep_linked _ _ _ HR Hin) as (? & ? & ? & ? & ? & ? & ? & ? & ?).
    done.
  - eapply NoDup_fmap_1, StronglySorted_lt_NoDup, HR.
Qed.

Lemma Rep_head_lt sl L : Rep sl L -> head sl < length (heap sl).
Proof. intros HR. destruct (rep_head _ _ HR) as (nd & H & _). by apply lookup_lt_Some in H. Qed.

Lemma Rep_tail_lt sl L : Rep sl L -> tail sl < length (heap sl).
Proof. intros HR. destruct (rep_tail _ _ HR) as (nd & H & _). by apply lookup_lt_Some in H. Qed.

Lemma Rep_elem_lt sl L a : Rep sl L -> a ∈ L -> a < length (heap sl).
Proof. intros HR Ha. eapply linked_lt, Rep_linked; eauto. Qed.

Lemma pred_at_elem sl k L i :
  pred_at sl k L i = head sl \/ pred_at sl k L i ∈ below sl k L.
Proof.
  unfold pred_at. destruct (lastd_elem (head sl) (at_level sl i (below sl k L))) as [->|H].
  - by left.
  - right. by apply list_elem_of_filter in H as [_ ?].
Qed.

Lemma pred_at_lt sl k L i : Rep sl L -> pred_at sl k L i < length (heap sl).
Proof.
  intros HR. destruct (pred_at_elem sl k L i) as [->|H].
  - eapply Rep_head_lt; eauto.
  - eapply Rep_elem_lt; eauto. by apply below_elem in H as [? _].
Qed.

(** The state after a new node for [k], of level [t] and with value [v],
    has been linked in front of the keys above [k]. *)
Record inserted sl sl' k (v : V) (t : nat) L : Prop := mkInserted {
  ins_frame : frame None sl sl';
  ins_len : length (heap sl') = S (length (heap sl));
  ins_new : exists nd, heap sl' !! length (heap sl) = Some nd /\ key nd = k
    /\ value nd = Some v /\ topLevel nd = t /\ marked nd = false
    /\ fullyLinked nd = true /\ length (next nd) = S t;
  ins_next_old : forall b j, b < length (heap sl) ->
    nextOf sl' b j = if decide (j <= t /\ b = pred_at sl k L j)
                     then Some (Some (length (heap sl))) else nextOf sl b j;
  ins_next_new : forall j, j <= t ->
    nextOf sl' (length (heap sl)) j = Some (Some (succ_at sl k L j))
}.

Lemma insert_Rep sl sl' k v t L :
  Rep sl L ->
  (forall a, a ∈ above sl k L -> key_lt k (keyOf sl a)) ->
  t < MAX_LEVEL ->
  inserted sl sl' k v t L ->
  Rep sl' (below sl k L ++ length (heap sl) :: above sl k L).
Proof.
  intros HR Habove Ht HI.
  set (n := length (heap sl)).
  pose proof (ins_frame _ _ _ _ _ _ HI) as HF.
  pose proof (sorted_split sl k L (rep_sorted _ _ HR)) as HL.
  assert (forall a, a ∈ L -> a < n) as Hlt by (intros; eapply Rep_elem_lt; eauto).
  assert (forall a, a ∈ below sl k L -> a ∈ L) as Hbl by (intros a Ha; by apply below_elem in Ha as [? _]).
  assert (forall a, a ∈ above sl k L -> a ∈ L) as Hab by (intros a Ha; by apply above_elem in Ha as [? _]).
  destruct (ins_new _ _ _ _ _ _ HI) as (ndn & Hndn & Hkn & Hvn & Htn & Hmn & Hfn & Hln).
  fold n in Hndn.
  assert (keyOf sl' n = k) as HKn by (unfold keyOf; by rewrite Hndn).
  assert (lvlOf sl' n = t) as HLn by (unfold lvlOf; by rewrite Hndn).
  pose proof (Rep_head_lt _ _ HR) as Hhd. pose proof (Rep_tail_lt _ _ HR) as Htl.
  assert (keyOf sl' <$> below sl k L = keyOf sl <$> below sl k L) as Ekb.
  { apply list_fmap_ext. intros ? a Ha%list_elem_of_lookup_2.
    eapply frame_keyOf; eauto. }
  assert (keyOf sl' <$> above sl k L = keyOf sl <$> above sl k L) as Eka.
  { apply list_fmap_ext. intros ? a Ha%list_elem_of_lookup_2.
    eapply frame_keyOf; eauto. }
  split.
  - rewrite (fr_head _ _ _ HF), (fr_tail _ _ _ HF). apply HR.
  - destruct (rep_tail _ _ HR) as (nd & Hnd & Hk & Hm & Hf & Hv).
    destruct (fr_node _ _ _ HF _ _ Hnd) as (nd' & Hnd' & Hk' & _ & _ & Hd).
    destruct Hd as (? & ? & ?); [done|].
    exists nd'. rewrite (fr_tail _ _ _ HF). repeat split; congruence.
  - destruct (rep_head _ _ HR) as (nd & Hnd & Hm & Hl).
    destruct (fr_node _ _ _ HF _ _ Hnd) as (nd' & Hnd' & Hk' & _ & Hl' & Hd).
    destruct Hd as (? & ? & ?); [done|].
    exists nd'. rewrite (fr_head _ _ _ HF). repeat split; congruence.
  - apply Forall_app. split; [|apply Forall_cons; split].
    + apply Forall_forall. intros a Ha. eapply frame_linked; eauto.
      eapply Rep_linked; eauto.
    + exists ndn. rewrite (fr_head _ _ _ HF), (fr_tail _ _ _ HF).
      repeat split; try done; try lia.
    + apply Forall_forall. intros a Ha. eapply frame_linked; eauto.
      eapply Rep_linked; eauto.
  - rewrite fmap_app, fmap_cons, Ekb, Eka, HKn.
    pose proof (rep_sorted _ _ HR) as HS. rewrite HL, fmap_app in HS.
    apply StronglySorted_app in HS as (H12 & H1 & H2).
    apply StronglySorted_app_2; [|done|].
    + intros x1 x2 Hx1 Hx2. apply elem_of_cons in Hx2 as [->|Hx2]; [|by apply H12].
      apply list_elem_of_fmap in Hx1 as (a & -> & Ha). by apply below_elem in Ha as [_ ?].
    + apply StronglySorted_cons. split; [|done].
      apply Forall_fmap, Forall_forall. intros a Ha. by apply Habove.
  - rewrite (ins_len _ _ _ _ _ _ HI). pose proof (rep_size _ _ HR) as Hs.
    rewrite HL in Hs. rewrite length_app in *. simpl. lia.
  - intros i Hi. rewrite (fr_head _ _ _ HF).
    pose proof (rep_chain _ _ HR i Hi) as Hc. rewrite HL, at_level_app in Hc.
    assert (at_level sl' i (below sl k L) = at_level sl i (below sl k L)) as EA.
    { apply filter_ext_elem. intros a Ha. erewrite frame_lvlOf; eauto. }
    assert (at_level sl' i (above sl k L) = at_level sl i (above sl k L)) as EB.
    { apply filter_ext_elem. intros a Ha. erewrite frame_lvlOf; eauto. }
    assert (NoDup (head sl :: at_level sl i (below sl k L) ++ at_level sl i (above sl k L))) as HND.
    { rewrite <- at_level_app, <- HL. pose proof (Rep_NoDup _ _ HR) as H.
      apply NoDup_cons in H as [H1 H2]. apply NoDup_cons. split.
      - intros Hin. apply H1. by apply list_elem_of_filter in Hin as [_ ?].
      - by apply NoDup_filter. }
    assert (forall b, b ∈ head sl :: at_level sl i (below sl k L) ++ at_level sl i (above sl k L)
                      -> b < n) as Hbn.
    { intros b Hb. apply elem_of_cons in Hb as [->|Hb]; [done|].
      rewrite <- at_level_app, <- HL in Hb. apply list_elem_of_filter in Hb as [_ ?]. auto. }
    unfold at_level at 1. rewrite filter_app, filter_cons.
    fold (at_level sl' i (below sl k L)). fold (at_level sl' i (above sl k L)).
    rewrite EA, EB, HLn.
    destruct (decide (i <= t)) as [Hit|Hit].
    + apply (chain_insert sl sl'); auto.
      * apply (fr_tail _ _ _ HF).
      * fold (pred_at sl k L i). rewrite (ins_next_old _ _ _ _ _ _ HI).
        -- rewrite decide_True; [done|split; [done|done]].
        -- eapply pred_at_lt; eauto.
      * fold (succ_at sl k L i). by apply (ins_next_new _ _ _ _ _ _ HI).
      * intros b Hb Hne. rewrite (ins_next_old _ _ _ _ _ _ HI) by auto.
        rewrite decide_False; [done|]. intros [_ ->]. by apply Hne.
    + apply (chain_ext sl sl'); auto.
      * apply (fr_tail _ _ _ HF).
      * intros b Hb. rewrite (ins_next_old _ _ _ _ _ _ HI) by auto.
        rewrite decide_False; [done|]. intros [? _]. done.
Qed.

(** The state after the node [v], the first of the keys not below [k],
    has been marked and unlinked. *)
Record removed sl sl' k L (v : addr) : Prop := mkRemoved {
  rem_frame : frame (Some v) sl sl';
  rem_next : forall b j, b < length (heap sl) -> b <> v ->
    nextOf sl' b j = if decide (j <= lvlOf sl v /\ b = pred_at sl k L j)
                     then nextOf sl v j else nextOf sl b j
}.

Lemma remove_Rep sl sl' k L v Ab :
  Rep sl L ->
  above sl k L = v :: Ab ->
  removed sl sl' k L v ->
  Rep sl' (below sl k L ++ Ab).
Proof.
  intros HR Hab HI.
  pose proof (rem_frame _ _ _ _ _ HI) as HF.
  pose proof (sorted_split sl k L (rep_sorted _ _ HR)) as HL. rewrite Hab in HL.
  pose proof (Rep_NoDup _ _ HR) as HND. rewrite HL in HND.
  assert (forall a, a ∈ below sl k L ++ Ab -> a ∈ L /\ a <> v) as Hin.
  { intros a Ha. split.
    - rewrite HL. apply elem_of_app in Ha as [?|?]; apply elem_of_app; [by left|right; by right].
    - intros ->. apply NoDup_cons in HND as [_ HND].
      apply NoDup_app in HND as (_ & H1 & H2). apply NoDup_cons in H2 as [H2 _].
      apply elem_of_app in Ha as [Ha|Ha]; [|done]. apply (H1 _ Ha). left. }
  assert (forall a, a ∈ L -> a < length (heap sl)) as Hlt by (intros; eapply Rep_elem_lt; eauto).
  pose proof (Rep_head_lt _ _ HR) as Hhd. pose proof (Rep_tail_lt _ _ HR) as Htl.
  assert (v ∈ L) as HvL by (rewrite HL; apply elem_of_app; right; left).
  assert (v <> head sl /\ v <> tail sl) as [Hvh Hvt].
  { destruct (Rep_linked _ _ _ HR HvL) as (? & ? & ? & ? & ? & ? & ? & ? & ?). done. }
  split.
  - rewrite (fr_head _ _ _ HF), (fr_tail _ _ _ HF). apply HR.
  - destruct (rep_tail _ _ HR) as (nd & Hnd & Hk & Hm & Hf & Hv).
    destruct (fr_node _ _ _ HF _ _ Hnd) as (nd' & Hnd' & Hk' & _ & _ & Hd).
    destruct Hd as (? & ? & ?); [congruence|].
    exists nd'. rewrite (fr_tail _ _ _ HF). repeat split; congruence.
  - destruct (rep_head _ _ HR) as (nd & Hnd & Hm & Hl).
    destruct (fr_node _ _ _ HF _ _ Hnd) as (nd' & Hnd' & Hk' & _ & Hl' & Hd).
    destruct Hd as (? & ? & ?); [congruence|].
    exists nd'. rewrite (fr_head _ _ _ HF). repeat split; congruence.
  - apply Forall_forall. intros a Ha. destruct (Hin a Ha) as [HaL Hav].
    eapply frame_linked; eauto; [congruence|]. eapply Rep_linked; eauto.
  - assert (keyOf sl' <$> below sl k L ++ Ab = keyOf sl <$> below sl k L ++ Ab) as ->.
    { apply list_fmap_ext. intros ? a Ha%list_elem_of_lookup_2.
      eapply frame_keyOf; eauto. apply Hlt, Hin, Ha. }
    pose proof (rep_sorted _ _ HR) as HS. rewrite HL in HS.
    rewrite fmap_app in *. rewrite fmap_cons in HS.
    apply StronglySorted_app in HS as (H12 & H1 & H2).
    apply StronglySorted_cons in H2 as [_ H2].
    apply StronglySorted_app_2; [|done|done].
    intros x1 x2 Hx1 Hx2. apply H12; [done|by right].
  - pose proof (rep_size _ _ HR) as Hs. pose proof (fr_len _ _ _ HF).
    rewrite HL in Hs. rewrite length_app in *. simpl in Hs. lia.
  - intros i Hi. rewrite (fr_head _ _ _ HF).
    pose proof (rep_chain _ _ HR i Hi) as Hc. rewrite HL, at_level_app in Hc.
    assert (at_level sl' i (below sl k L ++ Ab) = at_level sl i (below sl k L ++ Ab)) as ->.
    { apply filter_ext_elem. intros a Ha. erewrite frame_lvlOf; eauto. apply Hlt, Hin, Ha. }
    rewrite at_level_app.
    assert (NoDup (head sl :: at_level sl i (below sl k L) ++ at_level sl i (v :: Ab))) as HND'.
    { rewrite <- at_level_app. apply NoDup_cons in HND as [H1 H2]. apply NoDup_cons. split.
      - intros Hin'. apply H1. by apply list_elem_of_filter in Hin' as [_ ?].
      - by apply NoDup_filter. }
    assert (forall b, b ∈ head sl :: at_level sl i (below sl k L) ++ at_level sl i Ab
                      -> b < length (heap sl) /\ b <> v) as Hbn.
    { intros b Hb. apply elem_of_cons in Hb as [->|Hb]; [split; [done|congruence]|].
      rewrite <- at_level_app in Hb. apply list_elem_of_filter in Hb as [_ Hb].
      destruct (Hin b Hb). auto. }
    unfold at_level at 2 in Hc. unfold at_level at 2 in HND'.
    rewrite filter_cons in Hc, HND'. fold (at_level sl i Ab) in Hc, HND'.
    destruct (decide (i <= lvlOf sl v)) as [Hit|Hit].
    + apply (chain_remove sl sl' i v); auto.
      * apply (fr_tail _ _ _ HF).
      * fold (pred_at sl k L i).
        assert (pred_at sl k L i ∈ head sl :: at_level sl i (below sl k L) ++ at_level sl i Ab) as Hp.
        { unfold pred_at.
          pose proof (lastd_cons_elem (head sl) (at_level sl i (below sl k L))) as H.
          rewrite app_comm_cons. apply elem_of_app. by left. }
        destruct (Hbn _ Hp). rewrite (rem_next _ _ _ _ _ HI) by auto.
        rewrite decide_True by done.
        apply chain_app_inv in Hc. by apply (chain_hd sl i v).
      * intros b Hb Hne. destruct (Hbn _ Hb). rewrite (rem_next _ _ _ _ _ HI) by auto.
        rewrite decide_False; [done|]. intros [_ ->]. by apply Hne.
    + apply (chain_ext sl sl'); auto.
      * apply (fr_tail _ _ _ HF).
      * intros b Hb. destruct (Hbn _ Hb). rewrite (rem_next _ _ _ _ _ HI) by auto.
        rewrite decide_False; [done|]. intros [? _]. done.
Qed.

(** A change that leaves every pointer alone keeps the invariant, as
    long as the node at [exc] is still a proper node. *)
Lemma frame_same_Rep exc sl sl' L :
  Rep sl L ->
  frame exc sl sl' ->
  (forall b j, b < length (heap sl) -> nextOf sl' b j = nextOf sl b j) ->
  (forall a, exc = Some a -> a ∈ L /\ linked sl' a) ->
  Rep sl' L.
Proof.
  intros HR HF Hnx Hexc.
  assert (forall a, a ∈ L -> a < length (heap sl)) as Hlt by (intros; eapply Rep_elem_lt; eauto).
  pose proof (Rep_head_lt _ _ HR) as Hhd. pose proof (Rep_tail_lt _ _ HR) as Htl.
  assert (exc <> Some (head sl) /\ exc <> Some (tail sl)) as [Heh Het].
  { split; intros E; destruct (Hexc _ E) as [Hin _];
      destruct (Rep_linked _ _ _ HR Hin) as (? & ? & ? & ? & ? & ? & ? & ? & ?); done. }
  split.
  - rewrite (fr_head _ _ _ HF), (fr_tail _ _ _ HF). apply HR.
  - destruct (rep_tail _ _ HR) as (nd & Hnd & Hk & Hm & Hf & Hv).
    destruct (fr_node _ _ _ HF _ _ Hnd) as (nd' & Hnd' & Hk' & _ & _ & Hd).
    destruct Hd as (? & ? & ?); [done|].
    exists nd'. rewrite (fr_tail _ _ _ HF). repeat split; congruence.
  - destruct (rep_head _ _ HR) as (nd & Hnd & Hm & Hl).
    destruct (fr_node _ _ _ HF _ _ Hnd) as (nd' & Hnd' & Hk' & _ & Hl' & Hd).
    destruct Hd as (? & ? & ?); [done|].
    exists nd'. rewrite (fr_head _ _ _ HF). repeat split; congruence.
  - apply Forall_forall. intros a Ha.
    destruct (decide (exc = Some a)) as [E|E]; [by apply Hexc|].
    eapply frame_linked; eauto. eapply Rep_linked; eauto.
  - assert (keyOf sl' <$> L = keyOf sl <$> L) as ->; [|apply HR].
    apply list_fmap_ext. intros ? a Ha%list_elem_of_lookup_2.
    eapply frame_keyOf; eauto.
  - pose proof (rep_size _ _ HR). pose proof (fr_len _ _ _ HF). lia.
  - intros i Hi. rewrite (fr_head _ _ _ HF).
    assert (at_level sl' i L = at_level sl i L) as ->.
    { apply filter_ext_elem. intros a Ha. erewrite frame_lvlOf; eauto. }
    apply (chain_ext sl sl'); [apply (fr_tail _ _ _ HF)| |by apply HR].
    intros b Hb. apply Hnx. apply elem_of_cons in Hb as [->|Hb]; [done|].
    apply list_elem_of_filter in Hb as [_ ?]. auto.
Qed.

End Ops.
End skiplist_ops.

(** ** What the code does under the invariant *)

Module skiplist_run.
Import skiplist skiplist_rep skiplist_ops.

Section Run.
Context {V : Type} (zeroV : V).
Implicit Types (sl : SkipList V) (L : list addr) (a p q : addr) (k : string).

(** Replacing the node at [a]. *)
Definition set_node sl a (nd : Node V) : SkipList V :=
  set_heap sl (<[a := nd]> (heap sl)).

Lemma set_node_lookup sl a nd b :
  heap (set_node sl a nd) !! b
  = if decide (a = b /\ a < length (heap sl)) then Some nd else heap sl !! b.
Proof. unfold set_node, set_heap. simpl. apply list_lookup_insert. Qed.

Lemma set_node_nextOf sl a nd nd' b j :
  heap sl !! a = Some nd ->
  nextOf (set_node sl a nd') b j
  = if decide (b = a) then next nd' !! j else nextOf sl b j.
Proof.
  intros Hnd. unfold nextOf. rewrite set_node_lookup.
  pose proof (lookup_lt_Some _ _ _ Hnd).
  destruct (decide (b = a)) as [->|Hne].
  - rewrite decide_True by done. done.
  - rewrite decide_False; [done|]. intros [? _]. congruence.
Qed.

Lemma set_node_frame exc sl a nd nd' :
  heap sl !! a = Some nd ->
  key nd' = key nd -> topLevel nd' = topLevel nd ->
  length (next nd') = length (next nd) ->
  (exc <> Some a -> marked nd' = marked nd /\ fullyLinked nd' = fullyLinked nd
                    /\ value nd' = value nd) ->
  frame exc sl (set_node sl a nd').
Proof.
  intros Hnd Hk Ht Hl Hd. split; try done.
  - unfold set_node, set_heap. simpl. by rewrite length_insert.
  - intros b nd0 Hb. rewrite set_node_lookup.
    destruct (decide (a = b /\ a < length (heap sl))) as [[-> _]|Hne].
    + exists nd'. assert (nd0 = nd) as -> by congruence. auto.
    + exists nd0. auto 10.
Qed.

Lemma set_node_length sl a nd : length (heap (set_node sl a nd)) = length (heap sl).
Proof. unfold set_node, set_heap. simpl. by rewrite length_insert. Qed.

Lemma nextOf_is_Some sl a j :
  is_Some (nextOf sl a j) ->
  exists nd, heap sl !! a = Some nd /\ j < length (next nd).
Proof.
  unfold nextOf. destruct (heap sl !! a) as [nd|]; simpl; [|by intros [? ?]].
  intros H%lookup_lt_is_Some. eauto.
Qed.

Lemma store_next_spec exc sl a i (o : option addr) :
  is_Some (nextOf sl a i) ->
  exists sl', store_next sl (Some a) i o = Done sl' /\ frame exc sl sl'
    /\ length (heap sl') = length (heap sl) /\ count sl' = count sl
    /\ forall b j, nextOf sl' b j
         = if decide (b = a /\ j = i) then Some o else nextOf sl b j.
Proof.
  intros (nd & Hnd & Hi)%nextOf_is_Some.
  unfold store_next. simpl. rewrite (index_Some _ _ _ Hnd). simpl.
  destruct (lookup_lt_is_Some_2 _ _ Hi) as [x Hx].
  rewrite (index_Some _ _ _ Hx). simpl.
  eexists. split; [reflexivity|]. fold (set_node sl a (mkNode (key nd) (value nd)
    (topLevel nd) (marked nd) (fullyLinked nd) (<[i:=o]> (next nd)))).
  split; [|split; [|split]].
  - eapply set_node_frame; eauto. simpl. by rewrite length_insert.
  - apply set_node_length.
  - done.
  - intros b j. rewrite (set_node_nextOf _ _ _ _ _ _ Hnd). simpl.
    destruct (decide (b = a)) as [->|Hne].
    + rewrite list_lookup_insert. unfold nextOf. rewrite Hnd. simpl.
      destruct (decide (i = j /\ i < length (next nd))) as [[-> _]|Hn].
      * by rewrite decide_True.
      * rewrite decide_False; [done|]. intros [_ ->]. apply Hn. done.
    + rewrite decide_False; [done|]. intros [? _]. done.
Qed.

Lemma flags_store_spec exc sl a nd (f : Node V -> Node V) :
  heap sl !! a = Some nd ->
  key (f nd) = key nd -> topLevel (f nd) = topLevel nd -> next (f nd) = next nd ->
  (exc <> Some a -> marked (f nd) = marked nd /\ fullyLinked (f nd) = fullyLinked nd
                    /\ value (f nd) = value nd) ->
  frame exc sl (set_node sl a (f nd))
  /\ (forall b j, nextOf (set_node sl a (f nd)) b j = nextOf sl b j).
Proof.
  intros Hnd Hk Ht Hn Hd. split.
  - eapply set_node_frame; eauto. by rewrite Hn.
  - intros b j. rewrite (set_node_nextOf _ _ _ _ _ _ Hnd).
    destruct (decide (b = a)) as [->|]; [|done].
    rewrite Hn. unfold nextOf. by rewrite Hnd.
Qed.

(** The linking loop of [Upsert]. *)
Lemma Upsert_link_spec (pf sf : nat -> addr) preds succs newNode : forall n level sl,
  (forall j, level <= j < level + n ->
     preds !! j = Some (Some (pf j)) /\ succs !! j = Some (Some (sf j))
     /\ is_Some (nextOf sl (pf j) j) /\ is_Some (nextOf sl newNode j)
     /\ pf j <> newNode) ->
  exists sl', Upsert_link sl preds succs newNode n level = Done sl'
    /\ frame None sl sl' /\ length (heap sl') = length (heap sl)
    /\ count sl' = count sl
    /\ forall b j, nextOf sl' b j
         = if decide (level <= j < level + n)
           then (if decide (b = newNode) then Some (Some (sf j))
                 else if decide (b = pf j) then Some (Some newNode)
                 else nextOf sl b j)
           else nextOf sl b j.
Proof.
  induction n as [|n IH]; intros level sl Hlv.
  - exists sl. split; [done|]. split; [apply frame_refl|].
    split; [done|]. split; [done|]. intros b j. rewrite decide_False; [done|lia].
  - destruct (Hlv level ltac:(lia)) as (Hp & Hs & Hnp & Hnn & Hne).
    cbn [Upsert_link]. rewrite (index_Some _ _ _ Hp), obind_Done.
    destruct (store_next_spec None sl (pf level) level (Some newNode) Hnp)
      as (sl1 & -> & HF1 & Hl1 & Hc1 & Hn1).
    rewrite obind_Done, (index_Some _ _ _ Hs), obind_Done.
    assert (is_Some (nextOf sl1 newNode level)) as Hnn1.
    { rewrite Hn1. by destruct (decide _). }
    destruct (store_next_spec None sl1 newNode level (Some (sf level)) Hnn1)
      as (sl2 & -> & HF2 & Hl2 & Hc2 & Hn2).
    rewrite obind_Done.
    destruct (IH (S level) sl2) as (sl' & -> & HF' & Hl' & Hc' & Hn').
    { intros j Hj. destruct (Hlv j ltac:(lia)) as (? & ? & ? & ? & ?).
      repeat split; try done; rewrite Hn2, Hn1; repeat destruct (decide _); done. }
    exists sl'. split; [done|]. split; [|split; [congruence|split; [congruence|]]].
    { eapply frame_trans; [|exact HF']. eapply frame_trans; eauto. }
    intros b j. rewrite Hn', Hn2, Hn1.
    repeat destruct (decide _); try done; try lia; destruct_and?; subst; try lia; try done.
    all: try (exfalso; lia).
    all: try (assert (j = level) as -> by lia; intuition congruence).
Qed.

(** The unlinking loop of [Remove]. *)
Lemma Remove_unlink_spec exc (pf : nat -> addr) preds v : forall n sl,
  (forall j, j < n ->
     preds !! j = Some (Some (pf j))
     /\ is_Some (nextOf sl (pf j) j) /\ is_Some (nextOf sl v j) /\ pf j <> v) ->
  exists sl', Remove_unlink sl preds (Some v) n = Done sl'
    /\ frame exc sl sl' /\ length (heap sl') = length (heap sl)
    /\ count sl' = count sl
    /\ forall b j, nextOf sl' b j
         = if decide (j < n /\ b = pf j) then nextOf sl v j else nextOf sl b j.
Proof.
  induction n as [|n IH]; intros sl Hlv.
  - exists sl. split; [done|]. split; [apply frame_refl|].
    split; [done|]. split; [done|]. intros b j. rewrite decide_False; [done|lia].
  - destruct (Hlv n ltac:(lia)) as (Hp & Hnp & [o Hnv] & Hne).
    cbn [Remove_unlink]. rewrite (index_Some _ _ _ Hp), obind_Done.
    rewrite (load_next_Some _ _ _ _ Hnv), obind_Done.
    destruct (store_next_spec exc sl (pf n) n o Hnp)
      as (sl1 & -> & HF1 & Hl1 & Hc1 & Hn1).
    rewrite obind_Done.
    destruct (IH sl1) as (sl' & -> & HF' & Hl' & Hc' & Hn').
    { intros j Hj. destruct (Hlv j ltac:(lia)) as (? & ? & ? & ?).
      repeat split; try done; rewrite Hn1; repeat destruct (decide _); done. }
    exists sl'. split; [done|]. split; [|split; [congruence|split; [congruence|]]].
    { eapply frame_trans; eauto. }
    intros b j. rewrite Hn', !Hn1.
    repeat destruct (decide _); try done; try lia; destruct_and?; subst; try lia; try done.
    all: try (exfalso; lia).
    all: try (assert (j = n) as -> by lia; intuition congruence).
Qed.

Lemma pred_at_node sl k L i : Rep sl L ->
  exists nd, heap sl !! pred_at sl k L i = Some nd /\ marked nd = false.
Proof.
  intros HR. destruct (pred_at_elem sl k L i) as [->|Hin].
  - destruct (rep_head _ _ HR) as (nd & ? & ? & ?). eauto.
  - apply below_elem in Hin as [Hin _].
    destruct (Rep_linked _ _ _ HR Hin) as (nd & ? & ? & ? & _). eauto.
Qed.

Lemma succ_at_unmarked sl k L i : Rep sl L ->
  exists nd, heap sl !! succ_at sl k L i = Some nd /\ marked nd = false.
Proof.
  intros HR. destruct (succ_at_elem sl k L i) as [->|Hin].
  - destruct (rep_tail _ _ HR) as (nd & ? & ? & ? & _). eauto.
  - apply above_elem in Hin as [Hin _].
    destruct (Rep_linked _ _ _ HR Hin) as (nd & ? & ? & ? & _). eauto.
Qed.

(** At every level the predecessor points at the successor. *)
Lemma pred_next sl k L i : Rep sl L -> i < MAX_LEVEL ->
  nextOf sl (pred_at sl k L i) i = Some (Some (succ_at sl k L i)).
Proof.
  intros HR Hi. pose proof (rep_chain _ _ HR i Hi) as Hc.
  rewrite (sorted_split sl k L (rep_sorted _ _ HR)), at_level_app in Hc.
  by apply chain_last in Hc.
Qed.

Lemma ptr_eqb_refl (o : option addr) : ptr_eqb o o = true.
Proof. destruct o; simpl; [apply Nat.eqb_refl|done]. Qed.

(** Under the invariant the validation of [Upsert] succeeds at every
    level that exists ... *)
Lemma Upsert_validate_ok sl k L : Rep sl L -> forall n level,
  level + n <= MAX_LEVEL ->
  Upsert_validate sl (preds_of sl k L) (succs_of sl k L) n level = Done true.
Proof.
  intros HR. induction n as [|n IH]; intros level Hl; [done|].
  cbn [Upsert_validate].
  rewrite (index_Some _ _ _ (preds_of_lookup sl k L level ltac:(lia))), obind_Done.
  rewrite (index_Some _ _ _ (succs_of_lookup sl k L level ltac:(lia))), obind_Done.
  cbn [ptr_eqb orb].
  destruct (pred_at_node sl k L level HR) as (pn & Hpn & Hpm).
  destruct (succ_at_unmarked sl k L level HR) as (sn & Hsn & Hsm).
  rewrite (load_Some _ _ _ Hpn), obind_Done, (load_Some _ _ _ Hsn), obind_Done.
  pose proof (pred_next sl k L level HR ltac:(lia)) as Hnx.
  unfold nextOf in Hnx. rewrite Hpn in Hnx. simpl in Hnx.
  rewrite (index_Some _ _ _ Hnx), obind_Done.
  rewrite Hpm, Hsm, ptr_eqb_refl. simpl. apply IH. lia.
Qed.

(** ... and panics on [preds[MAX_LEVEL]] when asked for one level more. *)
Lemma Upsert_validate_panic sl k L : Rep sl L -> forall n level,
  level <= MAX_LEVEL -> MAX_LEVEL < level + n ->
  Upsert_validate sl (preds_of sl k L) (succs_of sl k L) n level = Panic.
Proof.
  intros HR. induction n as [|n IH]; intros level Hl Hn; [lia|].
  cbn [Upsert_validate].
  destruct (decide (level = MAX_LEVEL)) as [->|Hne].
  - unfold index. by rewrite preds_of_ge.
  - rewrite (index_Some _ _ _ (preds_of_lookup sl k L level ltac:(lia))), obind_Done.
    rewrite (index_Some _ _ _ (succs_of_lookup sl k L level ltac:(lia))), obind_Done.
    cbn [ptr_eqb orb].
    destruct (pred_at_node sl k L level HR) as (pn & Hpn & Hpm).
    destruct (succ_at_unmarked sl k L level HR) as (sn & Hsn & Hsm).
    rewrite (load_Some _ _ _ Hpn), obind_Done, (load_Some _ _ _ Hsn), obind_Done.
    pose proof (pred_next sl k L level HR ltac:(lia)) as Hnx.
    unfold nextOf in Hnx. rewrite Hpn in Hnx. simpl in Hnx.
    rewrite (index_Some _ _ _ Hnx), obind_Done.
    rewrite Hpm, Hsm, ptr_eqb_refl. simpl. apply IH; lia.
Qed.

Lemma randomLevel_loop_bounds c : forall fuel n level,
  level <= MAX_LEVEL -> level <= randomLevel_loop fuel c n level <= MAX_LEVEL.
Proof.
  induction fuel as [|fuel IH]; intros n level Hl; simpl; [lia|].
  destruct (c n); simpl; [|lia].
  destruct (Nat.ltb_spec level MAX_LEVEL); [|lia].
  specialize (IH (S n) (S level) ltac:(lia)). lia.
Qed.

(** [randomLevel] returns a level between 1 and [MAX_LEVEL], both included. *)
Lemma randomLevel_bounds c : 1 <= randomLevel c <= MAX_LEVEL.
Proof. apply randomLevel_loop_bounds. unfold MAX_LEVEL. lia. Qed.

(** If [find] does not report the key, every key not below it is above it. *)
Lemma found_None_above sl k L : Rep sl L ->
  found_below sl k L MAX_LEVEL = None ->
  forall a, a ∈ above sl k L -> key_lt k (keyOf sl a).
Proof.
  intros HR Hf.
  assert (0 < MAX_LEVEL) as H0 by (unfold MAX_LEVEL; lia).
  pose proof (found_below_None sl k L _ 0 Hf H0) as Hne.
  assert (at_level sl 0 (above sl k L) = above sl k L) as E0.
  { apply filter_all, Forall_forall. intros; simpl; lia. }
  unfold succ_at in Hne. rewrite E0 in Hne.
  pose proof (rep_sorted _ _ HR) as HS.
  rewrite (sorted_split sl k L HS), fmap_app in HS.
  apply StronglySorted_app_1_r in HS.
  pose proof (Forall_above sl k L) as Hab.
  destruct (above sl k L) as [|b Ab]; [intros a Ha; by apply elem_of_nil in Ha|].
  simpl in Hne. rewrite fmap_cons in HS. apply StronglySorted_cons in HS as [Hb _].
  apply Forall_cons in Hab as [Hbk _].
  assert (key_lt k (keyOf sl b)) as Hkb.
  { destruct (ltb_trichotomy k (keyOf sl b)) as [?|[?|?]]; [done|congruence|done]. }
  intros a Ha. apply elem_of_cons in Ha as [->|Ha]; [done|].
  eapply key_lt_trans; [exact Hkb|].
  rewrite Forall_fmap in Hb. eapply Forall_forall in Hb; eauto.
Qed.

Lemma alloc_lookup_old sl (nn : Node V) b : b < length (heap sl) ->
  heap (set_heap sl (heap sl ++ [nn])) !! b = heap sl !! b.
Proof. intros Hb. simpl. by rewrite lookup_app_l. Qed.

Lemma alloc_lookup_new sl (nn : Node V) :
  heap (set_heap sl (heap sl ++ [nn])) !! length (heap sl) = Some nn.
Proof. simpl. by rewrite list_lookup_middle. Qed.

Lemma alloc_frame sl (nn : Node V) : frame None sl (set_heap sl (heap sl ++ [nn])).
Proof.
  split; try done.
  - simpl. rewrite length_app. lia.
  - intros b nd Hb. exists nd. rewrite alloc_lookup_old by (by apply lookup_lt_Some in Hb).
    auto 10.
Qed.

(** The insert path of [Upsert]: the key is absent and the level drawn
    is below [MAX_LEVEL]. *)
Lemma Upsert_insert sl L k (check : UpdateCheck V) c fuel v :
  Rep sl L ->
  found_below sl k L MAX_LEVEL = None ->
  randomLevel c < MAX_LEVEL ->
  check k zeroV false = inl v ->
  exists sl', Upsert_loop zeroV (S fuel) sl k check c
              = ([(k, zeroV, false)], Done (sl', true, None))
    /\ inserted sl sl' k v (randomLevel c) L /\ count sl' = (count sl + 1)%Z.
Proof.
  intros HR Hf Ht Hck. set (t := randomLevel c) in *. set (n := length (heap sl)).
  cbn [Upsert_loop]. rewrite (find_spec sl k L HR). cbn [untraced]. rewrite Hf.
  fold t. rewrite (Upsert_validate_ok sl k L HR) by lia. cbn [untraced negb].
  rewrite Hck. unfold alloc. fold n.
  set (nn := mkNode k (Some v) t false false (replicate (S t) None)).
  set (sl1 := set_heap sl (heap sl ++ [nn])).
  assert (forall b j, b < n -> nextOf sl1 b j = nextOf sl b j) as Hn1.
  { intros b j Hb. unfold nextOf, sl1. by rewrite alloc_lookup_old. }
  assert (forall j, nextOf sl1 n j = next nn !! j) as Hn1n.
  { intros j. unfold nextOf, sl1, n. by rewrite alloc_lookup_new. }
  destruct (Upsert_link_spec (pred_at sl k L) (succ_at sl k L)
              (preds_of sl k L) (succs_of sl k L) n (S t) 0 sl1)
    as (sl2 & -> & HF2 & Hl2 & Hc2 & Hn2).
  { intros j Hj. split; [apply preds_of_lookup; lia|].
    split; [apply succs_of_lookup; lia|].
    pose proof (pred_at_lt sl k L j HR) as Hp. fold n in Hp.
    split; [|split; [|lia]].
    - rewrite Hn1 by done. rewrite (pred_next sl k L j HR) by lia. eauto.
    - rewrite Hn1n. unfold nn. cbn [next]. apply lookup_lt_is_Some.
      rewrite length_replicate. lia. }
  rewrite obind_Done.
  destruct (fr_node _ _ _ HF2 n nn) as (nd2 & Hnd2 & Hk2 & Ht2 & Hln2 & Hd2).
  { unfold sl1, n. apply alloc_lookup_new. }
  destruct Hd2 as (Hm2 & Hfl2 & Hv2); [done|].
  unfold store_fullyLinked. simpl deref. rewrite obind_Done.
  rewrite (index_Some _ _ _ Hnd2), obind_Done.
  eexists. split; [reflexivity|].
  fold (set_node sl2 n (mkNode (key nd2) (value nd2) (topLevel nd2) (marked nd2) true (next nd2))).
  set (nd3 := mkNode (key nd2) (value nd2) (topLevel nd2) (marked nd2) true (next nd2)).
  split; [|simpl; unfold sl1 in Hc2; simpl in Hc2; lia].
  assert (length (heap sl1) = S n) as Hl1.
  { unfold sl1. simpl. rewrite length_app. simpl. fold n. lia. }
  split.
  - split.
    + simpl. rewrite (fr_head _ _ _ HF2). done.
    + simpl. rewrite (fr_tail _ _ _ HF2). done.
    + simpl. rewrite length_insert. lia.
    + intros b nd Hb. pose proof (lookup_lt_Some _ _ _ Hb) as Hbn. fold n in Hbn.
      destruct (fr_node _ _ _ HF2 b nd) as (nd' & Hnd' & ? & ? & ? & Hd).
      { unfold sl1. by rewrite alloc_lookup_old. }
      exists nd'. split; [|auto].
      change (heap (set_node sl2 n nd3) !! b = Some nd').
      rewrite set_node_lookup, decide_False; [done|lia].
  - simpl. rewrite length_insert. lia.
  - exists nd3. split.
    + change (heap (set_node sl2 n nd3) !! n = Some nd3).
      rewrite set_node_lookup, decide_True; [done|lia].
    + unfold nd3. simpl. rewrite Hk2, Hv2, Ht2, Hm2, Hln2. simpl.
      rewrite length_replicate. done.
  - intros b j Hb.
    change (nextOf (set_node sl2 n nd3) b j = if decide (j <= t /\ b = pred_at sl k L j)
                                             then Some (Some n) else nextOf sl b j).
    rewrite (set_node_nextOf _ _ _ _ _ _ Hnd2), decide_False by lia.
    rewrite Hn2, Hn1 by done.
    repeat destruct (decide _); try done; try lia; destruct_and?; subst; try lia; try done.
    all: try (exfalso; intuition lia).
  - intros j Hj.
    change (nextOf (set_node sl2 n nd3) n j = Some (Some (succ_at sl k L j))).
    rewrite (set_node_nextOf _ _ _ _ _ _ Hnd2), decide_True by done.
    unfold nd3. simpl. pose proof (Hn2 n j) as H. unfold nextOf in H at 1.
    rewrite Hnd2 in H. simpl in H. rewrite H.
    rewrite decide_True by lia. by rewrite decide_True.
Qed.

(** The insert path when the level drawn is [MAX_LEVEL]: the loop that
    locks the predecessors reads [preds[MAX_LEVEL]], out of range. *)
Lemma Upsert_insert_panic sl L k (check : UpdateCheck V) c fuel :
  Rep sl L ->
  found_below sl k L MAX_LEVEL = None ->
  randomLevel c = MAX_LEVEL ->
  Upsert_loop zeroV (S fuel) sl k check c = ([], Panic).
Proof.
  intros HR Hf Ht.
  cbn [Upsert_loop]. rewrite (find_spec sl k L HR). cbn [untraced]. rewrite Hf.
  rewrite (Upsert_validate_panic sl k L HR); [done|lia|lia].
Qed.

(** The insert path when the callback fails. *)
Lemma Upsert_insert_error sl L k (check : UpdateCheck V) c fuel e :
  Rep sl L ->
  found_below sl k L MAX_LEVEL = None ->
  randomLevel c < MAX_LEVEL ->
  check k zeroV false = inr e ->
  Upsert_loop zeroV (S fuel) sl k check c
  = ([(k, zeroV, false)], Done (sl, false, Some e)).
Proof.
  intros HR Hf Ht Hck.
  cbn [Upsert_loop]. rewrite (find_spec sl k L HR). cbn [untraced]. rewrite Hf.
  rewrite (Upsert_validate_ok sl k L HR) by lia. cbn [untraced negb].
  by rewrite Hck.
Qed.

(** When [find] reports the key at the tail (the key is [""] and some
    level is empty below it), [Upsert] retries for ever. *)
Lemma Upsert_tail_timeout sl L k (check : UpdateCheck V) c lf :
  Rep sl L ->
  found_below sl k L MAX_LEVEL = Some lf ->
  succ_at sl k L lf = tail sl ->
  forall fuel, Upsert_loop zeroV fuel sl k check c = ([], Timeout).
Proof.
  intros HR Hf Hs. induction fuel as [|fuel IH]; [done|].
  cbn [Upsert_loop]. rewrite (find_spec sl k L HR). cbn [untraced]. rewrite Hf.
  destruct (found_below_Some _ _ _ _ _ Hf) as [Hlf _].
  rewrite (index_Some _ _ _ (succs_of_lookup sl k L lf Hlf)), obind_Done.
  destruct (rep_tail _ _ HR) as (nd & Hnd & _ & Hm & Hfl & _).
  rewrite Hs, (load_Some _ _ _ Hnd), obind_Done. cbn [untraced].
  by rewrite Hm, Hfl.
Qed.

Definition with_value (nd : Node V) (v : V) : Node V :=
  mkNode (key nd) (Some v) (topLevel nd) (marked nd) (fullyLinked nd) (next nd).

(** Overwriting the value of a node of the list keeps the invariant. *)
Lemma set_value_Rep sl L s nd v :
  Rep sl L -> s ∈ L -> heap sl !! s = Some nd ->
  Rep (set_node sl s (with_value nd v)) L.
Proof.
  intros HR Hs Hnd.
  destruct (flags_store_spec (Some s) sl s nd (fun nd => with_value nd v) Hnd)
    as [HF Hnx]; try done.
  eapply frame_same_Rep; eauto.
  intros a [= <-]. split; [done|].
  destruct (Rep_linked _ _ _ HR Hs) as (nd0 & Hnd0 & ? & ? & ? & ? & ? & ? & ?).
  assert (nd0 = nd) as -> by congruence.
  exists (with_value nd v). rewrite set_node_lookup.
  rewrite decide_True by (split; [done|by apply lookup_lt_Some in Hnd]).
  simpl. repeat split; eauto.
Qed.

(** The update path of [Upsert]: the key is in the list. *)
Lemma Upsert_update sl L k (check : UpdateCheck V) c fuel lf :
  Rep sl L ->
  found_below sl k L MAX_LEVEL = Some lf ->
  succ_at sl k L lf <> tail sl ->
  exists nd v0, heap sl !! succ_at sl k L lf = Some nd /\ value nd = Some v0
    /\ succ_at sl k L lf ∈ L /\ key nd = k
    /\ Upsert_loop zeroV (S fuel) sl k check c
        = ([(k, v0, true)],
           match check k v0 true with
           | inr e => Done (sl, false, Some e)
           | inl nv => Done (set_node sl (succ_at sl k L lf) (with_value nd nv), true, None)
           end).
Proof.
  intros HR Hf Hs. set (s := succ_at sl k L lf) in *.
  destruct (found_below_Some _ _ _ _ _ Hf) as [Hlf Hk].
  assert (s ∈ L) as HsL.
  { destruct (succ_at_elem sl k L lf) as [?|Hin]; [done|]. by apply above_elem in Hin as [? _]. }
  destruct (Rep_linked _ _ _ HR HsL) as (nd & Hnd & Hfl & Hm & [v0 Hv] & _).
  exists nd, v0. split; [done|]. split; [done|]. split; [done|].
  split. { fold s in Hk. unfold keyOf in Hk. by rewrite Hnd in Hk. }
  cbn [Upsert_loop]. rewrite (find_spec sl k L HR). cbn [untraced]. rewrite Hf.
  rewrite (index_Some _ _ _ (succs_of_lookup sl k L lf Hlf)), obind_Done.
  fold s. rewrite (load_Some _ _ _ Hnd), obind_Done. cbn [untraced].
  rewrite Hm, Hfl. cbn [orb negb]. rewrite Hv. cbn [deref untraced].
  destruct (check k v0 true) as [nv|e]; [|done].
  unfold store_value. simpl deref. rewrite obind_Done.
  by rewrite (index_Some _ _ _ Hnd), obind_Done.
Qed.

Lemma found_below_highest sl k L n lf i : found_below sl k L n = Some lf ->
  lf < i < n -> keyOf sl (succ_at sl k L i) <> k.
Proof.
  induction n as [|n IH]; simpl; [done|].
  destruct (key_eq_b k (keyOf sl (succ_at sl k L n))) eqn:E.
  - intros [= <-]. lia.
  - intros H Hi. apply key_eq_b_false in E.
    destruct (decide (i = n)) as [->|]; [congruence|]. apply IH; [done|lia].
Qed.

(** A node of the list that carries [k] is the first of the keys not
    below [k]. *)
Lemma above_hd sl k L v : Rep sl L -> v ∈ above sl k L -> keyOf sl v = k ->
  exists Ab, above sl k L = v :: Ab.
Proof.
  intros HR Hv Hk.
  pose proof (rep_sorted _ _ HR) as HS.
  rewrite (sorted_split sl k L HS), fmap_app in HS.
  apply StronglySorted_app_1_r in HS.
  pose proof (Forall_above sl k L) as Hab.
  destruct (above sl k L) as [|b Ab]; [by apply elem_of_nil in Hv|].
  apply elem_of_cons in Hv as [->|Hv]; [eauto|].
  rewrite fmap_cons in HS. apply StronglySorted_cons in HS as [Hb _].
  rewrite Forall_fmap in Hb. eapply Forall_forall in Hb; eauto. simpl in Hb.
  apply Forall_cons in Hab as [Hbk _]. rewrite Hk in Hb. done.
Qed.

Lemma succ_at_hd sl k L v Ab i : above sl k L = v :: Ab -> i <= lvlOf sl v ->
  succ_at sl k L i = v.
Proof.
  intros E Hi. unfold succ_at, at_level. rewrite E, filter_cons_True by done. done.
Qed.

(** When [find] reports the key at a node of the list, it reports it at
    the top level of that node. *)
Lemma found_level sl k L lf : Rep sl L ->
  found_below sl k L MAX_LEVEL = Some lf ->
  succ_at sl k L lf <> tail sl ->
  exists Ab, above sl k L = succ_at sl k L lf :: Ab
    /\ lvlOf sl (succ_at sl k L lf) = lf.
Proof.
  intros HR Hf Hs. set (v := succ_at sl k L lf) in *.
  destruct (found_below_Some _ _ _ _ _ Hf) as [Hlf Hk]. fold v in Hk.
  destruct (succ_at_elem sl k L lf) as [?|Hin]; [done|]. fold v in Hin.
  destruct (above_hd sl k L v HR Hin Hk) as [Ab E]. exists Ab. split; [done|].
  assert (lf <= lvlOf sl v) as Hle.
  { assert (v ∈ at_level sl lf (above sl k L)) as H.
    { unfold v, succ_at in *. destruct (at_level sl lf (above sl k L)); [done|left]. }
    by apply list_elem_of_filter in H as [? _]. }
  destruct (decide (lvlOf sl v = lf)) as [|Hne]; [done|exfalso].
  assert (lvlOf sl v < MAX_LEVEL) as Hlv.
  { apply linked_lvl. eapply Rep_linked; eauto. by apply above_elem in Hin as [? _]. }
  apply (found_below_highest sl k L MAX_LEVEL lf (lvlOf sl v) Hf); [lia|].
  by rewrite (succ_at_hd sl k L v Ab _ E).
Qed.

Lemma frame_weaken exc sl sl' : frame None sl sl' -> frame exc sl sl'.
Proof.
  intros [h t l n]. split; try done. intros b nd Hb.
  destruct (n b nd Hb) as (nd' & ? & ? & ? & ? & Hd). exists nd'.
  split; [done|]. split; [done|]. split; [done|]. split; [done|].
  intros _. by apply Hd.
Qed.

Lemma Remove_validate_ok sl (pf : nat -> addr) preds v : forall n level,
  (forall j, level <= j < level + n ->
     preds !! j = Some (Some (pf j))
     /\ exists pn, heap sl !! pf j = Some pn /\ marked pn = false
                   /\ next pn !! j = Some (Some v)) ->
  Remove_validate sl preds (Some v) n level = Done true.
Proof.
  induction n as [|n IH]; intros level Hlv; [done|].
  destruct (Hlv level ltac:(lia)) as (Hp & pn & Hpn & Hm & Hnx).
  cbn [Remove_validate]. rewrite (index_Some _ _ _ Hp), obind_Done.
  rewrite (load_Some _ _ _ Hpn), obind_Done, (index_Some _ _ _ Hnx), obind_Done.
  rewrite Hm, ptr_eqb_refl. simpl. apply IH. intros j Hj. apply Hlv. lia.
Qed.

Definition with_marked (nd : Node V) : Node V :=
  mkNode (key nd) (value nd) (topLevel nd) true (fullyLinked nd) (next nd).

(** [Remove] of a key that [find] does not report. *)
Lemma Remove_absent sl L k fuel : Rep sl L ->
  found_below sl k L MAX_LEVEL = None ->
  Remove zeroV (S fuel) sl k = Done (sl, (zeroV, false)).
Proof.
  intros HR Hf. unfold Remove. cbn [Remove_loop].
  rewrite (find_spec sl k L HR), obind_Done. by rewrite Hf.
Qed.

(** [Remove] when [find] reports the key at the tail. *)
Lemma Remove_tail sl L k fuel lf : Rep sl L ->
  found_below sl k L MAX_LEVEL = Some lf ->
  succ_at sl k L lf = tail sl ->
  Remove zeroV (S fuel) sl k = Done (sl, (zeroV, false)).
Proof.
  intros HR Hf Hs. unfold Remove. cbn [Remove_loop].
  rewrite (find_spec sl k L HR), obind_Done. rewrite Hf.
  destruct (found_below_Some _ _ _ _ _ Hf) as [Hlf _].
  rewrite (index_Some _ _ _ (succs_of_lookup sl k L lf Hlf)), obind_Done.
  cbn [ptr_eqb negb].
  destruct (rep_tail _ _ HR) as (nd & Hnd & _ & Hm & Hfl & _).
  rewrite Hs, (load_Some _ _ _ Hnd), obind_Done. by rewrite Hfl.
Qed.

(** [Remove] of a key of the list. *)
Lemma Remove_present sl L k fuel lf : Rep sl L ->
  found_below sl k L MAX_LEVEL = Some lf ->
  succ_at sl k L lf <> tail sl ->
  exists sl' v0 Ab,
    Remove zeroV (S fuel) sl k = Done (sl', (v0, true))
    /\ above sl k L = succ_at sl k L lf :: Ab
    /\ keyOf sl (succ_at sl k L lf) = k
    /\ valOf sl (succ_at sl k L lf) = Some v0
    /\ removed sl sl' k L (succ_at sl k L lf)
    /\ count sl' = (count sl + 1)%Z.
Proof.
  intros HR Hf Hs.
  destruct (found_level sl k L lf HR Hf Hs) as (Ab & Hab & Hlv).
  destruct (found_below_Some _ _ _ _ _ Hf) as [Hlf Hk].
  set (v := succ_at sl k L lf) in *.
  assert (v ∈ L) as HvL.
  { rewrite (sorted_split sl k L (rep_sorted _ _ HR)), Hab.
    apply elem_of_app. right. left. }
  destruct (Rep_linked _ _ _ HR HvL) as (nd & Hnd & Hfl & Hm & [v0 Hv] & Htl & Hln & Hvh & Hvt).
  assert (topLevel nd = lf) as Htop by (unfold lvlOf in Hlv; by rewrite Hnd in Hlv).
  pose proof (lookup_lt_Some _ _ _ Hnd) as Hvlt.
  assert (forall j, pred_at sl k L j <> v) as Hpv.
  { intros j E. destruct (pred_at_elem sl k L j) as [E'|Hin]; [congruence|].
    rewrite E in Hin. apply below_elem in Hin as [_ Hin]. rewrite Hk in Hin.
    by apply key_lt_irrefl in Hin. }
  set (sl1 := set_node sl v (with_marked nd)).
  destruct (flags_store_spec (Some v) sl v nd with_marked Hnd) as [HF1 Hn1]; try done.
  fold sl1 in HF1, Hn1.
  assert (forall b, b <> v -> heap sl1 !! b = heap sl !! b) as Hh1.
  { intros b Hb. unfold sl1. rewrite set_node_lookup, decide_False; [done|].
    intros [? _]. congruence. }
  assert (heap sl1 !! v = Some (with_marked nd)) as Hv1.
  { unfold sl1. rewrite set_node_lookup, decide_True; done. }
  destruct (Remove_unlink_spec None (pred_at sl k L) (preds_of sl k L) v (S lf) sl1)
    as (sl2 & Hrun & HF2 & Hl2 & Hc2 & Hn2).
  { intros j Hj. split; [apply preds_of_lookup; lia|]. rewrite !Hn1.
    split; [|split; [|apply Hpv]].
    - rewrite (pred_next sl k L j HR) by lia. eauto.
    - unfold nextOf. rewrite Hnd. simpl. apply lookup_lt_is_Some. lia. }
  exists (count_add1 sl2), v0, Ab.
  split; [|split; [done|split; [done|split; [|split]]]].
  - unfold Remove. cbn [Remove_loop].
    rewrite (find_spec sl k L HR), obind_Done. rewrite Hf.
    rewrite (index_Some _ _ _ (succs_of_lookup sl k L lf Hlf)), obind_Done.
    fold v. cbn [ptr_eqb negb]. rewrite (load_Some _ _ _ Hnd), obind_Done.
    rewrite Hfl, Hm, Htop, Nat.eqb_refl. cbn [negb orb].
    unfold store_marked. simpl deref. rewrite obind_Done.
    rewrite (index_Some _ _ _ Hnd), !obind_Done.
    fold (set_node sl v (with_marked nd)). fold sl1.
    rewrite (Remove_validate_ok sl1 (pred_at sl k L)).
    + rewrite obind_Done. cbn [negb].
      change (Remove_unlink _ (preds_of sl k L) (Some v) (S lf))
        with (Remove_unlink sl1 (preds_of sl k L) (Some v) (S lf)).
      rewrite Hrun, obind_Done.
      destruct (fr_node _ _ _ HF2 v _ Hv1) as (nd2 & Hnd2 & _ & _ & _ & Hd).
      destruct Hd as (_ & _ & Hv2); [done|].
      rewrite (load_Some _ _ _ Hnd2), obind_Done. rewrite Hv2. simpl.
      rewrite Hv. done.
    + intros j Hj. split; [apply preds_of_lookup; lia|].
      destruct (pred_at_node sl k L j HR) as (pn & Hpn & Hpm).
      exists pn. rewrite Hh1 by apply Hpv. split; [done|]. split; [done|].
      pose proof (pred_next sl k L j HR ltac:(lia)) as Hnx.
      unfold nextOf in Hnx. rewrite Hpn in Hnx. simpl in Hnx.
      rewrite Hnx. rewrite (succ_at_hd sl k L v Ab j Hab); [done|]. rewrite Hlv. lia.
  - unfold valOf. rewrite Hnd. done.
  - split.
    + apply (frame_trans _ _ sl1); [done|]. apply frame_weaken.
      destruct HF2 as [h t l n]. split; done.
    + intros b j Hb Hbv.
      change (nextOf sl2 b j = if decide (j <= lvlOf sl v /\ b = pred_at sl k L j)
                               then nextOf sl v j else nextOf sl b j).
      rewrite Hn2, !Hn1, Hlv.
      repeat destruct (decide _); try done; exfalso; intuition lia.
  - simpl. unfold sl1 in Hc2. simpl in Hc2. lia.
Qed.

(** The value stored at a node; [zeroV] stands in where there is none. *)
Definition valD sl a : V := from_option id zeroV (valOf sl a).

(** [Find] under the invariant. *)
Lemma Find_absent sl L k : Rep sl L ->
  found_below sl k L MAX_LEVEL = None ->
  Find zeroV sl k = Done (zeroV, false).
Proof.
  intros HR Hf. unfold Find. rewrite (find_spec sl k L HR), obind_Done. by rewrite Hf.
Qed.

Lemma Find_tail sl L k lf : Rep sl L ->
  found_below sl k L MAX_LEVEL = Some lf ->
  succ_at sl k L lf = tail sl ->
  Find zeroV sl k = Panic.
Proof.
  intros HR Hf Hs. unfold Find. rewrite (find_spec sl k L HR), obind_Done. rewrite Hf.
  destruct (found_below_Some _ _ _ _ _ Hf) as [Hlf _].
  rewrite (index_Some _ _ _ (succs_of_lookup sl k L lf Hlf)), obind_Done.
  destruct (rep_tail _ _ HR) as (nd & Hnd & _ & Hm & Hfl & Hv).
  rewrite Hs, (load_Some _ _ _ Hnd), obind_Done. by rewrite Hv.
Qed.

Lemma Find_present sl L k lf : Rep sl L ->
  found_below sl k L MAX_LEVEL = Some lf ->
  succ_at sl k L lf <> tail sl ->
  succ_at sl k L lf ∈ L /\ keyOf sl (succ_at sl k L lf) = k
  /\ Find zeroV sl k = Done (valD sl (succ_at sl k L lf), true).
Proof.
  intros HR Hf Hs.
  destruct (found_below_Some _ _ _ _ _ Hf) as [Hlf Hk].
  assert (succ_at sl k L lf ∈ L) as HsL.
  { destruct (succ_at_elem sl k L lf) as [?|Hin]; [done|]. by apply above_elem in Hin as [? _]. }
  split; [done|]. split; [done|].
  destruct (Rep_linked _ _ _ HR HsL) as (nd & Hnd & Hfl & Hm & [v0 Hv] & _).
  unfold Find. rewrite (find_spec sl k L HR), obind_Done. rewrite Hf.
  rewrite (index_Some _ _ _ (succs_of_lookup sl k L lf Hlf)), obind_Done.
  rewrite (load_Some _ _ _ Hnd), obind_Done. rewrite Hv. simpl.
  unfold valD, valOf. rewrite Hnd. simpl. by rewrite Hv, Hfl, Hm.
Qed.

Lemma chain_app_r sl i A : forall h B,
  chain sl i h (A ++ B) -> chain sl i (lastd h A) B.
Proof. induction A as [|a A IH]; simpl; intros h B H; [done|]. destruct H; eauto. Qed.

(** The upper bound of a range: no bound when [goToEnd]. *)
Definition below_end sl (goToEnd : bool) (end_ : string) a : Prop :=
  goToEnd = true \/ ~ key_lt end_ (keyOf sl a).

Global Instance below_end_dec sl goToEnd end_ a : Decision (below_end sl goToEnd end_ a).
Proof. unfold below_end. apply _. Defined.

(** The traversal of [Query] collects the values up to the upper bound. *)
Lemma Query_scan_spec sl goToEnd end_ l : forall fuel p results,
  chain sl 0 p l ->
  Forall (linked sl) l ->
  StronglySorted key_lt (keyOf sl <$> l) ->
  length l < fuel ->
  Query_scan fuel sl false goToEnd end_ (Some (hdd (tail sl) l)) results
  = Done (results ++ (valD sl <$> filter (below_end sl goToEnd end_) l), None).
Proof.
  induction l as [|x l IH]; intros fuel p results Hc Hl HS Hfuel.
  - destruct fuel as [|fuel]; [simpl in Hfuel; lia|]. simpl.
    rewrite Nat.eqb_refl. by rewrite app_nil_r.
  - destruct fuel as [|fuel]; [simpl in Hfuel; lia|].
    apply Forall_cons in Hl as [Hx Hl]. destruct Hc as [_ Hc].
    rewrite fmap_cons in HS. apply StronglySorted_cons in HS as [Hxl HS].
    destruct Hx as (nd & Hnd & Hfl & Hm & [v Hv] & _ & _ & _ & Hxt).
    cbn [Query_scan hdd]. rewrite (is_ptr_ne _ _ Hxt).
    rewrite (load_Some _ _ _ Hnd), obind_Done.
    assert (key nd = keyOf sl x) as Hk by (unfold keyOf; by rewrite Hnd).
    rewrite Hk. unfold key_gt_b.
    destruct (negb goToEnd && String.ltb end_ (keyOf sl x)) eqn:E.
    + apply andb_true_iff in E as [Hg He]. apply negb_true_iff in Hg.
      rewrite filter_none; [by rewrite app_nil_r|].
      apply Forall_cons. split.
      * intros [?|Hn]; [congruence|]. by apply Hn.
      * rewrite Forall_fmap in Hxl. eapply Forall_impl; [exact Hxl|].
        simpl. intros a Ha [?|Hn]; [congruence|]. apply Hn.
        eapply key_lt_trans; eauto.
    + rewrite Hfl, Hm, Hv. cbn [andb negb deref]. rewrite !obind_Done.
      pose proof (chain_hd _ _ _ _ Hc) as Hnx. unfold nextOf in Hnx.
      rewrite Hnd in Hnx. simpl in Hnx. rewrite (index_Some _ _ _ Hnx), obind_Done.
      rewrite (IH fuel x); auto; [|simpl in Hfuel; lia].
      rewrite filter_cons_True.
      * rewrite fmap_cons, <- app_assoc. simpl. repeat f_equal.
        unfold valD, valOf. rewrite Hnd. simpl. by rewrite Hv.
      * unfold below_end, key_lt. destruct goToEnd; [by left|right].
        simpl in E. by rewrite E.
Qed.

(** The range of [Query]: from [start] on, and up to [end_] unless it is
    empty. *)
Definition in_range (start end_ : string) (key : string) : Prop :=
  ~ key_lt key start /\ (end_ = "" \/ ~ key_lt end_ key).

Global Instance in_range_dec start end_ key : Decision (in_range start end_ key).
Proof. unfold in_range. apply _. Defined.

Lemma Query_spec sl L start end_ fuel : Rep sl L ->
  Query (S fuel) sl false start end_
  = Done (valD sl <$> filter (fun a => in_range start end_ (keyOf sl a)) L, None).
Proof.
  intros HR. cbn [Query].
  assert (0 < MAX_LEVEL) as H0 by (unfold MAX_LEVEL; lia).
  assert (forall l, at_level sl 0 l = l) as E0.
  { intros l. apply filter_all, Forall_forall. intros; simpl; lia. }
  pose proof (sorted_split sl start L (rep_sorted _ _ HR)) as HL.
  assert (exists p, chain sl 0 p (above sl start L)) as [p Hc].
  { pose proof (rep_chain _ _ HR 0 H0) as Hc. rewrite E0, HL in Hc.
    apply chain_app_r in Hc. eauto. }
  assert ((if key_eq_b start ""
           then load_next sl (Some (head sl)) 0
           else '(_, _, succs) ← find sl start; index succs 0)
          = Done (Some (hdd (tail sl) (above sl start L)))) as ->.
  { destruct (key_eq_b start "") eqn:Es.
    - apply key_eq_b_true in Es. subst start.
      assert (above sl "" L = L) as ->.
      { apply filter_all, Forall_forall. intros a _. unfold key_lt. by rewrite ltb_empty_r. }
      apply load_next_Some. pose proof (rep_chain _ _ HR 0 H0) as Hc'. rewrite E0 in Hc'.
      by apply (chain_hd sl 0 (head sl) L).
    - rewrite (find_spec sl start L HR), obind_Done.
      rewrite (index_Some _ _ _ (succs_of_lookup sl start L 0 H0)).
      unfold succ_at. by rewrite E0. }
  rewrite obind_Done.
  rewrite (Query_scan_spec sl (key_eq_b end_ "") end_ (above sl start L) _ p []); auto.
  - rewrite obind_Done. rewrite Z.eqb_refl. cbn [negb app]. do 3 f_equal.
    unfold above. rewrite list_filter_filter. apply filter_ext_elem.
    intros a _. unfold in_range, below_end.
    destruct (key_eq_b end_ "") eqn:Ee.
    + apply key_eq_b_true in Ee. tauto.
    + apply key_eq_b_false in Ee. split; [intros [[?|?] ?]|intros [? [?|?]]]; try done; tauto.
  - apply Forall_sub_filter, HR.
  - pose proof (rep_sorted _ _ HR) as HS. rewrite HL, fmap_app in HS.
    by apply StronglySorted_app_1_r in HS.
  - pose proof (rep_size _ _ HR). pose proof (length_filter (fun a => ~ key_lt (keyOf sl a) start) L).
    unfold above. lia.
Qed.

End Run.
End skiplist_run.

(** ** The index as a sorted association list *)

Module skiplist_abs.
Import skiplist skiplist_rep skiplist_ops skiplist_run.

Section Abs.
Context {V : Type} (zeroV : V).
Implicit Types (sl : SkipList V) (L : list addr) (a p q : addr) (k : string).

(** The key-value pairs held by the nodes [L]. *)
Definition entries sl L : list (string * V) :=
  (fun a => (keyOf sl a, valD zeroV sl a)) <$> L.

Definition keys sl L : list string := keyOf sl <$> L.

Lemma entries_keys sl L : fst <$> entries sl L = keys sl L.
Proof. unfold entries, keys. rewrite <- list_fmap_compose. done. Qed.

Lemma entries_sorted sl L : Rep sl L -> StronglySorted key_lt (fst <$> entries sl L).
Proof. intros HR. rewrite entries_keys. apply HR. Qed.

(** A new skip list satisfies the invariant and is empty. *)
Lemma NewSkipList_Rep : Rep (@NewSkipList V) [].
Proof.
  split.
  - done.
  - eexists. split; [reflexivity|]. done.
  - eexists. split; [reflexivity|]. done.
  - constructor.
  - constructor.
  - simpl. lia.
  - intros i Hi. unfold MAX_LEVEL in Hi. simpl.
    do 11 (destruct i as [|i]; [reflexivity|]). lia.
Qed.

(** [find] reports a key at a node of the list exactly when the key is
    in the list. *)
Lemma found_present sl k L a : Rep sl L -> a ∈ L -> keyOf sl a = k ->
  exists lf, found_below sl k L MAX_LEVEL = Some lf.
Proof.
  intros HR Ha Hk.
  destruct (found_below sl k L MAX_LEVEL) as [lf|] eqn:Hf; [eauto|exfalso].
  assert (a ∈ above sl k L) as Hab.
  { apply list_elem_of_filter. split; [|done]. rewrite Hk. apply key_lt_irrefl. }
  destruct (above_hd sl k L a HR Hab Hk) as [Ab E].
  assert (0 < MAX_LEVEL) as H0 by (unfold MAX_LEVEL; lia).
  apply (found_below_None sl k L _ 0 Hf H0).
  rewrite (succ_at_hd sl k L a Ab 0 E); [done|lia].
Qed.

Lemma found_nonempty_key sl k L lf : Rep sl L -> k <> "" ->
  found_below sl k L MAX_LEVEL = Some lf -> succ_at sl k L lf <> tail sl.
Proof.
  intros HR Hk Hf E. destruct (found_below_Some _ _ _ _ _ Hf) as [_ Hkey].
  rewrite E in Hkey. destruct (rep_tail _ _ HR) as (nd & Hnd & Hk' & _).
  unfold keyOf in Hkey. rewrite Hnd in Hkey. simpl in Hkey. congruence.
Qed.

Lemma found_absent sl k L : Rep sl L -> k <> "" -> k ∉ keys sl L ->
  found_below sl k L MAX_LEVEL = None.
Proof.
  intros HR Hk Hn.
  destruct (found_below sl k L MAX_LEVEL) as [lf|] eqn:Hf; [exfalso|done].
  pose proof (found_nonempty_key sl k L lf HR Hk Hf) as Hs.
  destruct (found_below_Some _ _ _ _ _ Hf) as [_ Hkey].
  apply Hn. unfold keys. rewrite <- Hkey. apply list_elem_of_fmap_2.
  destruct (succ_at_elem sl k L lf) as [?|Hin]; [done|]. by apply above_elem in Hin as [? _].
Qed.

Lemma found_None_absent sl k L : Rep sl L ->
  found_below sl k L MAX_LEVEL = None -> k ∉ keys sl L.
Proof.
  intros HR Hf Hin. apply list_elem_of_fmap in Hin as (a & Hk & Ha).
  destruct (found_present sl k L a HR Ha (eq_sym Hk)) as [lf ?]. congruence.
Qed.

Lemma filter_fmap_comm {A B} (f : A -> B) (P : B -> Prop)
    `{!forall y, Decision (P y)} (l : list A) :
  filter P (f <$> l) = f <$> filter (fun x => P (f x)) l.
Proof.
  induction l as [|x l IH]; [done|].
  rewrite fmap_cons, !filter_cons, IH. by destruct (decide (P (f x))).
Qed.

(** Where a key goes in a sorted list of keys. *)
Definition insert_key (k : string) (ks : list string) : list string :=
  filter (fun x => key_lt x k) ks ++ k :: filter (fun x => ~ key_lt x k) ks.

Lemma inserted_keys sl sl' k v t L :
  Rep sl L -> inserted sl sl' k v t L ->
  keys sl' (below sl k L ++ length (heap sl) :: above sl k L)
  = insert_key k (keys sl L).
Proof.
  intros HR HI. pose proof (ins_frame _ _ _ _ _ _ HI) as HF.
  destruct (ins_new _ _ _ _ _ _ HI) as (ndn & Hndn & Hkn & _).
  unfold keys, insert_key. rewrite fmap_app, fmap_cons, !filter_fmap_comm.
  f_equal; [|f_equal].
  - apply list_fmap_ext. intros ? a Ha%list_elem_of_lookup_2.
    eapply frame_keyOf; eauto. eapply Rep_elem_lt; eauto. by apply below_elem in Ha as [? _].
  - unfold keyOf. by rewrite Hndn.
  - apply list_fmap_ext. intros ? a Ha%list_elem_of_lookup_2.
    eapply frame_keyOf; eauto. eapply Rep_elem_lt; eauto. by apply above_elem in Ha as [? _].
Qed.

Lemma set_value_keys sl s nd v L : heap sl !! s = Some nd ->
  keys (set_node sl s (with_value nd v)) L = keys sl L.
Proof.
  intros Hnd. unfold keys. apply list_fmap_ext. intros _ a _.
  unfold keyOf. rewrite set_node_lookup.
  destruct (decide (s = a /\ s < length (heap sl))) as [[-> _]|]; [|done].
  by rewrite Hnd.
Qed.

(** *** [Upsert], case by case *)

(** The arguments with which [Upsert] calls [check]: the value found and
    [true] when the key is in the list, the zero value and [false]
    otherwise. *)
Lemma Upsert_present sl L k (check : UpdateCheck V) c fuel : Rep sl L -> k <> "" ->
  k ∈ keys sl L ->
  exists s nd cur, s ∈ L /\ heap sl !! s = Some nd /\ key nd = k /\ value nd = Some cur
    /\ Upsert_loop zeroV (S fuel) sl k check c
        = ([(k, cur, true)],
           match check k cur true with
           | inr e => Done (sl, false, Some e)
           | inl nv => Done (set_node sl s (with_value nd nv), true, None)
           end).
Proof.
  intros HR Hk Hin. apply list_elem_of_fmap in Hin as (a & Hka & Ha).
  destruct (found_present sl k L a HR Ha (eq_sym Hka)) as [lf Hf].
  pose proof (found_nonempty_key sl k L lf HR Hk Hf) as Hs.
  destruct (Upsert_update zeroV sl L k check c fuel lf HR Hf Hs)
    as (nd & v0 & Hnd & Hv & HsL & Hkey & Hrun).
  exists (succ_at sl k L lf), nd, v0. auto 10.
Qed.

Lemma Upsert_absent sl L k (check : UpdateCheck V) c fuel : Rep sl L -> k <> "" ->
  k ∉ keys sl L -> randomLevel c < MAX_LEVEL ->
  match check k zeroV false with
  | inr e => Upsert_loop zeroV (S fuel) sl k check c
             = ([(k, zeroV, false)], Done (sl, false, Some e))
  | inl nv => exists sl', Upsert_loop zeroV (S fuel) sl k check c
                          = ([(k, zeroV, false)], Done (sl', true, None))
      /\ inserted sl sl' k nv (randomLevel c) L
      /\ count sl' = (count sl + 1)%Z
      /\ Rep sl' (below sl k L ++ length (heap sl) :: above sl k L)
  end.
Proof.
  intros HR Hk Hn Ht. pose proof (found_absent sl k L HR Hk Hn) as Hf.
  destruct (check k zeroV false) as [nv|e] eqn:Hck.
  - destruct (Upsert_insert zeroV sl L k check c fuel nv HR Hf Ht Hck)
      as (sl' & Hrun & HI & Hc).
    exists sl'. split; [done|]. split; [done|]. split; [done|].
    eapply insert_Rep; eauto. by apply (found_None_above sl k L).
  - by apply (Upsert_insert_error zeroV sl L).
Qed.

(** Every state that [Upsert] returns satisfies the invariant. *)
Lemma Upsert_Rep sl L k (check : UpdateCheck V) c fuel calls sl' upd err :
  Rep sl L ->
  Upsert_loop zeroV fuel sl k check c = (calls, Done (sl', upd, err)) ->
  exists L', Rep sl' L'.
Proof.
  intros HR Hrun. destruct fuel as [|fuel]; [done|].
  destruct (found_below sl k L MAX_LEVEL) as [lf|] eqn:Hf.
  - destruct (decide (succ_at sl k L lf = tail sl)) as [Hs|Hs].
    + by rewrite (Upsert_tail_timeout zeroV sl L k check c lf HR Hf Hs) in Hrun.
    + destruct (Upsert_update zeroV sl L k check c fuel lf HR Hf Hs)
        as (nd & v0 & Hnd & Hv & HsL & Hkey & Hrun').
      rewrite Hrun' in Hrun. destruct (check k v0 true) as [nv|e].
      * injection Hrun as _ <- _ _. exists L. by apply set_value_Rep.
      * injection Hrun as _ <- _ _. eauto.
  - pose proof (randomLevel_bounds c) as Hb.
    destruct (decide (randomLevel c = MAX_LEVEL)) as [Ht|Ht].
    + by rewrite (Upsert_insert_panic zeroV sl L k check c fuel HR Hf Ht) in Hrun.
    + destruct (check k zeroV false) as [nv|e] eqn:Hck.
      * destruct (Upsert_insert zeroV sl L k check c fuel nv HR Hf ltac:(lia) Hck)
          as (sl2 & Hrun' & HI & Hc).
        rewrite Hrun' in Hrun. injection Hrun as _ <- _ _.
        eexists. eapply insert_Rep; eauto; [by apply (found_None_above sl k L)|lia].
      * rewrite (Upsert_insert_error zeroV sl L k check c fuel e HR Hf ltac:(lia) Hck) in Hrun.
        injection Hrun as _ <- _ _. eauto.
Qed.

(** [Remove] always returns, and keeps the invariant. *)
Lemma Remove_Rep sl L k fuel : Rep sl L ->
  exists sl' v removed L', Remove zeroV (S fuel) sl k = Done (sl', (v, removed))
    /\ Rep sl' L'
    /\ count sl' = (count sl + if removed then 1 else 0)%Z.
Proof.
  intros HR. destruct (found_below sl k L MAX_LEVEL) as [lf|] eqn:Hf.
  - destruct (decide (succ_at sl k L lf = tail sl)) as [Hs|Hs].
    + exists sl, zeroV, false, L. rewrite (Remove_tail zeroV sl L k fuel lf HR Hf Hs).
      split; [done|]. split; [done|]. lia.
    + destruct (Remove_present zeroV sl L k fuel lf HR Hf Hs)
        as (sl' & v0 & Ab & Hrun & Hab & Hk & Hv & HRm & Hc).
      exists sl', v0, true, (below sl k L ++ Ab). split; [done|].
      split; [|done]. eapply remove_Rep; eauto.
  - exists sl, zeroV, false, L. rewrite (Remove_absent zeroV sl L k fuel HR Hf).
    split; [done|]. split; [done|]. lia.
Qed.

End Abs.
End skiplist_abs.

(** ** Properties of the ordered index *)

Module skiplist_spec.
Import skiplist skiplist_rep skiplist_ops skiplist_run skiplist_abs.

(** Inversion of a bind that returned. *)
Lemma obind_inv {A B} (m : outcome A) (f : A -> outcome B) (b : B) :
  m ≫= f = Done b -> exists a, m = Done a /\ f a = Done b.
Proof. destruct m; simpl; [eauto|done|done]. Qed.

Section Spec.
Context {V : Type} (zeroV : V).
Implicit Types (sl : SkipList V) (L : list addr) (k : string).

(** *** The callback and the result of [Upsert] *)

Lemma Upsert_loop_error fuel sl k (check : UpdateCheck V) c cur ex e :
  (k, cur, ex) ∈ fst (Upsert_loop zeroV fuel sl k check c) ->
  check k cur ex = inr e ->
  snd (Upsert_loop zeroV fuel sl k check c) = Done (sl, false, Some e).
Proof.
  induction fuel as [|fuel IH]; intros Hin Hck; [by apply elem_of_nil in Hin|].
  cbn [Upsert_loop] in *.
  destruct (find sl k) as [[[levelFound preds] succs]| |]; cbn [untraced fst snd] in *;
    try (by apply elem_of_nil in Hin).
  destruct levelFound as [lf|].
  - destruct (index succs lf ≫= _) as [[foundNode nd]| |]; cbn [untraced fst snd] in *;
      try (by apply elem_of_nil in Hin).
    destruct (marked nd || negb (fullyLinked nd)); [by apply IH|].
    destruct (deref (value nd)) as [v| |]; cbn [untraced fst snd] in *;
      try (by apply elem_of_nil in Hin).
    apply list_elem_of_singleton in Hin. injection Hin as -> ->. by rewrite Hck.
  - destruct (Upsert_validate _ _ _ _ _) as [valid| |]; cbn [untraced fst snd] in *;
      try (by apply elem_of_nil in Hin).
    destruct valid; cbn [negb fst snd] in *; [|by apply IH].
    apply list_elem_of_singleton in Hin. injection Hin as -> ->. by rewrite Hck.
Qed.

(** C6.  If the [check] callback that [Upsert] calls returns an error,
    [Upsert] returns that error with [updated = false] and leaves the
    index as it was: nothing is inserted, and the value of a key that
    already existed is not overwritten. *)
Theorem Upsert_check_error_unchanged fuel sl k (check : UpdateCheck V) c cur ex e :
  (k, cur, ex) ∈ Upsert_calls zeroV fuel sl k check c ->
  check k cur ex = inr e ->
  Upsert zeroV fuel sl k check c = Done (sl, false, Some e).
Proof. apply Upsert_loop_error. Qed.

(** [Upsert] does call the callback, with the current value, when the
    key is in the list ... *)
Lemma Upsert_calls_present sl L k (check : UpdateCheck V) c fuel :
  Rep sl L -> k <> "" -> k ∈ keys sl L ->
  exists cur, (k, cur) ∈ entries zeroV sl L
    /\ Upsert_calls zeroV (S fuel) sl k check c = [(k, cur, true)].
Proof.
  intros HR Hk Hin.
  destruct (Upsert_present zeroV sl L k check c fuel HR Hk Hin)
    as (s & nd & cur & Hs & Hnd & Hkey & Hv & Hrun).
  exists cur. split.
  - unfold entries. apply list_elem_of_fmap. exists s. split; [|done].
    unfold keyOf, valD, valOf. rewrite Hnd. simpl. by rewrite Hkey, Hv.
  - unfold Upsert_calls. by rewrite Hrun.
Qed.

(** ... and with the zero value when it is not, unless the level drawn
    for the new node is [MAX_LEVEL]. *)
Lemma Upsert_calls_absent sl L k (check : UpdateCheck V) c fuel :
  Rep sl L -> k <> "" -> k ∉ keys sl L -> randomLevel c < MAX_LEVEL ->
  Upsert_calls zeroV (S fuel) sl k check c = [(k, zeroV, false)].
Proof.
  intros HR Hk Hn Ht.
  pose proof (Upsert_absent zeroV sl L k check c fuel HR Hk Hn Ht) as H.
  unfold Upsert_calls. destruct (check k zeroV false).
  - destruct H as (sl' & -> & _). done.
  - by rewrite H.
Qed.


(** C2, as the code has it.  On an index that satisfies the invariant,
    for a key other than [""] that is in the index or whose new node
    gets a level below [MAX_LEVEL], [Upsert] calls [check] once and
    returns;  [updated] is true exactly when [check] returned a value,
    be it for a new node or for an overwrite in place (the keys of the
    index are then unchanged), and false exactly when [check] returned
    an error, the index being then unchanged. *)
Theorem Upsert_updated_iff_check_ok sl L k (check : UpdateCheck V) c fuel :
  Rep sl L -> k <> "" ->
  (k ∈ keys sl L \/ randomLevel c < MAX_LEVEL) ->
  exists cur ex sl' L' updated err,
    Upsert zeroV (S fuel) sl k check c = Done (sl', updated, err)
    /\ Upsert_calls zeroV (S fuel) sl k check c = [(k, cur, ex)]
    /\ (ex = true <-> k ∈ keys sl L)
    /\ Rep sl' L'
    /\ (updated = true <-> exists nv, check k cur ex = inl nv)
    /\ (updated = false <-> exists e, check k cur ex = inr e /\ err = Some e)
    /\ (updated = true ->
          keys sl' L' = if ex then keys sl L else insert_key k (keys sl L))
    /\ (updated = false -> sl' = sl).
Proof.
  intros HR Hk Hor.
  destruct (decide (k ∈ keys sl L)) as [Hin|Hn].
  - destruct (Upsert_present zeroV sl L k check c fuel HR Hk Hin)
      as (s & nd & cur & Hs & Hnd & Hkey & Hv & Hrun).
    exists cur, true. unfold Upsert, Upsert_calls. rewrite Hrun. cbn [fst snd].
    destruct (check k cur true) as [nv|e] eqn:Hck.
    + exists (set_node sl s (with_value nd nv)), L, true, None.
      split; [done|]. split; [done|]. split; [tauto|].
      split; [by apply set_value_Rep|].
      split; [split; eauto|]. split; [split; [done|intros (? & ? & ?); done]|].
      split; [intros _; by apply set_value_keys|done].
    + exists sl, L, false, (Some e).
      split; [done|]. split; [done|]. split; [tauto|]. split; [done|].
      split; [split; [done|intros (? & ?); done]|].
      split; [split; eauto|]. split; done.
  - destruct Hor as [?|Ht]; [done|].
    pose proof (Upsert_absent zeroV sl L k check c fuel HR Hk Hn Ht) as H.
    exists zeroV, false. unfold Upsert, Upsert_calls.
    destruct (check k zeroV false) as [nv|e] eqn:Hck.
    + destruct H as (sl' & Hrun & HI & Hc & HR').
      exists sl', (below sl k L ++ length (heap sl) :: above sl k L), true, None.
      rewrite Hrun. cbn [fst snd].
      split; [done|]. split; [done|]. split; [split; [done|tauto]|].
      split; [done|].
      split; [split; eauto|]. split; [split; [done|intros (? & ? & ?); done]|].
      split; [intros _; by apply (inserted_keys sl sl' k nv (randomLevel c))|done].
    + exists sl, L, false, (Some e). rewrite H. cbn [fst snd].
      split; [done|]. split; [done|]. split; [split; [done|tauto]|]. split; [done|].
      split; [split; [done|intros (? & ?); done]|].
      split; [split; eauto|]. split; done.
Qed.

(** *** [Find] and [Query] *)

(** [Find] returns the value of a key of the index, and nothing for a
    key that is not in it. *)
Lemma Find_spec sl L k : Rep sl L -> k <> "" ->
  (forall v, (k, v) ∈ entries zeroV sl L -> Find zeroV sl k = Done (v, true))
  /\ (k ∉ keys sl L -> Find zeroV sl k = Done (zeroV, false)).
Proof.
  intros HR Hk. split.
  - intros v Hin. apply list_elem_of_fmap in Hin as (a & Heq & Ha).
    injection Heq as Hka Hva.
    destruct (found_present sl k L a HR Ha (eq_sym Hka)) as [lf Hf].
    pose proof (found_nonempty_key sl k L lf HR Hk Hf) as Hs.
    destruct (Find_present zeroV sl L k lf HR Hf Hs) as (HsL & Hkey & ->).
    assert (succ_at sl k L lf = a) as ->; [|by rewrite Hva].
    pose proof (Rep_NoDup _ _ HR) as HND. apply NoDup_cons in HND as [_ HND].
    pose proof (StronglySorted_lt_NoDup _ (rep_sorted _ _ HR)) as HNDk.
    apply list_elem_of_lookup in HsL as [i Hi]. apply list_elem_of_lookup in Ha as [j Hj].
    assert (i = j) as ->; [|congruence].
    eapply NoDup_lookup; [exact HNDk| |].
    + rewrite list_lookup_fmap, Hi. simpl. by rewrite Hkey.
    + rewrite list_lookup_fmap, Hj. simpl. by rewrite <- Hka.
  - intros Hn. apply (Find_absent zeroV sl L); [done|]. by apply found_absent.
Qed.

Lemma StronglySorted_filter {A} (R : relation A) (P : A -> Prop)
    `{!forall x, Decision (P x)} (l : list A) :
  StronglySorted R l -> StronglySorted R (filter P l).
Proof.
  induction 1 as [|x l Hl IH Hx]; [constructor|].
  rewrite filter_cons. destruct (decide (P x)); [|done].
  constructor; [done|]. by apply Forall_sub_filter.
Qed.

(** The range of keys that [Query] returns. *)
Definition in_query_range (start end_ : string) (key : string) : Prop :=
  String.leb start key = true /\ (end_ = "" \/ String.leb key end_ = true).

Global Instance in_query_range_dec start end_ key :
  Decision (in_query_range start end_ key).
Proof. unfold in_query_range. apply _. Defined.

Lemma in_query_range_iff start end_ key :
  in_query_range start end_ key <-> in_range start end_ key.
Proof.
  unfold in_query_range, in_range, key_lt. rewrite !leb_ltb_neg, !negb_true_iff.
  destruct (String.ltb key start), (String.ltb end_ key); intuition congruence.
Qed.

(** C7.  On an index that satisfies the invariant, with a context that
    is not cancelled, [Query] returns without error the values of
    exactly the entries whose key lies between [start] and [end_], both
    included, in ascending key order; an empty [end_] is no upper bound,
    and an empty [start] is no lower bound, so that both empty give
    every entry; a non-empty [start] above a non-empty [end_] gives the
    empty list. *)
Theorem Query_returns_range sl L start end_ fuel :
  Rep sl L ->
  let hits := filter (fun kv => in_query_range start end_ kv.1) (entries zeroV sl L) in
  Query (S fuel) sl false start end_ = Done (snd <$> hits, None)
  /\ StronglySorted key_lt (fst <$> hits)
  /\ (start = "" -> forall kv, kv ∈ entries zeroV sl L ->
        (kv ∈ hits <-> end_ = "" \/ String.leb kv.1 end_ = true))
  /\ (start = "" -> end_ = "" -> hits = entries zeroV sl L)
  /\ (start <> "" -> end_ <> "" -> key_lt end_ start -> hits = []).
Proof.
  intros HR hits.
  assert (hits = (fun a => (keyOf sl a, valD zeroV sl a))
                 <$> filter (fun a => in_range start end_ (keyOf sl a)) L) as Eh.
  { unfold hits, entries. rewrite filter_fmap_comm. f_equal.
    apply filter_ext_elem. intros a _. simpl. apply in_query_range_iff. }
  split; [|split; [|split; [|split]]].
  - rewrite (Query_spec zeroV sl L start end_ fuel HR). do 2 f_equal.
    by rewrite Eh, <- list_fmap_compose.
  - rewrite Eh, <- list_fmap_compose.
    change (StronglySorted key_lt
              (keyOf sl <$> filter (fun a => in_range start end_ (keyOf sl a)) L)).
    rewrite <- (filter_fmap_comm (keyOf sl) (in_range start end_)).
    apply StronglySorted_filter, HR.
  - intros -> kv Hkv. unfold hits. rewrite list_elem_of_filter.
    unfold in_query_range. assert (String.leb "" kv.1 = true) by (by destruct kv.1).
    tauto.
  - intros -> ->. unfold hits. apply filter_all, Forall_forall.
    intros kv _. split; [by destruct kv.1|by left].
  - intros Hs He Hlt. unfold hits. apply filter_none, Forall_forall.
    intros kv _ [H1 [?|H2]]; [done|].
    rewrite leb_ltb_neg, negb_true_iff in H1, H2.
    destruct (ltb_trichotomy kv.1 end_) as [H|[H|H]]; [|subst|congruence].
    + pose proof (ltb_trans _ _ _ H Hlt). congruence.
    + unfold key_lt in Hlt. congruence.
Qed.

(** *** The counter of structural changes *)

Lemma store_next_count sl p l (o : option addr) sl' :
  store_next sl p l o = Done sl' -> count sl' = count sl.
Proof.
  unfold store_next. intros H.
  apply obind_inv in H as (a & _ & H). apply obind_inv in H as (nd & _ & H).
  apply obind_inv in H as (x & _ & H). by injection H as <-.
Qed.

Lemma store_value_count sl p (v : V) sl' :
  store_value sl p v = Done sl' -> count sl' = count sl.
Proof.
  unfold store_value. intros H.
  apply obind_inv in H as (a & _ & H). apply obind_inv in H as (nd & _ & H).
  by injection H as <-.
Qed.

Lemma store_marked_count sl p sl' :
  store_marked sl p = Done sl' -> count sl' = count sl.
Proof.
  unfold store_marked. intros H.
  apply obind_inv in H as (a & _ & H). apply obind_inv in H as (nd & _ & H).
  by injection H as <-.
Qed.

Lemma store_fullyLinked_count sl p sl' :
  store_fullyLinked sl p = Done sl' -> count sl' = count sl.
Proof.
  unfold store_fullyLinked. intros H.
  apply obind_inv in H as (a & _ & H). apply obind_inv in H as (nd & _ & H).
  by injection H as <-.
Qed.

Lemma Upsert_link_count preds succs nn : forall n level sl sl',
  Upsert_link sl preds succs nn n level = Done sl' -> count sl' = count sl.
Proof.
  induction n as [|n IH]; intros level sl sl' H; simpl in H; [by injection H as <-|].
  apply obind_inv in H as (p & _ & H). apply obind_inv in H as (sl1 & H1 & H).
  apply obind_inv in H as (s & _ & H). apply obind_inv in H as (sl2 & H2 & H).
  apply IH in H. apply store_next_count in H1, H2. congruence.
Qed.

Lemma Remove_unlink_count preds victim : forall n sl sl',
  Remove_unlink sl preds victim n = Done sl' -> count sl' = count sl.
Proof.
  induction n as [|n IH]; intros sl sl' H; simpl in H; [by injection H as <-|].
  apply obind_inv in H as (p & _ & H). apply obind_inv in H as (nx & _ & H).
  apply obind_inv in H as (sl1 & H1 & H).
  apply IH in H. apply store_next_count in H1. congruence.
Qed.

(** What a call of [Upsert] did, read off the call of [check] and the
    result: it inserted a node when [check] was called for an absent key
    and [Upsert] reports success; it updated in place when [check] was
    called for a present key and [Upsert] reports success. *)
Definition Upsert_inserted (r : @traced V (@UpsertResult V)) : bool :=
  match r with
  | ([(_, _, false)], Done (_, true, None)) => true
  | _ => false
  end.

Definition Upsert_updated (r : @traced V (@UpsertResult V)) : bool :=
  match r with
  | ([(_, _, true)], Done (_, true, None)) => true
  | _ => false
  end.

Lemma Upsert_loop_count fuel sl k (check : UpdateCheck V) c calls sl' upd err :
  Upsert_loop zeroV fuel sl k check c = (calls, Done (sl', upd, err)) ->
  count sl' = (count sl
               + if Upsert_inserted (calls, Done (sl', upd, err)) then 1 else 0)%Z.
Proof.
  induction fuel as [|fuel IH]; intros H; [done|].
  cbn [Upsert_loop] in H.
  destruct (find sl k) as [[[levelFound preds] succs]| |]; cbn [untraced] in H; try done.
  destruct levelFound as [lf|].
  - destruct (index succs lf ≫= _) as [[foundNode nd]| |]; cbn [untraced] in H; try done.
    destruct (marked nd || negb (fullyLinked nd)); [by apply IH|].
    destruct (deref (value nd)) as [v| |]; cbn [untraced] in H; try done.
    destruct (check k v true) as [nv|e].
    + destruct (store_value sl foundNode nv) as [sl1| |] eqn:E; simpl in H; try done.
      injection H as <- <- <- <-. apply store_value_count in E. simpl. lia.
    + injection H as <- <- <- <-. simpl. lia.
  - destruct (Upsert_validate _ _ _ _ _) as [valid| |]; cbn [untraced] in H; try done.
    destruct valid; cbn [negb] in H; [|by apply IH].
    destruct (check k zeroV false) as [nv|e].
    + unfold alloc in H.
      destruct (Upsert_link _ _ _ _ _ _) as [sl2| |] eqn:E2; simpl in H; try done.
      destruct (store_fullyLinked sl2 _) as [sl3| |] eqn:E3; simpl in H; try done.
      injection H as <- <- <- <-.
      apply Upsert_link_count in E2. apply store_fullyLinked_count in E3.
      simpl in *. lia.
    + injection H as <- <- <- <-. simpl. lia.
Qed.

Lemma Remove_loop_count : forall fuel sl k isMarked t sl' v removed,
  Remove_loop zeroV fuel sl k isMarked t = Done (sl', (v, removed)) ->
  count sl' = (count sl + if removed then 1 else 0)%Z.
Proof.
  induction fuel as [|fuel IH]; intros sl k isMarked t sl' v removed H; [done|].
  cbn [Remove_loop] in H.
  apply obind_inv in H as ([[foundLevel preds] succs] & _ & H).
  destruct foundLevel as [fl|]; [|injection H as <- <- <-; lia].
  apply obind_inv in H as (victim & _ & H).
  destruct (ptr_eqb victim None); [injection H as <- <- <-; lia|].
  apply obind_inv in H as (r & Hr & H).
  destruct r as [[sl1 topLevel1]|]; [|injection H as <- <- <-; lia].
  assert (count sl1 = count sl) as Hc1.
  { destruct isMarked; simpl in Hr; [by injection Hr as <- _|].
    apply obind_inv in Hr as (vn & _ & Hr).
    destruct (_ || _); [done|].
    apply obind_inv in Hr as (sl0 & Hm & Hr). injection Hr as <- _.
    by apply store_marked_count in Hm. }
  apply obind_inv in H as (valid & _ & H).
  destruct valid; cbn [negb] in H.
  - apply obind_inv in H as (sl2 & H2 & H). apply obind_inv in H as (vn & _ & H).
    apply obind_inv in H as (rv & _ & H). injection H as <- <- <-.
    apply Remove_unlink_count in H2. simpl. lia.
  - apply IH in H. lia.
Qed.

(** An operation on the index. *)
Inductive op : Type :=
| OpUpsert (k : string) (check : UpdateCheck V) (c : coins)
| OpRemove (k : string)
| OpFind (k : string)
| OpQuery (ctx_done : bool) (start end_ : string).

(** How many operations inserted, updated in place, and removed. *)
Record tally : Type := mkTally { inserts : nat; updates : nat; removes : nat }.

(** A sequence of operations, one after the other.  An operation that
    panics or never returns ends the run; it has not touched the
    counter, which both [Upsert] and [Remove] bump as their last step. *)
Fixpoint exec (fuel : nat) (ops : list op) (sl : SkipList V) (t : tally)
  : SkipList V * tally :=
  match ops with
  | [] => (sl, t)
  | OpUpsert k check c :: ops' =>
      let r := Upsert_loop zeroV fuel sl k check c in
      match snd r with
      | Done (sl', _, _) =>
          exec fuel ops' sl'
            (mkTally (inserts t + if Upsert_inserted r then 1 else 0)
                     (updates t + if Upsert_updated r then 1 else 0)
                     (removes t))
      | _ => (sl, t)
      end
  | OpRemove k :: ops' =>
      match Remove zeroV fuel sl k with
      | Done (sl', (_, removed)) =>
          exec fuel ops' sl'
            (mkTally (inserts t) (updates t) (removes t + if removed then 1 else 0))
      | _ => (sl, t)
      end
  | OpFind k :: ops' =>
      match Find zeroV sl k with
      | Done _ => exec fuel ops' sl t
      | _ => (sl, t)
      end
  | OpQuery ctx_done start end_ :: ops' =>
      match Query fuel sl ctx_done start end_ with
      | Done _ => exec fuel ops' sl t
      | _ => (sl, t)
      end
  end.

Lemma exec_count fuel ops : forall sl t,
  (count (exec fuel ops sl t).1 + Z.of_nat (inserts t) + Z.of_nat (removes t)
   = count sl + Z.of_nat (inserts (exec fuel ops sl t).2)
     + Z.of_nat (removes (exec fuel ops sl t).2))%Z.
Proof.
  induction ops as [|o ops IH]; intros sl t; [simpl; lia|].
  destruct o as [k check c|k|k|ctx start end_]; cbn [exec].
  - destruct (Upsert_loop zeroV fuel sl k check c) as [calls [[[sl' upd] err]| |]] eqn:E;
      cbn [snd]; [|simpl; lia..].
    match goal with |- context [exec fuel ops ?s ?t'] => pose proof (IH s t') as H end.
    cbn [inserts removes] in H. apply Upsert_loop_count in E.
    destruct (Upsert_inserted _); lia.
  - destruct (Remove zeroV fuel sl k) as [[sl' [v removed]]| |] eqn:E; [|simpl; lia..].
    match goal with |- context [exec fuel ops ?s ?t'] => pose proof (IH s t') as H end.
    cbn [inserts removes] in H. apply Remove_loop_count in E. destruct removed; lia.
  - destruct (Find zeroV sl k); [apply IH|simpl; lia..].
  - destruct (Query fuel sl ctx start end_); [apply IH|simpl; lia..].
Qed.

(** C9.  [Upsert] bumps the counter exactly when it inserts a node, not
    when it updates a value in place or fails; [Remove] bumps it exactly
    when it removes; and after any sequence of operations on a new skip
    list the counter is the number of inserts plus the number of
    removes. *)
Theorem count_is_inserts_plus_removes fuel :
  (forall sl k (check : UpdateCheck V) c,
     match Upsert_loop zeroV fuel sl k check c with
     | (calls, Done (sl', upd, err)) as r =>
         count sl' = (count sl + if Upsert_inserted r then 1 else 0)%Z
         /\ (Upsert_updated r = true -> count sl' = count sl)
     | _ => True
     end)
  /\ (forall sl k,
        match Remove zeroV fuel sl k with
        | Done (sl', (_, removed)) =>
            count sl' = (count sl + if removed then 1 else 0)%Z
        | _ => True
        end)
  /\ (forall ops,
        let r := exec fuel ops NewSkipList (mkTally 0 0 0) in
        count r.1 = (Z.of_nat (inserts r.2) + Z.of_nat (removes r.2))%Z).
Proof.
  split; [|split].
  - intros sl k check c.
    destruct (Upsert_loop zeroV fuel sl k check c) as [calls [[[sl' upd] err]| |]] eqn:E;
      [|done..].
    pose proof (Upsert_loop_count _ _ _ _ _ _ _ _ _ E) as Hc. split; [done|].
    intros Hu. rewrite Hc.
    destruct calls as [|[[? ?] [|]] [|? ?]]; simpl in *; try done; destruct upd, err; try done; lia.
  - intros sl k. destruct (Remove zeroV fuel sl k) as [[sl' [v removed]]| |] eqn:E; [|done..].
    by apply Remove_loop_count in E.
  - intros ops r. pose proof (exec_count fuel ops NewSkipList (mkTally 0 0 0)) as H.
    fold r in H. simpl in H. lia.
Qed.

End Spec.

(** *** Concrete runs *)

Definition put (v : nat) : UpdateCheck nat :=
  fun _ cur ex => inl (if ex then S cur else v).
Definition reject : UpdateCheck nat := fun _ _ _ => inr "rejected".
Definition tails : coins := fun _ => false.
Definition heads : coins := fun _ => true.

(** The index after an insert of ["a"] at level 1. *)
Definition sl_a : SkipList nat :=
  Eval vm_compute in
  match Upsert 0 1 NewSkipList "a" (put 1) tails with
  | Done (s, _, _) => s
  | _ => NewSkipList
  end.

(** The index after inserts of ["b"], ["a"] (at level 4) and ["c"]. *)
Definition sl_abc : SkipList nat :=
  Eval vm_compute in
  match
    ('(s, _, _) ← Upsert 0 1 NewSkipList "b" (put 20) tails;
     '(s, _, _) ← Upsert 0 1 s "a" (put 10) (fun n => Nat.ltb n 3);
     '(s, _, _) ← Upsert 0 1 s "c" (put 30) tails;
     Done s)
  with
  | Done s => s
  | _ => NewSkipList
  end.

(** The invariant of a concrete index, by evaluation. *)
Ltac rep_by_computation :=
  split;
  [ done
  | eexists; split; [reflexivity|]; done
  | eexists; split; [reflexivity|]; done
  | repeat constructor;
    (eexists; split; [reflexivity|]; cbn; unfold MAX_LEVEL;
     repeat split; try done; try lia; eauto)
  | cbn; repeat constructor; done
  | cbn; lia
  | let i := fresh "i" in let Hi := fresh "Hi" in
    intros i Hi; unfold MAX_LEVEL in Hi;
    do 11 (destruct i as [|i]; [vm_compute; repeat split; reflexivity|]); lia ].

Lemma sl_a_Rep : Rep sl_a [2].
Proof. rep_by_computation. Qed.

Lemma sl_abc_Rep : Rep sl_abc [3; 2; 4].
Proof. rep_by_computation. Qed.

Example sl_abc_entries : entries 0 sl_abc [3; 2; 4] = [("a", 10); ("b", 20); ("c", 30)].
Proof. vm_compute. reflexivity. Qed.

Lemma Upsert_check_error_witness :
  Upsert 0 1 sl_a "a" reject tails = Done (sl_a, false, Some "rejected").
Proof.
  apply (Upsert_check_error_unchanged 0 1 sl_a "a" reject tails 1 true "rejected").
  - vm_compute. left.
  - reflexivity.
Defined.

(** C2 fails on the code: ["a"] is already in the index, its value is
    overwritten in place (no node is added, the counter of structural
    changes stays), and [Upsert] still returns [updated = true]. *)
Lemma Upsert_overwrite_returns_true :
  Find 0 sl_a "a" = Done (1, true)
  /\ exists sl', Upsert 0 1 sl_a "a" (put 7) tails = Done (sl', true, None)
       /\ Find 0 sl' "a" = Done (2, true)
       /\ length (heap sl') = length (heap sl_a)
       /\ count sl' = count sl_a.
Proof.
  split; [vm_compute; reflexivity|].
  eexists. split; [vm_compute; reflexivity|]. repeat split.
Qed.

Lemma Upsert_updated_iff_check_ok_witness :
  exists cur ex sl' L' updated err,
    Upsert 0 1 sl_a "a" (put 7) tails = Done (sl', updated, err)
    /\ Upsert_calls 0 1 sl_a "a" (put 7) tails = [("a", cur, ex)]
    /\ (ex = true <-> "a" ∈ keys sl_a [2])
    /\ Rep sl' L'
    /\ (updated = true <-> exists nv, put 7 "a" cur ex = inl nv)
    /\ (updated = false <-> exists e, put 7 "a" cur ex = inr e /\ err = Some e)
    /\ (updated = true ->
          keys sl' L' = if ex then keys sl_a [2] else insert_key "a" (keys sl_a [2]))
    /\ (updated = false -> sl' = sl_a).
Proof.
  apply (Upsert_updated_iff_check_ok 0 sl_a [2] "a" (put 7) tails 0).
  - rep_by_computation.
  - discriminate.
  - left. vm_compute. left.
Defined.

Lemma Query_returns_range_witness :
  let hits := filter (fun kv => in_query_range "b" "c" kv.1)
                     (entries 0 sl_abc [3; 2; 4]) in
  Query 1 sl_abc false "b" "c" = Done (snd <$> hits, None)
  /\ StronglySorted key_lt (fst <$> hits)
  /\ ("b" = "" -> forall kv, kv ∈ entries 0 sl_abc [3; 2; 4] ->
        (kv ∈ hits <-> "c" = "" \/ String.leb kv.1 "c" = true))
  /\ ("b" = "" -> "c" = "" -> hits = entries 0 sl_abc [3; 2; 4])
  /\ ("b" <> "" -> "c" <> "" -> key_lt "c" "b" -> hits = []).
Proof.
  apply (Query_returns_range 0 sl_abc [3; 2; 4] "b" "c" 0).
  rep_by_computation.
Defined.

Example Query_bc : Query 1 sl_abc false "b" "c" = Done ([20; 30], None).
Proof. vm_compute. reflexivity. Qed.

Example Query_all : Query 1 sl_abc false "" "" = Done ([10; 20; 30], None).
Proof. vm_compute. reflexivity. Qed.

Example Query_z_a : Query 1 sl_abc false "z" "a" = Done ([], None).
Proof. vm_compute. reflexivity. Qed.

(** C5 fails on the code: on a new skip list, an insert whose random
    level is [MAX_LEVEL] reads [preds[MAX_LEVEL]] in a slice of length
    [MAX_LEVEL] and panics. *)
Theorem Upsert_top_level_panics :
  randomLevel heads = MAX_LEVEL
  /\ Upsert 0 1 NewSkipList "a" (put 1) heads = Panic.
Proof. split; vm_compute; reflexivity. Qed.

(** Two more ways in which the index fails without callback error or
    cancellation: the tail carries the zero key, so on a new skip list
    [Find ""] dereferences the nil value of the tail, and [Upsert ""]
    retries for ever. *)
Lemma Find_empty_key_panics : Find 0 (@NewSkipList nat) "" = Panic.
Proof. vm_compute. reflexivity. Qed.

Lemma Upsert_empty_key_hangs fuel :
  Upsert 0 fuel NewSkipList "" (put 1) tails = Timeout.
Proof.
  unfold Upsert.
  rewrite (Upsert_tail_timeout 0 NewSkipList [] "" (put 1) tails 10); try done.
  apply NewSkipList_Rep.
Qed.

End skiplist_spec.

(** ** [Upsert] of a key that [Find] finds *)

Module skiplist_found.
Import skiplist skiplist_rep skiplist_ops skiplist_run skiplist_abs skiplist_spec.

Section Found.
Context {V : Type} (zeroV : V).
Implicit Types (sl : SkipList V) (L : list addr) (k : string).

(** In any state of the index: if [Find] finds the key, [Upsert] calls
    [check] with the value found, and an error of [check] is returned
    with the index as it was. *)
Lemma Upsert_error_of_Find sl k (check : UpdateCheck V) c fuel d e :
  Find zeroV sl k = Done (d, true) ->
  check k d true = inr e ->
  Upsert zeroV (S fuel) sl k check c = Done (sl, false, Some e).
Proof.
  intros HF Hck. unfold Find in HF. unfold Upsert. cbn [Upsert_loop].
  destruct (find sl k) as [[[levelFound preds] succs]| |]; simpl in HF; try done.
  cbn [untraced]. destruct levelFound as [lf|]; [|done].
  apply obind_inv in HF as (s & Hs & HF). apply obind_inv in HF as (nd & Hnd & HF).
  apply obind_inv in HF as (v & Hv & HF). injection HF as -> Hfl.
  rewrite Hs, obind_Done, Hnd, obind_Done. cbn [untraced].
  apply andb_true_iff in Hfl as [Hfl Hm]. apply negb_true_iff in Hm.
  rewrite Hm, Hfl. cbn [orb negb]. rewrite Hv. cbn [untraced snd].
  by rewrite Hck.
Qed.

Lemma Find_found_key sl L k d : Rep sl L -> k <> "" ->
  Find zeroV sl k = Done (d, true) ->
  k ∈ keys sl L /\ (k, d) ∈ entries zeroV sl L.
Proof.
  intros HR Hk HF.
  destruct (decide (k ∈ keys sl L)) as [Hin|Hn].
  - split; [done|].
    pose proof Hin as Hin'. unfold keys in Hin'.
    apply list_elem_of_fmap in Hin' as (a & Hka & Ha).
    assert ((k, valD zeroV sl a) ∈ entries zeroV sl L) as He.
    { unfold entries. apply list_elem_of_fmap. exists a. by rewrite <- Hka. }
    destruct (Find_spec zeroV sl L k HR Hk) as [H1 _].
    rewrite (H1 _ He) in HF. by injection HF as <-.
  - destruct (Find_spec zeroV sl L k HR Hk) as [_ H2].
    rewrite (H2 Hn) in HF. done.
Qed.

(** On an index that satisfies the invariant: if [Find] finds the key
    and [check] returns a value, [Upsert] stores that value in place and
    [Find] finds it afterwards; the keys of the index do not change. *)
Lemma Upsert_overwrite_of_Find sl L k (check : UpdateCheck V) c fuel d nv :
  Rep sl L -> k <> "" ->
  Find zeroV sl k = Done (d, true) ->
  check k d true = inl nv ->
  exists sl', Upsert zeroV (S fuel) sl k check c = Done (sl', true, None)
    /\ Find zeroV sl' k = Done (nv, true)
    /\ Rep sl' L /\ keys sl' L = keys sl L /\ count sl' = count sl.
Proof.
  intros HR Hk HF Hck.
  destruct (Find_found_key sl L k d HR Hk HF) as [Hin He].
  destruct (Upsert_present zeroV sl L k check c fuel HR Hk Hin)
    as (s & nd & cur & Hs & Hnd & Hkey & Hv & Hrun).
  assert (cur = d) as ->.
  { destruct (Find_spec zeroV sl L k HR Hk) as [H1 _].
    assert ((k, cur) ∈ entries zeroV sl L) as He'.
    { unfold entries. apply list_elem_of_fmap. exists s. split; [|done].
      unfold keyOf, valD, valOf. rewrite Hnd. simpl. by rewrite Hkey, Hv. }
    rewrite (H1 _ He') in HF. by injection HF as ->. }
  rewrite Hck in Hrun.
  exists (set_node sl s (with_value nd nv)). unfold Upsert. rewrite Hrun.
  split; [done|].
  pose proof (set_value_Rep sl L s nd nv HR Hs Hnd) as HR'.
  split; [|split; [done|split; [by apply set_value_keys|done]]].
  destruct (Find_spec zeroV _ L k HR' Hk) as [H1 _]. apply H1.
  unfold entries. apply list_elem_of_fmap. exists s. split; [|done].
  unfold keyOf, valD, valOf. rewrite set_node_lookup.
  rewrite decide_True by (split; [done|by apply lookup_lt_Some in Hnd]).
  simpl. by rewrite Hkey.
Qed.

End Found.
End skiplist_found.


(** ** The index as a finite map *)

Module skiplist_map.
Import skiplist skiplist_rep skiplist_ops skiplist_run skiplist_abs skiplist_spec.

Section Map.
Context {V : Type} (zeroV : V).
Implicit Types (sl : SkipList V) (L : list addr) (k : string) (m : gmap string V).

(** [Abs sl m]: the index [sl] satisfies the invariant of the skip list
    and holds the keys and values of the finite map [m]. *)
Definition Abs sl m : Prop :=
  exists L, Rep sl L /\ list_to_map (entries zeroV sl L) = m.

(** The value and the flag that the operations return for a key. *)
Definition result_of m k : V * bool :=
  match m !! k with
  | Some v => (v, true)
  | None => (zeroV, false)
  end.

Lemma entries_NoDup sl L : Rep sl L -> NoDup (entries zeroV sl L).*1.
Proof.
  intros HR. apply StronglySorted_lt_NoDup. by apply entries_sorted.
Qed.

Lemma entries_lookup sl L k v : Rep sl L ->
  (list_to_map (entries zeroV sl L) : gmap string V) !! k = Some v
  <-> (k, v) ∈ entries zeroV sl L.
Proof.
  intros HR. symmetry. apply elem_of_list_to_map. by apply entries_NoDup.
Qed.

Lemma entries_lookup_None sl L k :
  (list_to_map (entries zeroV sl L) : gmap string V) !! k = None
  <-> k ∉ keys sl L.
Proof. rewrite <- (entries_keys zeroV). symmetry. apply not_elem_of_list_to_map. Qed.

Lemma entries_elem sl L k v :
  (k, v) ∈ entries zeroV sl L
  <-> exists a, a ∈ L /\ keyOf sl a = k /\ valD zeroV sl a = v.
Proof.
  unfold entries. rewrite list_elem_of_fmap. split.
  - intros (a & [= -> ->] & Ha). eauto.
  - intros (a & Ha & <- & <-). eauto.
Qed.

Lemma Abs_Rep sl m : Abs sl m -> exists L, Rep sl L.
Proof. intros (L & HR & _). eauto. Qed.

Lemma NewSkipList_Abs : Abs (@NewSkipList V) ∅.
Proof. exists []. split; [apply NewSkipList_Rep|done]. Qed.

(** [Find] reads the map. *)
Lemma Find_Abs sl m k : Abs sl m -> k <> "" ->
  Find zeroV sl k = Done (result_of m k).
Proof.
  intros (L & HR & <-) Hk. unfold result_of.
  destruct (Find_spec zeroV sl L k HR Hk) as [H1 H2].
  destruct (_ !! k) as [v|] eqn:E.
  - apply H1. by apply entries_lookup.
  - apply H2. by apply entries_lookup_None.
Qed.

(** A state whose entries are those of [sl] but for key [k], now bound
    to [nv], holds the map with [k] set to [nv]. *)
Lemma Abs_insert sl L sl' L' k nv :
  Rep sl L -> Rep sl' L' ->
  (forall k' v', (k', v') ∈ entries zeroV sl' L'
     <-> (k' = k /\ v' = nv) \/ (k' <> k /\ (k', v') ∈ entries zeroV sl L)) ->
  Abs sl' (<[k := nv]> (list_to_map (entries zeroV sl L))).
Proof.
  intros HR HR' Hiff. exists L'. split; [done|].
  apply map_eq. intros k'. apply option_eq. intros v'.
  rewrite (entries_lookup sl' L' k' v' HR'), Hiff, lookup_insert_Some.
  rewrite (entries_lookup sl L k' v' HR). intuition congruence.
Qed.

Lemma Abs_delete sl L sl' L' k :
  Rep sl L -> Rep sl' L' ->
  (forall k' v', (k', v') ∈ entries zeroV sl' L'
     <-> k' <> k /\ (k', v') ∈ entries zeroV sl L) ->
  Abs sl' (delete k (list_to_map (entries zeroV sl L))).
Proof.
  intros HR HR' Hiff. exists L'. split; [done|].
  apply map_eq. intros k'. apply option_eq. intros v'.
  rewrite (entries_lookup sl' L' k' v' HR'), Hiff, lookup_delete_Some.
  rewrite (entries_lookup sl L k' v' HR). intuition congruence.
Qed.

Lemma keyOf_inj sl L a b : Rep sl L -> a ∈ L -> b ∈ L ->
  keyOf sl a = keyOf sl b -> a = b.
Proof.
  intros HR Ha Hb Hk.
  pose proof (StronglySorted_lt_NoDup _ (rep_sorted _ _ HR)) as Hnd.
  apply list_elem_of_lookup in Ha as [i Hi]. apply list_elem_of_lookup in Hb as [j Hj].
  assert (i = j) as ->; [|congruence].
  eapply NoDup_lookup; [exact Hnd| |].
  - rewrite list_lookup_fmap, Hi. reflexivity.
  - rewrite list_lookup_fmap, Hj. simpl. by rewrite Hk.
Qed.

(** [Upsert] of a key of the map: the value is replaced. *)
Lemma Upsert_Abs_present sl m k (check : UpdateCheck V) c fuel cur nv :
  Abs sl m -> k <> "" -> m !! k = Some cur -> check k cur true = inl nv ->
  exists sl', Upsert zeroV (S fuel) sl k check c = Done (sl', true, None)
    /\ Abs sl' (<[k := nv]> m) /\ count sl' = count sl.
Proof.
  intros (L & HR & <-) Hk Hm Hck.
  apply (entries_lookup sl L k cur HR) in Hm.
  assert (k ∈ keys sl L) as Hin.
  { rewrite <- (entries_keys zeroV). apply list_elem_of_fmap. by exists (k, cur). }
  destruct (Upsert_present zeroV sl L k check c fuel HR Hk Hin)
    as (s & nd & cur' & Hs & Hnd & Hkey & Hv & Hrun).
  assert (keyOf sl s = k) as Hks by (unfold keyOf; by rewrite Hnd).
  assert (cur' = cur) as ->.
  { apply entries_elem in Hm as (a & Ha & Hka & Hva).
    assert (a = s) as -> by (eapply keyOf_inj; eauto; congruence).
    unfold valD, valOf in Hva. rewrite Hnd in Hva. simpl in Hva.
    rewrite Hv in Hva. by simpl in Hva. }
  rewrite Hck in Hrun. exists (set_node sl s (with_value nd nv)).
  unfold Upsert. rewrite Hrun. split; [done|]. split; [|done].
  pose proof (set_value_Rep sl L s nd nv HR Hs Hnd) as HR'.
  apply (Abs_insert sl L _ L k nv HR HR'). intros k' v'.
  rewrite !entries_elem. split.
  - intros (a & Ha & Hka & Hva).
    unfold keyOf, valD, valOf in Hka, Hva. rewrite set_node_lookup in Hka, Hva.
    destruct (decide (s = a /\ s < length (heap sl))) as [[-> ?]|Hne].
    + simpl in Hka, Hva. left. split; congruence.
    + right. assert (a <> s) as Has.
      { intros ->. apply Hne. split; [done|]. by apply lookup_lt_Some in Hnd. }
      split; [|by exists a].
      intros ->. apply Has. apply (keyOf_inj sl L a s HR Ha Hs). by rewrite Hks.
  - intros [[-> ->]|[Hne (a & Ha & Hka & Hva)]].
    + exists s. split; [done|]. unfold keyOf, valD, valOf. rewrite set_node_lookup.
      rewrite decide_True by (split; [done|by apply lookup_lt_Some in Hnd]). done.
    + exists a. split; [done|]. unfold keyOf, valD, valOf. rewrite set_node_lookup.
      rewrite decide_False; [done|]. intros [-> _]. congruence.
Qed.

(** [Upsert] of a key that is not in the map: the key is added, unless
    [randomLevel] draws the level [MAX_LEVEL]. *)
Lemma Upsert_Abs_absent sl m k (check : UpdateCheck V) c fuel nv :
  Abs sl m -> k <> "" -> m !! k = None -> randomLevel c < MAX_LEVEL ->
  check k zeroV false = inl nv ->
  exists sl', Upsert zeroV (S fuel) sl k check c = Done (sl', true, None)
    /\ Abs sl' (<[k := nv]> m) /\ count sl' = (count sl + 1)%Z.
Proof.
  intros (L & HR & <-) Hk Hm Ht Hck.
  apply entries_lookup_None in Hm.
  pose proof (Upsert_absent zeroV sl L k check c fuel HR Hk Hm Ht) as Hrun.
  rewrite Hck in Hrun. destruct Hrun as (sl' & Hrun & HI & Hc & HR').
  exists sl'. unfold Upsert. rewrite Hrun. split; [done|]. split; [|done].
  apply (Abs_insert sl L sl' _ k nv HR HR'). intros k' v'.
  pose proof (ins_frame _ _ _ _ _ _ HI) as HF.
  destruct (ins_new _ _ _ _ _ _ HI) as (ndn & Hndn & Hkn & Hvn & _).
  assert (forall a, a ∈ L -> keyOf sl' a = keyOf sl a
                              /\ valD zeroV sl' a = valD zeroV sl a) as Hold.
  { intros a Ha. pose proof (Rep_elem_lt sl L a HR Ha) as Hlt. split.
    - by eapply frame_keyOf.
    - unfold valD. by rewrite (frame_valOf None sl sl' a HF Hlt). }
  assert (forall a, a ∈ below sl k L ++ length (heap sl) :: above sl k L
                    <-> a = length (heap sl) \/ a ∈ L) as HL'.
  { intros a. rewrite (sorted_split sl k L (rep_sorted _ _ HR)) at 3.
    rewrite !elem_of_app, elem_of_cons. tauto. }
  assert (length (heap sl) ∉ L) as Hnew.
  { intros Hin. apply (Rep_elem_lt sl L _ HR) in Hin. lia. }
  rewrite !entries_elem. split.
  - intros (a & Ha & Hka & Hva). apply HL' in Ha as [->|Ha].
    + left. unfold keyOf, valD, valOf in Hka, Hva. rewrite Hndn in Hka, Hva.
      simpl in Hka, Hva. rewrite Hvn in Hva. simpl in Hva. split; congruence.
    + destruct (Hold a Ha) as [E1 E2]. right. split.
      * intros ->. apply Hm. apply list_elem_of_fmap. exists a. split; [|done]. congruence.
      * exists a. split; [done|]. split; congruence.
  - intros [[-> ->]|[Hne (a & Ha & Hka & Hva)]].
    + exists (length (heap sl)). split; [apply HL'; by left|].
      unfold keyOf, valD, valOf. rewrite Hndn. simpl. by rewrite Hvn.
    + exists a. split; [apply HL'; by right|]. destruct (Hold a Ha) as [E1 E2].
      split; congruence.
Qed.

(** [Upsert] whose callback refuses: the error is returned and the index
    is as it was. *)
Lemma Upsert_Abs_error sl m k (check : UpdateCheck V) c fuel e :
  Abs sl m -> k <> "" ->
  is_Some (m !! k) \/ randomLevel c < MAX_LEVEL ->
  check k (result_of m k).1 (result_of m k).2 = inr e ->
  Upsert zeroV (S fuel) sl k check c = Done (sl, false, Some e).
Proof.
  intros HA Hk Hok Hck. pose proof (Find_Abs sl m k HA Hk) as HF.
  unfold result_of in *. destruct (m !! k) as [cur|] eqn:E; simpl in *.
  - by apply (skiplist_found.Upsert_error_of_Find zeroV sl k check c fuel cur e).
  - destruct Hok as [[? ?]|Ht]; [done|]. destruct HA as (L & HR & <-).
    apply entries_lookup_None in E.
    pose proof (Upsert_absent zeroV sl L k check c fuel HR Hk E Ht) as Hrun.
    rewrite Hck in Hrun. unfold Upsert. by rewrite Hrun.
Qed.

(** [Remove] deletes the key from the map and returns what it held. *)
Lemma Remove_Abs sl m k fuel : Abs sl m -> k <> "" ->
  exists sl', Remove zeroV (S fuel) sl k = Done (sl', result_of m k)
    /\ Abs sl' (delete k m)
    /\ count sl' = (count sl + if (result_of m k).2 then 1 else 0)%Z.
Proof.
  intros (L & HR & <-) Hk. unfold result_of.
  destruct (found_below sl k L MAX_LEVEL) as [lf|] eqn:Hf.
  - pose proof (found_nonempty_key sl k L lf HR Hk Hf) as Hs.
    destruct (Remove_present zeroV sl L k fuel lf HR Hf Hs)
      as (sl' & v0 & Ab & Hrun & Hab & Hkv & Hv & HRm & Hc).
    set (v := succ_at sl k L lf) in *.
    assert (v ∈ L) as HvL.
    { apply (above_elem sl k L). rewrite Hab. by left. }
    assert ((k, v0) ∈ entries zeroV sl L) as He.
    { apply entries_elem. exists v. split; [done|]. split; [done|].
      unfold valD. by rewrite Hv. }
    apply (entries_lookup sl L k v0 HR) in He. rewrite He.
    exists sl'. split; [done|]. split; [|done].
    pose proof (remove_Rep sl sl' k L v Ab HR Hab HRm) as HR'.
    apply (Abs_delete sl L sl' _ k HR HR'). intros k' v'.
    pose proof (rem_frame _ _ _ _ _ HRm) as HF.
    assert (forall a, a ∈ L -> a <> v -> keyOf sl' a = keyOf sl a
                              /\ valD zeroV sl' a = valD zeroV sl a) as Hold.
    { intros a Ha Hne. pose proof (Rep_elem_lt sl L a HR Ha) as Hlt. split.
      - by eapply frame_keyOf.
      - unfold valD. rewrite (frame_valOf (Some v) sl sl' a HF Hlt); [done|congruence]. }
    assert (forall a, a ∈ below sl k L ++ Ab <-> a ∈ L /\ a <> v) as HL'.
    { intros a. pose proof (Rep_NoDup sl L HR) as Hnd. apply NoDup_cons in Hnd as [_ Hnd].
      rewrite (sorted_split sl k L (rep_sorted _ _ HR)) in Hnd |- * at 2.
      rewrite Hab in Hnd |- *.
      apply NoDup_app in Hnd as (_ & Hdis & Hnd2). apply NoDup_cons in Hnd2 as [Hv2 _].
      rewrite !elem_of_app, elem_of_cons. split.
      - intros [Ha|Ha]; (split; [tauto|]); intros ->.
        + apply (Hdis v Ha). by left.
        + done.
      - intros [[Ha|[->|Ha]] Hne]; tauto. }
    rewrite !entries_elem. split.
    + intros (a & Ha & Hka & Hva). apply HL' in Ha as [Ha Hne].
      destruct (Hold a Ha Hne) as [E1 E2]. split.
      * intros ->. apply Hne. apply (keyOf_inj sl L a v HR Ha HvL). congruence.
      * exists a. split; [done|]. split; congruence.
    + intros [Hne (a & Ha & Hka & Hva)].
      assert (a <> v) as Hav by (intros ->; congruence).
      exists a. split; [by apply HL'|]. destruct (Hold a Ha Hav) as [E1 E2].
      split; congruence.
  - pose proof (found_None_absent sl k L HR Hf) as Hn.
    pose proof Hn as Hn'. apply entries_lookup_None in Hn'. rewrite Hn'.
    exists sl. rewrite (Remove_absent zeroV sl L k fuel HR Hf).
    split; [done|]. split; [|simpl; lia].
    exists L. split; [done|]. by rewrite delete_id.
Qed.

(** The map that an index holds is determined by the index: the nodes
    are those of the chain at level 0. *)
Lemma chain_unique sl i : forall L L' p,
  chain sl i p L -> chain sl i p L' -> tail sl ∉ L -> tail sl ∉ L' -> L = L'.
Proof.
  induction L as [|q L IH]; intros [|q' L'] p Hc Hc' Ht Ht'; simpl in *.
  - done.
  - destruct Hc' as [Hq' _]. rewrite Hc in Hq'. injection Hq' as <-.
    exfalso. apply Ht'. by left.
  - destruct Hc as [Hq _]. rewrite Hc' in Hq. injection Hq as <-.
    exfalso. apply Ht. by left.
  - destruct Hc as [Hq Hc]. destruct Hc' as [Hq' Hc']. rewrite Hq in Hq'.
    injection Hq' as <-. f_equal. apply (IH L' q Hc Hc').
    + intros ?. apply Ht. by right.
    + intros ?. apply Ht'. by right.
Qed.

Lemma Rep_unique sl L L' : Rep sl L -> Rep sl L' -> L = L'.
Proof.
  intros HR HR'.
  assert (0 < MAX_LEVEL) as H0 by (unfold MAX_LEVEL; lia).
  assert (forall l, at_level sl 0 l = l) as E0.
  { intros l. apply filter_all, Forall_forall. intros; simpl; lia. }
  pose proof (rep_chain _ _ HR 0 H0) as Hc. pose proof (rep_chain _ _ HR' 0 H0) as Hc'.
  rewrite E0 in Hc, Hc'.
  assert (forall l, Rep sl l -> tail sl ∉ l) as Ht.
  { intros l Hl Hin. destruct (Rep_linked sl l _ Hl Hin) as (nd & _ & _ & _ & _ & _ & _ & _ & Hne).
    done. }
  apply (chain_unique sl 0 L L' (head sl)); auto.
Qed.

Lemma Abs_unique sl m m' : Abs sl m -> Abs sl m' -> m = m'.
Proof.
  intros (L & HR & <-) (L' & HR' & <-). by rewrite (Rep_unique sl L L' HR HR').
Qed.

(** [Query] without bounds returns the values of the map. *)
Lemma Query_all_Abs sl m fuel : Abs sl m ->
  exists l, Query (S fuel) sl false "" "" = Done (l, None)
    /\ forall v, v ∈ l <-> exists k, m !! k = Some v.
Proof.
  intros (L & HR & <-). eexists. split; [apply (Query_spec zeroV sl L "" "" fuel HR)|].
  intros v. rewrite filter_all.
  2:{ apply Forall_forall. intros a _. split; [|by left].
      unfold key_lt. by rewrite ltb_empty_r. }
  rewrite list_elem_of_fmap. split.
  - intros (a & -> & Ha). exists (keyOf sl a). apply (entries_lookup sl L _ _ HR).
    apply entries_elem. eauto.
  - intros (k & Hk). apply (entries_lookup sl L _ _ HR) in Hk.
    apply entries_elem in Hk as (a & Ha & _ & Hv). eauto.
Qed.

(** The search for the empty key stops at the tail sentinel, at the
    highest level, while no node has that level. *)
Lemma empty_key_found sl L :
  Rep sl L -> Forall (fun a => lvlOf sl a < MAX_LEVEL - 1) L ->
  found_below sl "" L MAX_LEVEL = Some (MAX_LEVEL - 1)
  /\ succ_at sl "" L (MAX_LEVEL - 1) = tail sl.
Proof.
  intros HR Hlow.
  assert (succ_at sl "" L (MAX_LEVEL - 1) = tail sl) as Hs.
  { unfold succ_at, at_level. rewrite filter_none; [done|].
    apply Forall_forall. intros a Ha%above_elem. destruct Ha as [Ha _].
    rewrite Forall_forall in Hlow. specialize (Hlow a Ha). lia. }
  split; [|done].
  change MAX_LEVEL with (S (MAX_LEVEL - 1)) at 1. cbn [found_below].
  rewrite Hs. destruct (rep_tail _ _ HR) as (nd & Hnd & Hkey & _).
  unfold keyOf. rewrite Hnd. simpl. rewrite Hkey. done.
Qed.

End Map.
End skiplist_map.

(** ** Properties of the skip list as a map *)

Module skiplist_props.
Import skiplist skiplist_rep skiplist_ops skiplist_run skiplist_abs skiplist_spec
       skiplist_map.

Section Props.
Context {V : Type} (zeroV : V).
Implicit Types (sl : SkipList V) (L : list addr) (k : string) (m : gmap string V).

(** X1.  [Find] returns the value stored under the key and [true], or the
    zero value and [false] when the key is not in the index. *)
Theorem Find_returns_stored_value sl m k : Abs zeroV sl m -> k <> "" ->
  Find zeroV sl k = Done (result_of zeroV m k).
Proof. apply Find_Abs. Qed.

(** X2.  [Upsert] whose callback accepts: the key is bound to the value the
    callback returned, [Find] then finds it, the other keys keep their
    values, and the counter moves only for a new key.  The callback gets
    the value found and [true], or the zero value and [false]. *)
Theorem Upsert_then_Find sl m k (check : UpdateCheck V) c fuel nv :
  Abs zeroV sl m -> k <> "" ->
  is_Some (m !! k) \/ randomLevel c < MAX_LEVEL ->
  check k (result_of zeroV m k).1 (result_of zeroV m k).2 = inl nv ->
  exists sl', Upsert zeroV (S fuel) sl k check c = Done (sl', true, None)
    /\ Abs zeroV sl' (<[k := nv]> m)
    /\ count sl' = (count sl + if (result_of zeroV m k).2 then 0 else 1)%Z
    /\ Find zeroV sl' k = Done (nv, true)
    /\ forall k', k' <> "" -> k' <> k -> Find zeroV sl' k' = Find zeroV sl k'.
Proof.
  intros HA Hk Hok Hck. unfold result_of in *.
  assert (exists sl', Upsert zeroV (S fuel) sl k check c = Done (sl', true, None)
    /\ Abs zeroV sl' (<[k := nv]> m)
    /\ count sl' = (count sl + if (match m !! k with
                                   | Some v => (v, true)
                                   | None => (zeroV, false)
                                   end).2 then 0 else 1)%Z) as (sl' & Hrun & HA' & Hc).
  { destruct (m !! k) as [cur|] eqn:E; simpl in *.
    - destruct (Upsert_Abs_present zeroV sl m k check c fuel cur nv HA Hk E Hck)
        as (sl' & ? & ? & ?). exists sl'. split; [done|]. split; [done|]. lia.
    - destruct Hok as [[? ?]|Ht]; [done|].
      destruct (Upsert_Abs_absent zeroV sl m k check c fuel nv HA Hk E Ht Hck)
        as (sl' & ? & ? & ?). eauto. }
  exists sl'. split; [done|]. split; [done|]. split; [done|]. split.
  - rewrite (Find_Abs zeroV sl' _ k HA' Hk). unfold result_of.
    by rewrite lookup_insert_eq.
  - intros k' Hk' Hne. rewrite (Find_Abs zeroV sl' _ k' HA' Hk').
    rewrite (Find_Abs zeroV sl m k' HA Hk'). unfold result_of.
    by rewrite lookup_insert_ne.
Qed.

(** X3.  [Remove] returns what the key held and deletes it: [Find] no longer
    finds it, and the other keys keep their values.  For a key that is
    not in the index it returns [false] and changes nothing. *)
Theorem Remove_then_Find sl m k fuel : Abs zeroV sl m -> k <> "" ->
  exists sl', Remove zeroV (S fuel) sl k = Done (sl', result_of zeroV m k)
    /\ Abs zeroV sl' (delete k m)
    /\ (m !! k = None -> sl' = sl)
    /\ Find zeroV sl' k = Done (zeroV, false)
    /\ forall k', k' <> "" -> k' <> k -> Find zeroV sl' k' = Find zeroV sl k'.
Proof.
  intros HA Hk.
  destruct (Remove_Abs zeroV sl m k fuel HA Hk) as (sl' & Hrun & HA' & Hc).
  exists sl'. split; [done|]. split; [done|]. split; [|split].
  - intros E. destruct HA as (L & HR & <-).
    apply entries_lookup_None in E.
    pose proof (found_absent sl k L HR Hk E) as Hf.
    rewrite (Remove_absent zeroV sl L k fuel HR Hf) in Hrun. by injection Hrun as <-.
  - rewrite (Find_Abs zeroV sl' _ k HA' Hk). unfold result_of.
    by rewrite lookup_delete_eq.
  - intros k' Hk' Hne. rewrite (Find_Abs zeroV sl' _ k' HA' Hk').
    rewrite (Find_Abs zeroV sl m k' HA Hk'). unfold result_of.
    by rewrite lookup_delete_ne.
Qed.

(** Inserting a new key and removing it again gives back the map there
    was; the counter has moved twice. *)
Theorem Upsert_Remove_roundtrip sl m k (check : UpdateCheck V) c fuel nv :
  Abs zeroV sl m -> k <> "" -> m !! k = None -> randomLevel c < MAX_LEVEL ->
  check k zeroV false = inl nv ->
  exists sl1 sl2,
    Upsert zeroV (S fuel) sl k check c = Done (sl1, true, None)
    /\ Remove zeroV (S fuel) sl1 k = Done (sl2, (nv, true))
    /\ Abs zeroV sl2 m
    /\ count sl2 = (count sl + 2)%Z.
Proof.
  intros HA Hk E Ht Hck.
  destruct (Upsert_Abs_absent zeroV sl m k check c fuel nv HA Hk E Ht Hck)
    as (sl1 & Hrun1 & HA1 & Hc1).
  destruct (Remove_Abs zeroV sl1 _ k fuel HA1 Hk) as (sl2 & Hrun2 & HA2 & Hc2).
  unfold result_of in Hrun2, Hc2. rewrite lookup_insert_eq in Hrun2, Hc2.
  exists sl1, sl2. split; [done|]. split; [done|]. split.
  - by rewrite delete_insert_eq, delete_id in HA2.
  - simpl in Hc2. lia.
Qed.

(** Every operation keeps the invariant, so every run does. *)
Lemma exec_Rep fuel (ops : list (op (V := V))) : forall sl t,
  (exists L, Rep sl L) -> exists L', Rep (exec zeroV fuel ops sl t).1 L'.
Proof.
  induction ops as [|o ops IH]; intros sl t [L HR]; [by exists L|].
  destruct o as [k check c|k|k|d s e]; cbn [exec].
  - destruct (Upsert_loop zeroV fuel sl k check c) as [calls r] eqn:Hrun.
    cbn [snd]. destruct r as [[[sl' upd] err]| |]; eauto.
    apply IH. by eapply Upsert_Rep.
  - destruct fuel as [|fuel]; [simpl; eauto|].
    destruct (Remove_Rep zeroV sl L k fuel HR) as (sl' & v & r & L' & Hrun & HR' & _).
    rewrite Hrun. apply IH. eauto.
  - destruct (Find zeroV sl k); eauto.
  - destruct (Query fuel sl d s e); eauto.
Qed.

(** X4.  The invariant of the skip list holds after every sequence of
    operations on a new index: whatever the keys, the callbacks and
    the levels drawn, and wherever the sequence stops. *)
Theorem invariant_of_every_run fuel (ops : list (op (V := V))) :
  exists L, Rep (exec zeroV fuel ops NewSkipList (mkTally 0 0 0)).1 L.
Proof. apply exec_Rep. exists []. apply NewSkipList_Rep. Qed.


(** X6.  The empty key is the key of the tail sentinel.  While no node has
    the highest level, the search for it stops at the sentinel: [Find]
    panics on the sentinel's nil value, [Upsert] waits for ever for the
    sentinel to be fully linked, and [Remove] removes nothing. *)
Theorem empty_key_meets_the_sentinel sl L (check : UpdateCheck V) c fuel :
  Rep sl L -> Forall (fun a => lvlOf sl a < MAX_LEVEL - 1) L ->
  Find zeroV sl "" = Panic
  /\ (forall fuel', Upsert zeroV fuel' sl "" check c = Timeout)
  /\ Remove zeroV (S fuel) sl "" = Done (sl, (zeroV, false)).
Proof.
  intros HR Hlow. destruct (empty_key_found sl L HR Hlow) as [Hf Hs].
  split; [|split].
  - by apply (Find_tail zeroV sl L "" _ HR Hf).
  - intros fuel'. unfold Upsert.
    by rewrite (Upsert_tail_timeout zeroV sl L "" check c _ HR Hf Hs fuel').
  - by apply (Remove_tail zeroV sl L "" fuel _ HR Hf).
Qed.

(** X7.  [Query] with a cancelled context: the error of the context and no
    results as soon as one key is at or after [start]; with no such key
    the loop is not entered and the result is empty, without error. *)
Theorem Query_cancelled sl L start end_ fuel : Rep sl L ->
  Query (S fuel) sl true start end_
  = Done ([], if decide (Exists (fun key => ~ key_lt key start) (keys sl L))
              then Some "context canceled" else None).
Proof.
  intros HR. cbn [Query].
  assert (0 < MAX_LEVEL) as H0 by (unfold MAX_LEVEL; lia).
  assert (forall l, at_level sl 0 l = l) as E0.
  { intros l. apply filter_all, Forall_forall. intros; simpl; lia. }
  assert ((if key_eq_b start ""
           then load_next sl (Some (head sl)) 0
           else '(_, _, succs) ← find sl start; index succs 0)
          = Done (Some (hdd (tail sl) (above sl start L)))) as ->.
  { destruct (key_eq_b start "") eqn:Es.
    - apply key_eq_b_true in Es. subst start.
      assert (above sl "" L = L) as ->.
      { apply filter_all, Forall_forall. intros a _. unfold key_lt. by rewrite ltb_empty_r. }
      apply load_next_Some. pose proof (rep_chain _ _ HR 0 H0) as Hc'. rewrite E0 in Hc'.
      by apply (chain_hd sl 0 (head sl) L).
    - rewrite (find_spec sl start L HR), obind_Done.
      rewrite (index_Some _ _ _ (succs_of_lookup sl start L 0 H0)).
      unfold succ_at. by rewrite E0. }
  rewrite obind_Done. cbn [Query_scan].
  destruct (above sl start L) as [|q l] eqn:Hab; cbn [hdd].
  - rewrite is_ptr_refl, obind_Done, Z.eqb_refl. cbn [negb].
    rewrite decide_False; [done|].
    intros Hex. apply Exists_exists in Hex as (key & Hkey & Hge).
    apply list_elem_of_fmap in Hkey as (a & -> & Ha).
    assert (a ∈ above sl start L) as Hin.
    { unfold above. apply list_elem_of_filter. done. }
    rewrite Hab in Hin. by apply elem_of_nil in Hin.
  - assert (q ∈ above sl start L) as Hq by (rewrite Hab; by left).
    apply above_elem in Hq as [HqL Hge].
    destruct (Rep_linked sl L q HR HqL) as (nd & _ & _ & _ & _ & _ & _ & _ & Hqt).
    rewrite is_ptr_ne by done. rewrite obind_Done.
    rewrite decide_True; [done|].
    apply Exists_exists. exists (keyOf sl q). split; [|done].
    apply list_elem_of_fmap. by exists q.
Qed.

End Props.

(** The level of a new node is between 1 and [MAX_LEVEL], and it is
    [MAX_LEVEL] exactly when the first ten coins all fall on the side
    that raises the level. *)
Theorem randomLevel_range c :
  1 <= randomLevel c <= MAX_LEVEL
  /\ (randomLevel c = MAX_LEVEL <-> forall i, i < MAX_LEVEL - 1 -> c i = true).
Proof.
  split; [apply randomLevel_bounds|].
  unfold randomLevel, MAX_LEVEL. cbn [randomLevel_loop Nat.sub].
  split.
  - intros H i Hi.
    do 10 (destruct i as [|i];
           [ repeat match type of H with
                    | context [c ?n] => destruct (c n) eqn:?; simpl in H; try done
                    end | ]).
    lia.
  - intros H. rewrite !H by lia. unfold MAX_LEVEL. cbn. by rewrite andb_false_r.
Qed.

(** *** The properties on an index of three keys *)

Definition m_abc : gmap string nat := list_to_map [("a", 10); ("b", 20); ("c", 30)].

Lemma sl_abc_Abs : Abs 0 sl_abc m_abc.
Proof.
  exists [3; 2; 4]. split; [apply sl_abc_Rep|]. unfold m_abc. f_equal.
Qed.

Lemma m_abc_b : m_abc !! "b" = Some 20.
Proof. by vm_compute. Qed.

Lemma m_abc_d : m_abc !! "d" = None.
Proof. by vm_compute. Qed.

Lemma Find_returns_stored_value_witness :
  Find 0 sl_abc "b" = Done (result_of 0 m_abc "b").
Proof. apply (Find_returns_stored_value 0 sl_abc m_abc "b" sl_abc_Abs). done. Defined.

Lemma Upsert_then_Find_witness :
  exists sl', Upsert 0 1 sl_abc "b" (put 7) tails = Done (sl', true, None)
    /\ Abs 0 sl' (<["b" := 21]> m_abc)
    /\ count sl' = (count sl_abc + if (result_of 0%nat m_abc "b").2 then 0 else 1)%Z
    /\ Find 0 sl' "b" = Done (21, true)
    /\ forall k', k' <> "" -> k' <> "b" -> Find 0 sl' k' = Find 0 sl_abc k'.
Proof.
  apply (Upsert_then_Find 0 sl_abc m_abc "b" (put 7) tails 0 21 sl_abc_Abs).
  - done.
  - left. rewrite m_abc_b. by eexists.
  - unfold result_of. by rewrite m_abc_b.
Defined.

Lemma Remove_then_Find_witness :
  exists sl', Remove 0 1 sl_abc "b" = Done (sl', result_of 0 m_abc "b")
    /\ Abs 0 sl' (delete "b" m_abc)
    /\ (m_abc !! "b" = None -> sl' = sl_abc)
    /\ Find 0 sl' "b" = Done (0, false)
    /\ forall k', k' <> "" -> k' <> "b" -> Find 0 sl' k' = Find 0 sl_abc k'.
Proof. apply (Remove_then_Find 0 sl_abc m_abc "b" 0 sl_abc_Abs). done. Defined.

Lemma Upsert_Remove_roundtrip_witness :
  exists sl1 sl2,
    Upsert 0 1 sl_abc "d" (put 7) tails = Done (sl1, true, None)
    /\ Remove 0 1 sl1 "d" = Done (sl2, (7, true))
    /\ Abs 0 sl2 m_abc
    /\ count sl2 = (count sl_abc + 2)%Z.
Proof.
  apply (Upsert_Remove_roundtrip 0 sl_abc m_abc "d" (put 7) tails 0 7 sl_abc_Abs).
  - done.
  - apply m_abc_d.
  - vm_compute. lia.
  - reflexivity.
Defined.


Lemma empty_key_meets_the_sentinel_witness :
  Find 0 sl_abc "" = Panic
  /\ (forall fuel', Upsert 0 fuel' sl_abc "" (put 7) tails = Timeout)
  /\ Remove 0 1 sl_abc "" = Done (sl_abc, (0, false)).
Proof.
  apply (empty_key_meets_the_sentinel 0 sl_abc [3; 2; 4] (put 7) tails 0 sl_abc_Rep).
  repeat constructor; vm_compute; lia.
Defined.

Lemma Query_cancelled_witness :
  Query 1 sl_abc true "b" ""
  = Done ([], if decide (Exists (fun key => ~ key_lt key "b") (keys sl_abc [3; 2; 4]))
              then Some "context canceled" else None).
Proof. apply (Query_cancelled sl_abc [3; 2; 4] "b" "" 0 sl_abc_Rep). Defined.

End skiplist_props.

(** ** The subscription fabric (package sse) and the databases *)

Module sse.
Import skiplist.

(** [strings.Split(s, sep)] for a separator of one byte. *)
Fixpoint Split (s : string) (sep : Ascii.ascii) : list string :=
  match s with
  | "" => [""]
  | String ch s' =>
      if Ascii.eqb ch sep then "" :: Split s' sep
      else match Split s' sep with
           | p :: ps => String ch p :: ps
           | [] => [String ch ""]
           end
  end.

Fixpoint strip_prefix (s prefix : string) {struct prefix} : option string :=
  match prefix with
  | "" => Some s
  | String p prefix' =>
      match s with
      | String ch s' => if Ascii.eqb ch p then strip_prefix s' prefix' else None
      | "" => None
      end
  end.

(** [strings.TrimPrefix] *)
Definition TrimPrefix (s prefix : string) : string :=
  match strip_prefix s prefix with
  | Some rest => rest
  | None => s
  end.

(** [type Subscriber]: [event] is the buffer of the channel, oldest
    first; [ctx] plays no part in [Notify] and is left out. *)
Record Subscriber : Type := mkSubscriber {
  path : string;
  event : list string
}.

(** [make(chan string, 100)] *)
Definition event_capacity : nat := 100.

(** [type SubscriberHandler], with the objects it points to.  The values
    of [resourceToken] are interface values holding a pointer to an index
    of subscribers: an address in [indexes], or [None] for nil; the
    values of those indexes are [*Subscriber]: an address in
    [subscribers], or [None]. *)
Record SubscriberHandler : Type := mkSubscriberHandler {
  resourceToken : SkipList (option nat);
  indexes : list (SkipList (option nat));
  subscribers : list Subscriber
}.

(** [NewSubscriberHandler], called as the server does: with a new skip
    list for [resourceToken] and a [subscriptionFactory] that returns a
    new skip list at each call. *)
Definition NewSubscriberHandler : SubscriberHandler :=
  mkSubscriberHandler NewSkipList [] [].

(** [SubscribePath] *)
Definition SubscribePath (fuel : nat) (sh : SubscriberHandler) (resource : string)
    (c : coins) : outcome (SubscriberHandler * option error) :=
  let newSubscriber := Some (length (indexes sh)) in
  let indexes' := indexes sh ++ [NewSkipList] in
  '(rt, updated, err) ←
    Upsert None fuel (resourceToken sh) resource
      (fun key currValue exists_ =>
         if exists_ then inl currValue else inl newSubscriber) c;
  Done (mkSubscriberHandler rt indexes' (subscribers sh), err).

(** [addSubscription] *)
Definition addSubscription (fuel : nat) (sh : SubscriberHandler)
    (resource token : string) (c : coins)
  : outcome (SubscriberHandler * option error) :=
  '(pathSubscription, found) ← Find None (resourceToken sh) resource;
  if negb found
  then Done (sh, Some "the given resource path is not yet subscribed")
  else
    let subscription := Some (length (subscribers sh)) in
    let subscribers' := subscribers sh ++ [mkSubscriber resource []] in
    i ← deref pathSubscription;
    inner ← index (indexes sh) i;
    '(inner', updated, err) ←
      Upsert None fuel inner token
        (fun key currValue exists_ =>
           if exists_ then inr "the subscription already exists"
           else inl subscription) c;
    Done (mkSubscriberHandler (resourceToken sh) (<[i := inner']> (indexes sh))
                              subscribers', err).

(** [deleteSubscription] *)
Definition deleteSubscription (fuel : nat) (sh : SubscriberHandler)
    (resource token : string) : outcome (SubscriberHandler * option error) :=
  '(pathSubscription, found) ← Find None (resourceToken sh) resource;
  if negb found
  then Done (sh, Some "the given resource path is not yet subscribed")
  else
    i ← deref pathSubscription;
    inner ← index (indexes sh) i;
    '(inner', (_, removed)) ← Remove None fuel inner token;
    let sh' := mkSubscriberHandler (resourceToken sh) (<[i := inner']> (indexes sh))
                                   (subscribers sh) in
    if negb removed then Done (sh', Some "fail to remove the subscription")
    else Done (sh', None).

(** select { case subscription.event <- msg: ...; default: ... }:
    the send goes through when the buffer has room and is dropped
    otherwise. *)
Definition try_send (subs : list Subscriber) (subscription : option nat)
    (msg : string) : outcome (list Subscriber) :=
  a ← deref subscription;
  s ← index subs a;
  if Nat.ltb (length (event s)) event_capacity
  then Done (<[a := mkSubscriber (path s) (event s ++ [msg])]> subs)
  else Done subs.

(** for _, subscription := range subscriptons { ... } *)
Fixpoint send_all (subs : list Subscriber) (subscriptions : list (option nat))
    (msg : string) : outcome (list Subscriber) :=
  match subscriptions with
  | [] => Done subs
  | subscription :: rest =>
      subs' ← try_send subs subscription msg;
      send_all subs' rest msg
  end.

(** The subscribers registered under one path, as [Notify] collects
    them: none when [Find] does not find the path or [Query] fails. *)
Definition subscriptions_at (fuel : nat) (sh : SubscriberHandler)
    (pathToBuild : string) : outcome (list (option nat)) :=
  '(pathSubscription, found) ← Find None (resourceToken sh) pathToBuild;
  if negb found then Done []
  else
    i ← deref pathSubscription;
    inner ← index (indexes sh) i;
    '(subscriptions, err) ← Query fuel inner false "" "";
    match err with
    | Some _ => Done []
    | None => Done subscriptions
    end.

(** The double quote, as a string. *)
Definition quote : string := String (Ascii.ascii_of_nat 34) "".

(** fmt.Sprintf("%s;%s", event, data) *)
Definition event_data (event data : string) : string :=
  String.append event (String.append ";" data).

(** The loop of [Notify] over the parts that are left, [i] being the
    index of the first of them and [n] the number of all parts. *)
Fixpoint Notify_loop (fuel : nat) (sh : SubscriberHandler) (rest : list string)
    (i n : nat) (pathToBuild event data : string) : outcome SubscriberHandler :=
  match rest with
  | [] => Done sh
  | path :: rest' =>
      let pathToBuild := String.append pathToBuild (String.append "/" path) in
      let pathToBuild := TrimPrefix pathToBuild "/" in
      if Nat.even i || Nat.eqb i (n - 1) then
        subscriptions ← subscriptions_at fuel sh pathToBuild;
        subs' ← send_all (subscribers sh) subscriptions (event_data event data);
        Notify_loop fuel (mkSubscriberHandler (resourceToken sh) (indexes sh) subs')
                    rest' (S i) n pathToBuild event data
      else Notify_loop fuel sh rest' (S i) n pathToBuild event data
  end.

(** [Notify] *)
Definition Notify (fuel : nat) (sh : SubscriberHandler)
    (resource event data : string) : outcome SubscriberHandler :=
  let rawparts := Split resource "/"%char in
  Notify_loop fuel sh rawparts 0 (length rawparts) "" event data.

End sse.


(** ** The document store (package contents) *)

Module contents.
Import skiplist sse.

(** [type Metadata] *)
Record Metadata : Type := mkMetadata {
  CreatedBy : string;
  CreatedAt : Z;
  LastModifiedBy : string;
  LastModifiedAt : Z
}.

(** [type Document].  [Content] is the byte string of the body.
    [Collections] is an interface value holding a pointer to the index of
    the collections of the document: the address of that index, or
    [None] for nil.  [Subscribers] is a map from client ids to their
    streams; only the ids are kept. *)
Record Document : Type := mkDocument {
  Name : string;
  Path : string;
  Content : string;
  DocMetadata : Metadata;
  Collections : option nat;
  Subscribers : list string
}.

(** The zero value of [Document]. *)
Definition zeroDocument : Document :=
  mkDocument "" "" "" (mkMetadata "" 0 "" 0) None [].

(** [type ValidSchema interface]: [ValidateDocument] returns a flag and
    an error. *)
Definition ValidSchema : Type := string -> bool * option error.

(** [(d *Document) HandleUpdate]: changes the receiver; the frame it
    then writes to the streams of [d.Subscribers] is output only. *)
Definition HandleUpdate (d : Document) (newContent : string) (user : string)
    (now : Z) : Document :=
  mkDocument (Name d) (Path d) newContent
    (mkMetadata (CreatedBy (DocMetadata d)) (CreatedAt (DocMetadata d)) user now)
    (Collections d) (Subscribers d).

(** The [updateCheck] closure of [PutDocument].  [now1] and [now2] are
    the two readings of [time.Now().Unix()] that a call makes, [fresh]
    the address of the index that [NewSkipList] allocates for the
    collections of a new document. *)
Definition PutDocument_updateCheck (documentContent user mode : string)
    (schema : ValidSchema) (now1 now2 : Z) (fresh : nat) : UpdateCheck Document :=
  fun key currValue exists_ =>
    let newValue := mkDocument key "" documentContent (mkMetadata "" 0 "" 0) None [] in
    match snd (schema (Content newValue)) with
    | Some err => inr err
    | None =>
        if exists_ && String.eqb mode "nooverwrite"
        then inr "document exists and mode is nooverwrite"
        else if exists_ then
          let newValue :=
            mkDocument (Name newValue) (Path newValue) (Content newValue)
              (mkMetadata (CreatedBy (DocMetadata currValue))
                          (CreatedAt (DocMetadata currValue)) user now1)
              (Collections newValue) (Subscribers newValue) in
          (* currValue.HandleUpdate(documentContent, user): on the
             callback's own copy of the current value, which is dropped *)
          let _ := HandleUpdate currValue documentContent user now2 in
          inl newValue
        else
          inl (mkDocument (Name newValue) (Path newValue) (Content newValue)
                 (mkMetadata user now1 user now2) (Some fresh) (Subscribers newValue))
    end.

(** [PutDocument] *)
Definition PutDocument (fuel : nat) (documentList : SkipList Document)
    (documentName documentContent user mode : string) (schema : ValidSchema)
    (now1 now2 : Z) (fresh : nat) (c : coins)
  : outcome (SkipList Document * bool * option error) :=
  Upsert zeroDocument fuel documentList documentName
    (PutDocument_updateCheck documentContent user mode schema now1 now2 fresh) c.

(** [GetDocument] *)
Definition GetDocument (documentList : SkipList Document) (documentName : string)
  : outcome (Document * option error) :=
  '(document, found) ← Find zeroDocument documentList documentName;
  if negb found then Done (document, Some "failed to find document")
  else Done (document, None).

(** [type Collection].  [colDocuments] is the field [Documents]: a
    pointer to the index of the documents of the collection;
    [colSubscribers] is the field [Subscribers], of which only the
    client ids are kept.  (The fields are renamed because [Document]
    has fields of the same names.) *)
Record Collection : Type := mkCollection {
  colName : string;
  colDocuments : option nat;
  colSubscribers : list string
}.

Definition zeroCollection : Collection := mkCollection "" None [].

(** [GetCollection]; [ctx], [start] and [end] are not used. *)
Definition GetCollection (collectionList : SkipList Collection)
    (collectionName : string) : outcome (Collection * option error) :=
  '(collection, found) ← Find zeroCollection collectionList collectionName;
  if negb found then Done (collection, Some "failed to find database")
  else Done (collection, None).



Section Delete.
(** [strconv.Quote] *)
Context (Quote : string -> string).

(** [DeleteCollection].  [col.HandleColDelete()] writes to the streams
    of the collection's subscribers: output only. *)
Definition DeleteCollection (fuel : nat) (collectionList : SkipList Collection)
    (collectionName : string) (subscriberHandler : SubscriberHandler)
    (fullPath : string)
  : outcome (SubscriberHandler * (SkipList Collection * bool * option error)) :=
  '(col, found) ← Find zeroCollection collectionList collectionName;
  if negb found
  then Done (subscriberHandler,
             (collectionList, false,
              Some (String.append "could not find collection named " collectionName)))
  else
    sh' ← Notify fuel subscriberHandler fullPath "delete" (Quote fullPath);
    '(collectionList', (_, removed)) ← Remove zeroCollection fuel collectionList collectionName;
    if negb removed
    then Done (sh', (collectionList', false,
                     Some (String.append "could not delete document named " collectionName)))
    else Done (sh', (collectionList', true, None)).


End Delete.

End contents.


Module database.
Import skiplist sse.

(** [type Database]: [Documents] holds a pointer to the index of the
    top-level documents. *)
Record Database : Type := mkDatabase {
  Name : string;
  Documents : option nat
}.

Definition zeroDatabase : Database := mkDatabase "" None.

(** The [updateCheck] closure of [PutDatabase]; [fresh] is the address
    of the new index of documents. *)
Definition PutDatabase_updateCheck (fresh : nat) : UpdateCheck Database :=
  fun key currValue exists_ =>
    if exists_ then inr "database already exists"
    else inl (mkDatabase key (Some fresh)).

(** [PutDatabase]: the notification, then the upsert. *)
Definition PutDatabase (fuel : nat) (databaseList : SkipList Database)
    (databaseName : string) (subscriberHandler : SubscriberHandler)
    (fullPath : string) (fresh : nat) (c : coins)
  : outcome (SubscriberHandler * (SkipList Database * bool * option error)) :=
  sh' ← Notify fuel subscriberHandler fullPath "update"
         (String.concat "" ["{"; quote; "path"; quote; ":"; quote; fullPath; quote; "}"]);
  r ← Upsert zeroDatabase fuel databaseList databaseName
        (PutDatabase_updateCheck fresh) c;
  Done (sh', r).


End database.

(** ** Who [Notify] notifies *)

Module sse_spec.
Import skiplist skiplist_rep skiplist_run skiplist_abs skiplist_spec skiplist_found
       skiplist_map sse.

(** The segments of a resource path. *)
Definition segments (resource : string) : list string := Split resource "/"%char.

(** Leading empty segments do not show in the paths that [Notify]
    builds. *)
Fixpoint strip_empty (l : list string) : list string :=
  match l with
  | "" :: l' => strip_empty l'
  | _ => l
  end.

(** The path made of the segments [l]. *)
Definition joined (l : list string) : string := String.concat "/" (strip_empty l).

(** The paths under which [Notify] looks for subscribers: the one made
    of the first [i+1] segments, for every even [i] and for the last
    [i].  With a database at segment 0 these are the database, every
    collection on the way, and the resource itself. *)
Definition notified_prefixes (resource : string) : list string :=
  let parts := segments resource in
  let n := length parts in
  (fun i => joined (take (S i) parts))
    <$> filter (fun i => Nat.even i = true \/ i = n - 1) (seq 0 n).

(** Sending [msg] to the subscribers registered under each of the
    paths, one path after the other. *)
Fixpoint deliver (fuel : nat) (sh : SubscriberHandler) (paths : list string)
    (msg : string) : outcome SubscriberHandler :=
  match paths with
  | [] => Done sh
  | p :: paths' =>
      subscriptions ← subscriptions_at fuel sh p;
      subs' ← send_all (subscribers sh) subscriptions msg;
      deliver fuel (mkSubscriberHandler (resourceToken sh) (indexes sh) subs')
              paths' msg
  end.

Fixpoint has_char (ch : Ascii.ascii) (s : string) : bool :=
  match s with
  | "" => false
  | String x s' => Ascii.eqb x ch || has_char ch s'
  end.

Lemma Split_nonempty s sep : Split s sep <> [].
Proof.
  induction s as [|ch s IH]; simpl; [done|].
  destruct (Ascii.eqb ch sep); [done|]. by destruct (Split s sep).
Qed.

Lemma Split_no_sep s sep : Forall (fun p => has_char sep p = false) (Split s sep).
Proof.
  induction s as [|ch s IH]; simpl; [by repeat constructor|].
  destruct (Ascii.eqb ch sep) eqn:E; [by constructor|].
  destruct (Split s sep) as [|p ps]; [by repeat constructor; simpl; rewrite E|].
  apply Forall_cons in IH as [Hp Hps]. constructor; [|done].
  simpl. by rewrite E, Hp.
Qed.

Lemma append_cons ch (a b : string) :
  String.append (String ch a) b = String ch (String.append a b).
Proof. reflexivity. Qed.

Lemma append_nil_l (b : string) : String.append "" b = b.
Proof. reflexivity. Qed.

Lemma append_nil_r (s : string) : String.append s "" = s.
Proof. induction s as [|ch s IH]; [done|]. by rewrite append_cons, IH. Qed.

Lemma append_assoc (a b c : string) :
  String.append (String.append a b) c = String.append a (String.append b c).
Proof. induction a as [|ch a IH]; [done|]. by rewrite !append_cons, IH. Qed.

Lemma concat_snoc sep (l : list string) y : l <> [] ->
  String.concat sep (l ++ [y])
  = String.append (String.concat sep l) (String.append sep y).
Proof.
  induction l as [|x l IH]; [done|]. intros _.
  destruct l as [|x' l]; [done|].
  change (String.concat sep ((x :: x' :: l) ++ [y]))
    with (String.append x (String.append sep (String.concat sep ((x' :: l) ++ [y])))).
  rewrite IH by done.
  change (String.concat sep (x :: x' :: l))
    with (String.append x (String.append sep (String.concat sep (x' :: l)))).
  by rewrite !append_assoc.
Qed.

Lemma strip_empty_snoc l y :
  strip_empty (l ++ [y])
  = match strip_empty l with
    | [] => strip_empty [y]
    | _ => strip_empty l ++ [y]
    end.
Proof.
  induction l as [|x l IH]; [done|].
  destruct x as [|ch x]; [exact IH|done].
Qed.

Lemma strip_empty_hd l x l' : strip_empty l = x :: l' -> x <> "".
Proof.
  induction l as [|y l IH]; [done|].
  destruct y as [|ch y]; simpl; [done|]. by intros [= <- _].
Qed.

Lemma strip_empty_sub l : forall x, x ∈ strip_empty l -> x ∈ l.
Proof.
  induction l as [|y l IH]; [done|]. intros x.
  destruct y as [|ch y]; simpl; [right; by apply IH|done].
Qed.

Lemma TrimPrefix_slash (y : string) : TrimPrefix (String.append "/" y) "/" = y.
Proof. reflexivity. Qed.

Lemma TrimPrefix_other ch (s : string) :
  Ascii.eqb ch "/"%char = false -> TrimPrefix (String ch s) "/" = String ch s.
Proof. intros H. unfold TrimPrefix. simpl. by rewrite H. Qed.

Lemma concat_cons_hd sep ch (x : string) (l : list string) :
  exists s, String.concat sep (String ch x :: l) = String ch s.
Proof. destruct l; simpl; eauto. Qed.

(** What one round of [Notify] does to [pathToBuild]. *)
Lemma joined_snoc l y :
  Forall (fun p => has_char "/"%char p = false) l ->
  TrimPrefix (String.append (joined l) (String.append "/" y)) "/" = joined (l ++ [y]).
Proof.
  intros Hl. unfold joined. rewrite strip_empty_snoc.
  destruct (strip_empty l) as [|x l'] eqn:E.
  - change (String.concat "/" []) with "". rewrite append_nil_l, TrimPrefix_slash.
    destruct y; done.
  - rewrite concat_snoc by done.
    pose proof (strip_empty_hd _ _ _ E) as Hx.
    assert (x ∈ l) as Hin by (apply strip_empty_sub; rewrite E; left).
    eapply Forall_forall in Hl; [|exact Hin].
    destruct x as [|ch x]; [done|]. simpl in Hl. apply orb_false_iff in Hl as [Hch _].
    destruct (concat_cons_hd "/" ch x l') as [s ->]. rewrite append_cons.
    by apply TrimPrefix_other.
Qed.

Lemma take_S_app {A} (d : list A) x r : take (S (length d)) (d ++ x :: r) = d ++ [x].
Proof. induction d as [|y d IH]; simpl; [by rewrite take_0|by f_equal]. Qed.

Lemma Notify_loop_deliver fuel event data (parts : list string) :
  Forall (fun p => has_char "/"%char p = false) parts ->
  forall rest done_ sh, parts = done_ ++ rest ->
  Notify_loop fuel sh rest (length done_) (length parts) (joined done_) event data
  = deliver fuel sh
      ((fun i => joined (take (S i) parts))
         <$> filter (fun i => Nat.even i = true \/ i = length parts - 1)
                    (seq (length done_) (length rest)))
      (event_data event data).
Proof.
  intros Hparts. induction rest as [|x rest IH]; intros done_ sh E; [done|].
  cbn [Notify_loop length seq]. rewrite filter_cons.
  assert (take (S (length done_)) parts = done_ ++ [x]) as Et.
  { rewrite E. apply take_S_app. }
  assert (TrimPrefix (String.append (joined done_) (String.append "/" x)) "/"
          = joined (done_ ++ [x])) as ->.
  { apply joined_snoc. rewrite E in Hparts. by apply Forall_app in Hparts as [? _]. }
  assert (parts = (done_ ++ [x]) ++ rest) as E' by (by rewrite <- app_assoc).
  specialize (IH (done_ ++ [x])). rewrite length_app in IH. simpl in IH.
  rewrite Nat.add_1_r in IH.
  destruct (decide (Nat.even (length done_) = true \/ length done_ = length parts - 1))
    as [Hg|Hg].
  - assert (Nat.even (length done_) || Nat.eqb (length done_) (length parts - 1) = true) as ->.
    { apply orb_true_iff. destruct Hg as [?|?]; [by left|right; by apply Nat.eqb_eq]. }
    rewrite fmap_cons. cbn [deliver]. rewrite Et.
    destruct (subscriptions_at fuel sh _) as [subscriptions| |]; simpl; try done.
    destruct (send_all _ _ _) as [subs'| |]; simpl; try done.
    by apply IH.
  - assert (Nat.even (length done_) || Nat.eqb (length done_) (length parts - 1) = false) as ->.
    { apply orb_false_iff. split.
      - destruct (Nat.even (length done_)); [exfalso; apply Hg; by left|done].
      - apply Nat.eqb_neq. intros ?. apply Hg. by right. }
    by apply IH.
Qed.

(** [Notify] sends ["event;data"] to the
    subscribers registered under the notified paths, and to no others:
    the paths made of the first [i+1] segments of the changed path for
    every even [i] and for the last [i], in that order.  Subscribers
    registered under a prefix that ends at an odd segment other than the
    last (a document above the changed resource) are passed over. *)
Theorem Notify_delivers_to_notified_prefixes fuel sh resource event data :
  Notify fuel sh resource event data
  = deliver fuel sh (notified_prefixes resource) (event_data event data).
Proof.
  unfold Notify, notified_prefixes, segments.
  apply (Notify_loop_deliver fuel event data (Split resource "/"%char)
           (Split_no_sep resource "/"%char) (Split resource "/"%char) [] sh eq_refl).
Qed.

(** *** Paths and their segments *)

Lemma concat_cons2 sep (x y : string) (l : list string) :
  String.concat sep (x :: y :: l)
  = String.append x (String.append sep (String.concat sep (y :: l))).
Proof. reflexivity. Qed.

(** Joining the segments of a path gives the path back. *)
Lemma concat_Split (s : string) : String.concat "/" (Split s "/"%char) = s.
Proof.
  induction s as [|ch s IH]; [done|]. cbn [Split].
  destruct (Ascii.eqb_spec ch "/"%char) as [->|Hne].
  - pose proof (Split_nonempty s "/"%char) as Hn.
    destruct (Split s "/"%char) as [|p ps]; [done|].
    rewrite concat_cons2, IH. reflexivity.
  - destruct (Split s "/"%char) as [|p ps] eqn:E; [by destruct (Split_nonempty s "/"%char)|].
    destruct ps as [|q ps].
    + simpl in *. by rewrite IH.
    + rewrite concat_cons2, append_cons. rewrite concat_cons2 in IH. by rewrite IH.
Qed.

Lemma Split_hd ch (rest : string) sep : Ascii.eqb ch sep = false ->
  exists p ps, Split (String ch rest) sep = String ch p :: ps.
Proof.
  intros H. cbn [Split]. rewrite H. destruct (Split rest sep); eauto.
Qed.

Lemma joined_hd ch (p : string) (l : list string) :
  joined (String ch p :: l) = String.concat "/" (String ch p :: l).
Proof. reflexivity. Qed.

(** The paths notified for a path that does not begin with a slash are
    not empty, and the path itself is one of them. *)
Lemma notified_prefixes_proper ch (rest : string) :
  Ascii.eqb ch "/"%char = false ->
  Forall (fun p => p <> "") (notified_prefixes (String ch rest))
  /\ String ch rest ∈ notified_prefixes (String ch rest).
Proof.
  intros Hch. unfold notified_prefixes, segments.
  pose proof (concat_Split (String ch rest)) as Hjoin.
  destruct (Split_hd ch rest "/"%char Hch) as (p & ps & E).
  rewrite E in Hjoin |- *.
  split.
  - apply Forall_forall. intros x Hx. apply list_elem_of_fmap in Hx as (i & -> & _).
    cbn [take]. rewrite joined_hd.
    destruct (concat_cons_hd "/" ch p (take i ps)) as [s ->]. done.
  - apply list_elem_of_fmap. exists (length ps). split.
    + cbn [length]. replace (take (S (length ps)) (String ch p :: ps))
        with (String ch p :: ps) by (by rewrite take_ge by (simpl; lia)).
      by rewrite joined_hd, Hjoin.
    + apply list_elem_of_filter. split.
      * right. cbn [length]. lia.
      * apply elem_of_seq. cbn [length]. lia.
Qed.

(** *** What a notification does to the queues *)

(** [sent msg T subs subs']: the same subscribers, each with some
    copies of [msg] appended to its queue: none unless it is one of the
    targets [T], and none that would make the queue longer than its
    capacity. *)
Record sent (msg : string) (T : nat -> Prop) (subs subs' : list Subscriber) : Prop :=
  mkSent {
    sent_length : length subs' = length subs;
    sent_grow : forall b s, subs !! b = Some s ->
      exists s' k, subs' !! b = Some s' /\ path s' = path s
        /\ event s' = event s ++ replicate k msg
        /\ (~ T b -> k = 0)
        /\ (k <> 0 -> length (event s') <= event_capacity)
  }.

Lemma sent_refl msg T subs : sent msg T subs subs.
Proof.
  split; [done|]. intros b s Hs. exists s, 0. rewrite app_nil_r. by repeat split.
Qed.

Lemma sent_trans msg (T1 T2 T : nat -> Prop) subs1 subs2 subs3 :
  (forall b, T1 b -> T b) -> (forall b, T2 b -> T b) ->
  sent msg T1 subs1 subs2 -> sent msg T2 subs2 subs3 -> sent msg T subs1 subs3.
Proof.
  intros HT1 HT2 [Hl1 H1] [Hl2 H2]. split; [congruence|]. intros b s Hs.
  destruct (H1 b s Hs) as (s2 & k1 & Hs2 & Hp2 & He2 & Hn1 & Hb1).
  destruct (H2 b s2 Hs2) as (s3 & k2 & Hs3 & Hp3 & He3 & Hn2 & Hb2).
  exists s3, (k1 + k2). split; [done|]. split; [congruence|].
  split; [by rewrite He3, He2, replicate_add, app_assoc|]. split.
  - intros HnT. rewrite Hn1, Hn2; [done|intros ?; apply HnT..]; auto.
  - intros Hk. destruct k2 as [|k2].
    + rewrite app_nil_r in He3. rewrite He3. apply Hb1. lia.
    + by apply Hb2.
Qed.

(** The subscriptions are pointers to subscribers that exist. *)
Definition valid_targets (subs : list Subscriber) (targets : list (option nat)) : Prop :=
  Forall (fun t => exists a, t = Some a /\ a < length subs) targets.

Lemma try_send_spec subs a msg : a < length subs ->
  exists subs', try_send subs (Some a) msg = Done subs'
    /\ sent msg (fun b => b = a) subs subs'
    /\ forall s, subs !! a = Some s -> length (event s) < event_capacity ->
        exists s', subs' !! a = Some s' /\ event s' = event s ++ [msg].
Proof.
  intros Ha. destruct (lookup_lt_is_Some_2 _ _ Ha) as [s Hs].
  unfold try_send. simpl. rewrite (index_Some _ _ _ Hs), obind_Done.
  destruct (Nat.ltb_spec (length (event s)) event_capacity) as [Hroom|Hfull].
  - eexists. split; [done|]. split; [split|].
    + by rewrite length_insert.
    + intros b s0 Hb. destruct (decide (b = a)) as [->|Hne].
      * rewrite list_lookup_insert_eq by done. assert (s0 = s) as -> by congruence.
        eexists _, 1. split; [done|]. split; [done|]. split; [done|].
        split; [done|]. intros _. simpl. rewrite length_app. simpl. lia.
      * rewrite list_lookup_insert_ne by done. exists s0, 0. rewrite app_nil_r.
        by repeat split.
    + intros s0 Hs0 _. assert (s0 = s) as -> by congruence.
      rewrite list_lookup_insert_eq by done. eauto.
  - exists subs. split; [done|]. split; [apply sent_refl|].
    intros s0 Hs0 Hr. assert (s0 = s) as -> by congruence. lia.
Qed.

(** A subscriber whose queue had room and that gets at least the
    copies [k1] has got [msg], whatever is sent later. *)
Lemma got_after msg (T : nat -> Prop) subs1 subs2 a s s1 k1 :
  sent msg T subs1 subs2 -> subs1 !! a = Some s1 ->
  event s1 = event s ++ replicate (S k1) msg ->
  exists s2 k, subs2 !! a = Some s2 /\ event s2 = event s ++ replicate (S k) msg.
Proof.
  intros [_ H] Hs1 He1. destruct (H a s1 Hs1) as (s2 & k2 & Hs2 & _ & He2 & _).
  exists s2, (k1 + k2). split; [done|]. rewrite He2, He1, <- app_assoc. f_equal.
  change (S (k1 + k2)) with (S k1 + k2). by rewrite replicate_add.
Qed.

Lemma send_all_spec msg targets : forall subs,
  valid_targets subs targets ->
  exists subs', send_all subs targets msg = Done subs'
    /\ sent msg (fun b => Some b ∈ targets) subs subs'
    /\ forall a s, Some a ∈ targets -> subs !! a = Some s ->
        length (event s) < event_capacity ->
        exists s' k, subs' !! a = Some s' /\ event s' = event s ++ replicate (S k) msg.
Proof.
  induction targets as [|t targets IH]; intros subs Hv.
  - exists subs. split; [done|]. split; [apply sent_refl|].
    intros a s Hin. by apply elem_of_nil in Hin.
  - apply Forall_cons in Hv as [(a0 & -> & Ha0) Hv].
    destruct (try_send_spec subs a0 msg Ha0) as (subs1 & Hrun1 & Hg1 & Hr1).
    cbn [send_all]. rewrite Hrun1, obind_Done.
    assert (valid_targets subs1 targets) as Hv1.
    { eapply Forall_impl; [exact Hv|]. intros t (a & -> & Ha). exists a.
      by rewrite (sent_length _ _ _ _ Hg1). }
    destruct (IH subs1 Hv1) as (subs' & Hrun & Hg & Hr).
    exists subs'. split; [done|]. split.
    { eapply sent_trans; [| |exact Hg1|exact Hg].
      - intros b ->. by left.
      - intros b Hb. by right. }
    intros a s Hin Hs Hroom.
    destruct (sent_grow _ _ _ _ Hg1 a s Hs) as (s1 & k1 & Hs1 & Hp1 & He1 & _).
    apply elem_of_cons in Hin as [[= ->]|Hin].
    + destruct (Hr1 s Hs Hroom) as (s1' & Hs1' & He1').
      assert (s1' = s1) as -> by congruence.
      by apply (got_after msg _ subs1 subs' a0 s s1 0 Hg Hs1).
    + destruct k1 as [|k1]; [|by apply (got_after msg _ subs1 subs' a s s1 k1 Hg Hs1)].
      rewrite app_nil_r in He1.
      destruct (Hr a s1 Hin Hs1 ltac:(by rewrite He1)) as (s' & k & Hs' & He').
      exists s', k. split; [done|]. by rewrite He', He1.
Qed.

(** *** Well-formed fabrics *)

(** A value of the index of resources points to an index of
    subscriptions that satisfies the invariant and whose values point
    to subscribers that exist. *)
Definition wf_entry (sh : SubscriberHandler) (v : option nat) : Prop :=
  exists i inner (m : gmap string (option nat)),
    v = Some i /\ indexes sh !! i = Some inner /\ Abs None inner m
    /\ forall t w, m !! t = Some w -> exists a, w = Some a /\ a < length (subscribers sh).

(** [wf_fabric sh M]: the index of resources satisfies the invariant,
    holds the map [M], and all its values are well formed. *)
Definition wf_fabric (sh : SubscriberHandler) (M : gmap string (option nat)) : Prop :=
  Abs None (resourceToken sh) M /\ forall p v, M !! p = Some v -> wf_entry sh v.

(** [registered sh M resource token a]: the subscription [a] is
    registered under [resource] with [token]. *)
Definition registered (sh : SubscriberHandler) (M : gmap string (option nat))
    (resource token : string) (a : nat) : Prop :=
  exists i inner (m : gmap string (option nat)),
    M !! resource = Some (Some i) /\ indexes sh !! i = Some inner
    /\ Abs None inner m /\ m !! token = Some (Some a).

Lemma subscriptions_at_none fuel sh M p :
  Abs None (resourceToken sh) M -> p <> "" -> M !! p = None ->
  subscriptions_at fuel sh p = Done [].
Proof.
  intros HA Hp E. unfold subscriptions_at.
  rewrite (Find_Abs None _ M p HA Hp). unfold result_of. by rewrite E.
Qed.

Lemma subscriptions_at_found fuel sh M p i inner m :
  Abs None (resourceToken sh) M -> p <> "" -> M !! p = Some (Some i) ->
  indexes sh !! i = Some inner -> Abs None inner m ->
  exists targets, subscriptions_at (S fuel) sh p = Done targets
    /\ forall v, v ∈ targets <-> exists t, m !! t = Some v.
Proof.
  intros HA Hp E Hi Hin. unfold subscriptions_at.
  rewrite (Find_Abs None _ M p HA Hp). unfold result_of. rewrite E, obind_Done.
  cbn [negb deref]. rewrite obind_Done, (index_Some _ _ _ Hi), obind_Done.
  destruct (Query_all_Abs None inner m fuel Hin) as (l & -> & Hl).
  rewrite obind_Done. eauto.
Qed.

Lemma subscriptions_at_total fuel sh M p : wf_fabric sh M -> p <> "" ->
  exists targets, subscriptions_at (S fuel) sh p = Done targets
    /\ valid_targets (subscribers sh) targets.
Proof.
  intros [HA Hwf] Hp. destruct (M !! p) as [v|] eqn:E.
  - destruct (Hwf p v E) as (i & inner & m & -> & Hi & Hin & Hv).
    destruct (subscriptions_at_found fuel sh M p i inner m HA Hp E Hi Hin)
      as (targets & Hrun & Ht).
    exists targets. split; [done|]. apply Forall_forall. intros w Hw.
    apply Ht in Hw as (t & Hw). eauto.
  - rewrite (subscriptions_at_none (S fuel) sh M p HA Hp E). exists [].
    split; [done|constructor].
Qed.

Lemma wf_fabric_sent msg T sh M subs' : wf_fabric sh M ->
  sent msg T (subscribers sh) subs' ->
  wf_fabric (mkSubscriberHandler (resourceToken sh) (indexes sh) subs') M.
Proof.
  intros [HA Hwf] [Hl _]. split; [done|].
  intros p v E. destruct (Hwf p v E) as (i & inner & m & -> & Hi & Hin & Hv).
  exists i, inner, m. split; [done|]. split; [done|]. split; [done|].
  intros t w Hw. destruct (Hv t w Hw) as (a & -> & Ha). exists a. simpl.
  by rewrite Hl.
Qed.

(** The targets of a delivery to [paths]: the subscriptions registered
    under one of them. *)
Definition targets_of (fuel : nat) (sh : SubscriberHandler) (paths : list string)
    (b : nat) : Prop :=
  exists p targets, p ∈ paths /\ subscriptions_at fuel sh p = Done targets
                    /\ Some b ∈ targets.

(** On a well-formed fabric, the delivery to paths that are not empty
    returns; nothing but the queues changes; only the queues of the
    targets change; and a target whose queue had room has got [msg]. *)
Lemma deliver_spec fuel msg M : forall paths sh,
  wf_fabric sh M -> Forall (fun p => p <> "") paths ->
  exists sh', deliver (S fuel) sh paths msg = Done sh'
    /\ resourceToken sh' = resourceToken sh /\ indexes sh' = indexes sh
    /\ sent msg (targets_of (S fuel) sh paths) (subscribers sh) (subscribers sh')
    /\ forall a s, targets_of (S fuel) sh paths a ->
         subscribers sh !! a = Some s -> length (event s) < event_capacity ->
         exists s' k, subscribers sh' !! a = Some s'
                      /\ event s' = event s ++ replicate (S k) msg.
Proof.
  induction paths as [|p0 paths IH]; intros sh Hwf Hne.
  - exists sh. split; [done|]. split; [done|]. split; [done|].
    split; [apply sent_refl|]. intros a s (p & targets & Hin & _). by apply elem_of_nil in Hin.
  - apply Forall_cons in Hne as [Hp0 Hne].
    destruct (subscriptions_at_total fuel sh M p0 Hwf Hp0) as (targets0 & Hat & Hv0).
    destruct (send_all_spec msg targets0 _ Hv0) as (subs1 & Hsend & Hg1 & Hr1).
    cbn [deliver]. rewrite Hat, obind_Done, Hsend, obind_Done.
    set (sh1 := mkSubscriberHandler (resourceToken sh) (indexes sh) subs1).
    destruct (IH sh1 (wf_fabric_sent msg _ sh M subs1 Hwf Hg1) Hne)
      as (sh' & Hrun & Hrt & Hidx & Hg & Hr).
    exists sh'. split; [done|]. split; [done|]. split; [done|].
    assert (forall b, targets_of (S fuel) sh1 paths b
                      -> targets_of (S fuel) sh (p0 :: paths) b) as Hsub.
    { intros b (p & targets & Hin & Hat' & Hb). exists p, targets.
      split; [by right|]. done. }
    split.
    { eapply sent_trans; [| |exact Hg1|exact Hg]; [|done].
      intros b Hb. exists p0, targets0. split; [by left|]. done. }
    intros a s (p & targets & Hin & Hat' & Ha) Hs Hroom.
    destruct (sent_grow _ _ _ _ Hg1 a s Hs) as (s1 & k1 & Hs1 & Hp1 & He1 & _).
    destruct k1 as [|k1]; [|by apply (got_after msg _ subs1 (subscribers sh') a s s1 k1 Hg Hs1)].
    rewrite app_nil_r in He1.
    apply elem_of_cons in Hin as [->|Hin].
    + assert (targets = targets0) as -> by congruence.
      destruct (Hr1 a s Ha Hs Hroom) as (s1' & k & Hs1' & He1').
      assert (s1' = s1) as -> by congruence.
      by apply (got_after msg _ subs1 (subscribers sh') a s s1 k Hg Hs1).
    + assert (targets_of (S fuel) sh1 paths a) as Ht by (by exists p, targets).
      destruct (Hr a s1 Ht Hs1 ltac:(by rewrite He1)) as (s' & k & Hs' & He').
      exists s', k. split; [done|]. by rewrite He', He1.
Qed.

(** Under a well-formed fabric, the targets are the subscriptions
    registered under one of the paths. *)
Lemma targets_of_registered fuel sh M paths b :
  wf_fabric sh M -> Forall (fun p => p <> "") paths ->
  targets_of (S fuel) sh paths b
  <-> exists p token, p ∈ paths /\ registered sh M p token b.
Proof.
  intros [HA Hwf] Hne. rewrite Forall_forall in Hne. split.
  - intros (p & targets & Hin & Hat & Hb). exists p.
    destruct (M !! p) as [v|] eqn:E.
    + destruct (Hwf p v E) as (i & inner & m & -> & Hi & Hinner & Hv).
      destruct (subscriptions_at_found fuel sh M p i inner m HA (Hne p Hin) E Hi Hinner)
        as (targets' & Hat' & Ht).
      assert (targets' = targets) as -> by congruence.
      apply Ht in Hb as (token & Hb). exists token. split; [done|].
      by exists i, inner, m.
    + rewrite (subscriptions_at_none (S fuel) sh M p HA (Hne p Hin) E) in Hat.
      injection Hat as <-. by apply elem_of_nil in Hb.
  - intros (p & token & Hin & i & inner & m & E & Hi & Hinner & Hb).
    destruct (subscriptions_at_found fuel sh M p i inner m HA (Hne p Hin) E Hi Hinner)
      as (targets & Hat & Ht).
    exists p, targets. split; [done|]. split; [done|]. apply Ht. eauto.
Qed.

Lemma sent_ext msg (T T' : nat -> Prop) subs subs' :
  (forall b, T b -> T' b) -> sent msg T subs subs' -> sent msg T' subs subs'.
Proof.
  intros HT H. eapply (sent_trans msg T T T'); [done|done|exact H|apply sent_refl].
Qed.

(** The effect of [Notify] on a well-formed fabric. *)
Lemma Notify_wf fuel sh M ch rest ev data :
  wf_fabric sh M -> Ascii.eqb ch "/"%char = false ->
  exists sh', Notify (S fuel) sh (String ch rest) ev data = Done sh'
    /\ resourceToken sh' = resourceToken sh /\ indexes sh' = indexes sh
    /\ wf_fabric sh' M
    /\ sent (event_data ev data)
            (fun b => exists p token, p ∈ notified_prefixes (String ch rest)
                                      /\ registered sh M p token b)
            (subscribers sh) (subscribers sh')
    /\ forall p token a s,
         p ∈ notified_prefixes (String ch rest) -> registered sh M p token a ->
         subscribers sh !! a = Some s -> length (event s) < event_capacity ->
         exists s' k, subscribers sh' !! a = Some s'
                      /\ event s' = event s ++ replicate (S k) (event_data ev data).
Proof.
  intros Hwf Hch.
  destruct (notified_prefixes_proper ch rest Hch) as [Hne _].
  pose proof (Notify_loop_deliver (S fuel) ev data (Split (String ch rest) "/"%char)
                (Split_no_sep _ _) (Split (String ch rest) "/"%char) [] sh eq_refl) as HN.
  change (Notify (S fuel) sh (String ch rest) ev data
          = deliver (S fuel) sh (notified_prefixes (String ch rest)) (event_data ev data))
    in HN.
  rewrite HN. clear HN.
  destruct (deliver_spec fuel (event_data ev data) M (notified_prefixes (String ch rest))
              sh Hwf Hne) as (sh' & Hrun & Hrt & Hidx & Hsent & Hgot).
  exists sh'. split; [exact Hrun|]. split; [done|]. split; [done|].
  split; [|split].
  - destruct sh' as [rt' idx' subs']. simpl in *. subst rt' idx'.
    by apply (wf_fabric_sent _ _ sh M subs' Hwf Hsent).
  - eapply sent_ext; [|exact Hsent]. intros b Hb.
    by apply (targets_of_registered fuel sh M _ b Hwf Hne).
  - intros p token a s Hin Hreg. apply Hgot.
    apply (targets_of_registered fuel sh M _ a Hwf Hne). eauto.
Qed.

(** X8.  What [Notify] does on a well-formed fabric, for a path that does not
    begin with a slash: it returns; the indexes of the fabric are as
    before; the queues grow by copies of ["event;data"] only, those of
    the subscriptions registered under a notified path only, and never
    beyond their capacity; and every subscription registered under a
    notified path whose queue had room has got the message. *)
Theorem Notify_on_well_formed_fabric fuel sh M ch rest ev data :
  wf_fabric sh M -> Ascii.eqb ch "/"%char = false ->
  exists sh', Notify (S fuel) sh (String ch rest) ev data = Done sh'
    /\ resourceToken sh' = resourceToken sh /\ indexes sh' = indexes sh
    /\ wf_fabric sh' M
    /\ sent (event_data ev data)
            (fun b => exists p token, p ∈ notified_prefixes (String ch rest)
                                      /\ registered sh M p token b)
            (subscribers sh) (subscribers sh')
    /\ forall p token a s,
         p ∈ notified_prefixes (String ch rest) -> registered sh M p token a ->
         subscribers sh !! a = Some s -> length (event s) < event_capacity ->
         exists s' k, subscribers sh' !! a = Some s'
                      /\ event s' = event s ++ replicate (S k) (event_data ev data).
Proof. apply Notify_wf. Qed.

(** X9.  A path that is empty or begins with a slash: the first path that
    [Notify] builds is the empty one, and the look-up of the empty key
    panics (while no node of the index of resources has the highest
    level). *)
Theorem Notify_leading_slash_panics fuel sh L resource event data :
  Rep (resourceToken sh) L ->
  Forall (fun a => lvlOf (resourceToken sh) a < MAX_LEVEL - 1) L ->
  resource = "" \/ (exists rest, resource = String "/"%char rest) ->
  Notify fuel sh resource event data = Panic.
Proof.
  intros HR Hlow Hres.
  destruct (empty_key_found (resourceToken sh) L HR Hlow) as [Hf Hs].
  pose proof (Find_tail None _ L "" _ HR Hf Hs) as HF.
  assert (exists ps, Split resource "/"%char = "" :: ps) as [ps E].
  { destruct Hres as [->|[rest ->]]; simpl; eauto. }
  unfold Notify. rewrite E. cbn [Notify_loop length Nat.even orb].
  rewrite append_nil_l. change (String.append "/" "") with "/".
  change (TrimPrefix "/" "/") with "". unfold subscriptions_at. by rewrite HF.
Qed.

(** *** Subscribing *)

Lemma wf_entry_mono sh sh' v : wf_entry sh v ->
  (forall i inner, indexes sh !! i = Some inner -> indexes sh' !! i = Some inner) ->
  length (subscribers sh) <= length (subscribers sh') ->
  wf_entry sh' v.
Proof.
  intros (i & inner & m & -> & Hi & Hin & Hv) Hidx Hlen.
  exists i, inner, m. split; [done|]. split; [by apply Hidx|]. split; [done|].
  intros t w Hw. destruct (Hv t w Hw) as (a & -> & Ha). exists a. split; [done|]. lia.
Qed.

(** [SubscribePath] returns no error.  A path that was registered keeps
    its index of subscriptions; a new path gets an empty one. *)
Lemma SubscribePath_spec fuel sh M resource c :
  wf_fabric sh M -> resource <> "" ->
  is_Some (M !! resource) \/ randomLevel c < MAX_LEVEL ->
  exists sh1 i, SubscribePath (S fuel) sh resource c = Done (sh1, None)
    /\ wf_fabric sh1 (<[resource := Some i]> M)
    /\ subscribers sh1 = subscribers sh
    /\ indexes sh1 = indexes sh ++ [NewSkipList]
    /\ match M !! resource with
       | Some v => v = Some i
       | None => i = length (indexes sh)
       end.
Proof.
  intros [HA Hwf] Hr Hok. unfold SubscribePath.
  set (check := fun (key : string) (currValue : option nat) (exists_ : bool) =>
                  if exists_ then inl currValue
                  else @inl (option nat) error (Some (length (indexes sh)))).
  assert (exists rt i, Upsert None (S fuel) (resourceToken sh) resource check c
                       = Done (rt, true, None)
            /\ Abs None rt (<[resource := Some i]> M)
            /\ match M !! resource with
               | Some v => v = Some i
               | None => i = length (indexes sh)
               end) as (rt & i & Hrun & HA' & Hi).
  { destruct (M !! resource) as [v|] eqn:E.
    - destruct (Hwf resource v E) as (i & inner & m & -> & _).
      destruct (Upsert_Abs_present None _ M resource check c fuel (Some i) (Some i)
                  HA Hr E eq_refl) as (rt & Hrun & HA' & _).
      by exists rt, i.
    - destruct Hok as [[? ?]|Ht]; [done|].
      destruct (Upsert_Abs_absent None _ M resource check c fuel (Some (length (indexes sh)))
                  HA Hr E Ht eq_refl) as (rt & Hrun & HA' & _).
      by exists rt, (length (indexes sh)). }
  rewrite Hrun, obind_Done. eexists _, i. split; [done|].
  split; [|split; [done|split; [done|exact Hi]]].
  split; [done|]. intros p v Hp. apply lookup_insert_Some in Hp as [[<- <-]|[Hne Hp]].
  - destruct (M !! resource) as [v|] eqn:E.
    + subst v. apply (wf_entry_mono sh); [by apply (Hwf resource)| |done].
      intros j inner Hj. simpl. by apply lookup_app_l_Some.
    + subst i. exists (length (indexes sh)), NewSkipList, ∅.
      split; [done|]. split; [simpl; by rewrite list_lookup_middle|].
      split; [apply NewSkipList_Abs|]. intros t w Hw. by rewrite lookup_empty in Hw.
  - apply (wf_entry_mono sh); [by apply (Hwf p)| |done].
    intros j inner Hj. simpl. by apply lookup_app_l_Some.
Qed.

(** [addSubscription] for a token that is new under a registered path:
    a subscriber with an empty queue is made and registered. *)
Lemma addSubscription_spec fuel sh M resource token c i inner m :
  wf_fabric sh M -> resource <> "" -> token <> "" ->
  M !! resource = Some (Some i) -> indexes sh !! i = Some inner ->
  Abs None inner m -> m !! token = None -> randomLevel c < MAX_LEVEL ->
  exists sh2, addSubscription (S fuel) sh resource token c = Done (sh2, None)
    /\ wf_fabric sh2 M
    /\ subscribers sh2 = subscribers sh ++ [mkSubscriber resource []]
    /\ registered sh2 M resource token (length (subscribers sh))
    /\ (forall r t a, registered sh M r t a -> registered sh2 M r t a)
    /\ (forall r t a, registered sh2 M r t a ->
          registered sh M r t a
          \/ (M !! r = Some (Some i) /\ t = token /\ a = length (subscribers sh))).
Proof.
  intros [HA Hwf] Hr Ht E Hi Hin Hm Hlvl. unfold addSubscription. cbv zeta.
  rewrite (Find_Abs None _ M resource HA Hr). unfold result_of. rewrite E, obind_Done.
  cbn [negb deref]. rewrite obind_Done, (index_Some _ _ _ Hi), obind_Done.
  set (check := fun (key : string) (currValue : option nat) (exists_ : bool) =>
                  if exists_ then @inr (option nat) error "the subscription already exists"
                  else inl (Some (length (subscribers sh)))).
  destruct (Upsert_Abs_absent None inner m token check c fuel (Some (length (subscribers sh)))
              Hin Ht Hm Hlvl eq_refl) as (inner' & Hrun & Hin' & _).
  match goal with
  | |- context [Upsert None (S fuel) inner token ?f c] => change f with check
  end.
  rewrite Hrun, obind_Done. eexists. split; [done|].
  pose proof (lookup_lt_Some _ _ _ Hi) as Hlt.
  assert (forall j innerj mj, indexes sh !! j = Some innerj -> Abs None innerj mj ->
            exists innerj' mj', <[i := inner']> (indexes sh) !! j = Some innerj'
              /\ Abs None innerj' mj'
              /\ (forall t w, mj !! t = Some w -> mj' !! t = Some w)
              /\ (forall t w, mj' !! t = Some w -> mj !! t = Some w
                    \/ (j = i /\ t = token /\ w = Some (length (subscribers sh))))) as Hstep.
  { intros j innerj mj Hj Hmj. destruct (decide (j = i)) as [->|Hne].
    - assert (innerj = inner) as -> by congruence.
      assert (mj = m) as -> by (by apply (Abs_unique None inner)).
      exists inner', (<[token := Some (length (subscribers sh))]> m).
      split; [by rewrite list_lookup_insert_eq|]. split; [done|]. split.
      + intros t w Hw. rewrite lookup_insert_ne; [done|]. intros <-. congruence.
      + intros t w Hw. apply lookup_insert_Some in Hw as [[<- <-]|[_ Hw]]; auto.
    - exists innerj, mj. split; [by rewrite list_lookup_insert_ne|]. auto. }
  split; [|split; [done|split; [|split]]].
  - split; [done|]. intros p v Hp.
    destruct (Hwf p v Hp) as (j & innerj & mj & -> & Hj & Hmj & Hv).
    destruct (Hstep j innerj mj Hj Hmj) as (innerj' & mj' & Hj' & Hmj' & _ & Hback).
    exists j, innerj', mj'. split; [done|]. split; [done|]. split; [done|].
    intros t w Hw. simpl. rewrite length_app. simpl.
    destruct (Hback t w Hw) as [Hold|(_ & _ & ->)].
    + destruct (Hv t w Hold) as (a & -> & Ha). exists a. split; [done|]. lia.
    + eexists. split; [done|]. lia.
  - exists i, inner', (<[token := Some (length (subscribers sh))]> m).
    split; [done|]. split; [simpl; by rewrite list_lookup_insert_eq|].
    split; [done|]. by rewrite lookup_insert_eq.
  - intros r t a (j & innerj & mj & Er & Hj & Hmj & Ha).
    destruct (Hstep j innerj mj Hj Hmj) as (innerj' & mj' & Hj' & Hmj' & Hfwd & _).
    exists j, innerj', mj'. split; [done|]. split; [done|]. split; [done|]. by apply Hfwd.
  - intros r t a (j & innerj2 & mj2 & Er & Hj2 & Hmj2 & Ha).
    destruct (Hwf r _ Er) as (j' & innerj & mj & [= <-] & Hj & Hmj & _).
    destruct (Hstep j innerj mj Hj Hmj) as (innerj' & mj' & Hj' & Hmj' & _ & Hback).
    simpl in Hj2. assert (innerj' = innerj2) as -> by congruence.
    assert (mj' = mj2) as -> by (by apply (Abs_unique None innerj2)).
    destruct (Hback t _ Ha) as [Hold|(-> & -> & [= ->])].
    + left. by exists j, innerj, mj.
    + by right.
Qed.

(** *** How many copies a notification leaves *)

(** One send to a subscriber: the message is queued when there is room
    and dropped otherwise. *)
Definition push (msg : string) (s : Subscriber) : Subscriber :=
  if Nat.ltb (length (event s)) event_capacity
  then mkSubscriber (path s) (event s ++ [msg])
  else s.

(** The number of times a subscription is in a list of targets. *)
Definition occurrences (b : nat) (targets : list (option nat)) : nat :=
  length (filter (fun t => t = Some b) targets).

Lemma try_send_exact subs a s msg : subs !! a = Some s ->
  try_send subs (Some a) msg = Done (<[a := push msg s]> subs).
Proof.
  intros Hs. unfold try_send, push. simpl. rewrite (index_Some _ _ _ Hs), obind_Done.
  destruct (Nat.ltb _ _); [done|]. by rewrite list_insert_id.
Qed.

Lemma send_all_exact msg targets : forall subs,
  valid_targets subs targets ->
  exists subs', send_all subs targets msg = Done subs'
    /\ length subs' = length subs
    /\ forall b s, subs !! b = Some s ->
         subs' !! b = Some (Nat.iter (occurrences b targets) (push msg) s).
Proof.
  induction targets as [|t targets IH]; intros subs Hv.
  - exists subs. by repeat split.
  - apply Forall_cons in Hv as [(a & -> & Ha) Hv].
    destruct (lookup_lt_is_Some_2 _ _ Ha) as [sa Hsa].
    cbn [send_all]. rewrite (try_send_exact subs a sa msg Hsa), obind_Done.
    assert (valid_targets (<[a := push msg sa]> subs) targets) as Hv1.
    { eapply Forall_impl; [exact Hv|]. intros t (a' & -> & Ha'). exists a'.
      by rewrite length_insert. }
    destruct (IH _ Hv1) as (subs' & Hrun & Hlen & Hex).
    exists subs'. split; [done|]. split; [by rewrite Hlen, length_insert|].
    intros b s Hs. unfold occurrences. rewrite filter_cons.
    destruct (decide (Some a = Some b)) as [[= ->]|Hne].
    + assert (s = sa) as -> by congruence.
      rewrite (Hex b (push msg sa)) by (by rewrite list_lookup_insert_eq).
      cbn [length]. by rewrite Nat.iter_swap.
    + rewrite (Hex b s); [done|]. rewrite list_lookup_insert_ne; [done|congruence].
Qed.

(** The targets found under a path, and the number of times a
    subscription is among the targets of the paths of a list. *)
Definition targets_at (fuel : nat) (sh : SubscriberHandler) (p : string)
  : list (option nat) :=
  match subscriptions_at fuel sh p with
  | Done targets => targets
  | _ => []
  end.

Definition copies (fuel : nat) (sh : SubscriberHandler) (paths : list string)
    (b : nat) : nat :=
  sum_list ((fun p => occurrences b (targets_at fuel sh p)) <$> paths).

Lemma wf_fabric_length sh M subs' : wf_fabric sh M ->
  length subs' = length (subscribers sh) ->
  wf_fabric (mkSubscriberHandler (resourceToken sh) (indexes sh) subs') M.
Proof.
  intros [HA Hwf] Hl. split; [done|].
  intros p v E. destruct (Hwf p v E) as (i & inner & m & -> & Hi & Hin & Hv).
  exists i, inner, m. split; [done|]. split; [done|]. split; [done|].
  intros t w Hw. destruct (Hv t w Hw) as (a & -> & Ha). exists a. simpl.
  by rewrite Hl.
Qed.

(** The delivery sends to each subscription as many times as it is
    among the targets. *)
Lemma deliver_exact fuel msg M : forall paths sh,
  wf_fabric sh M -> Forall (fun p => p <> "") paths ->
  exists sh', deliver (S fuel) sh paths msg = Done sh'
    /\ forall b s, subscribers sh !! b = Some s ->
         subscribers sh' !! b
         = Some (Nat.iter (copies (S fuel) sh paths b) (push msg) s).
Proof.
  induction paths as [|p0 paths IH]; intros sh Hwf Hne.
  - exists sh. by split.
  - apply Forall_cons in Hne as [Hp0 Hne].
    destruct (subscriptions_at_total fuel sh M p0 Hwf Hp0) as (targets0 & Hat & Hv0).
    destruct (send_all_exact msg targets0 _ Hv0) as (subs1 & Hsend & Hl1 & Hex1).
    cbn [deliver]. rewrite Hat, obind_Done, Hsend, obind_Done.
    set (sh1 := mkSubscriberHandler (resourceToken sh) (indexes sh) subs1).
    destruct (IH sh1 (wf_fabric_length sh M subs1 Hwf Hl1) Hne) as (sh' & Hrun & Hex).
    exists sh'. split; [done|]. intros b s Hs.
    rewrite (Hex b _ (Hex1 b s Hs)). f_equal.
    assert (copies (S fuel) sh (p0 :: paths) b
            = copies (S fuel) sh1 paths b + occurrences b targets0) as ->.
    { unfold copies. rewrite fmap_cons. cbn [sum_list].
      unfold targets_at at 1. rewrite Hat. apply Nat.add_comm. }
    by rewrite Nat.iter_add.
Qed.

Lemma sum_list_zero {A} (f : A -> nat) (l : list A) :
  (forall y, y ∈ l -> f y = 0) -> sum_list (f <$> l) = 0.
Proof.
  induction l as [|y l IH]; intros H0; [done|].
  rewrite fmap_cons. simpl. rewrite (H0 y) by (by left). rewrite IH; [done|].
  intros z Hz. apply H0. by right.
Qed.

Lemma sum_list_single {A} (f : A -> nat) (x : A) (l : list A) :
  NoDup l -> x ∈ l -> (forall y, y ∈ l -> y <> x -> f y = 0) ->
  sum_list (f <$> l) = f x.
Proof.
  induction l as [|y l IH]; intros Hnd Hin H0; [by apply elem_of_nil in Hin|].
  apply NoDup_cons in Hnd as [Hy Hnd]. rewrite fmap_cons. simpl.
  apply elem_of_cons in Hin as [->|Hin].
  - rewrite sum_list_zero; [lia|]. intros z Hz. apply H0; [by right|].
    intros ->. done.
  - rewrite (H0 y); [| by left | intros ->; done]. rewrite IH; [done|done|done|].
    intros w Hw. apply H0. by right.
Qed.

(** The paths notified for a proper path are all different: each is
    longer than the one before. *)
Lemma length_append (a b : string) :
  String.length (String.append a b) = String.length a + String.length b.
Proof. induction a as [|ch a IH]; [done|]. rewrite append_cons. simpl. by rewrite IH. Qed.

Lemma prefix_length_lt (parts : list string) : forall i j, i < j -> j < length parts ->
  String.length (String.concat "/" (take (S i) parts))
  < String.length (String.concat "/" (take (S j) parts)).
Proof.
  assert (forall i, S i < length parts ->
            String.length (String.concat "/" (take (S i) parts))
            < String.length (String.concat "/" (take (S (S i)) parts))) as Hstep.
  { intros i Hi. destruct (lookup_lt_is_Some_2 parts (S i) Hi) as [y Hy].
    rewrite (take_S_r parts (S i) y Hy). rewrite concat_snoc.
    - rewrite !length_append. simpl. lia.
    - destruct parts; [simpl in Hi; lia|done]. }
  intros i j Hij. induction Hij as [|j Hij IH]; intros Hj.
  - by apply Hstep.
  - etrans; [apply IH; lia|]. apply Hstep. lia.
Qed.

Lemma notified_prefixes_NoDup ch (rest : string) :
  Ascii.eqb ch "/"%char = false -> NoDup (notified_prefixes (String ch rest)).
Proof.
  intros Hch. unfold notified_prefixes, segments.
  destruct (Split_hd ch rest "/"%char Hch) as (p & ps & E). rewrite E.
  apply NoDup_fmap_2_strong; [|apply NoDup_filter, NoDup_seq].
  intros i j Hi Hj Heq.
  apply list_elem_of_filter in Hi as [_ Hi]. apply list_elem_of_filter in Hj as [_ Hj].
  apply elem_of_seq in Hi, Hj. cbn [take] in Heq. rewrite !joined_hd in Heq.
  apply (f_equal String.length) in Heq.
  destruct (Nat.lt_trichotomy i j) as [Hlt|[->|Hgt]]; [|done|].
  - pose proof (prefix_length_lt (String ch p :: ps) i j Hlt ltac:(lia)) as H.
    cbn [take] in H. lia.
  - pose proof (prefix_length_lt (String ch p :: ps) j i Hgt ltac:(lia)) as H.
    cbn [take] in H. lia.
Qed.

(** The values that [Query] without bounds returns are those of the
    map, each as many times as the map has it. *)
Lemma Query_all_perm (sl : SkipList (option nat)) (m : gmap string (option nat)) fuel :
  Abs None sl m ->
  exists l, Query (S fuel) sl false "" "" = Done (l, None) /\ l ≡ₚ (map_to_list m).*2.
Proof.
  intros (L & HR & <-). eexists. split; [apply (Query_spec None sl L "" "" fuel HR)|].
  rewrite filter_all.
  2:{ apply Forall_forall. intros a _. split; [|by left].
      unfold key_lt. by rewrite ltb_empty_r. }
  rewrite (map_to_list_to_map (entries None sl L)) by (by apply entries_NoDup).
  unfold entries. by rewrite <- list_fmap_compose.
Qed.

(** No path shares its index of subscriptions with another path. *)
Definition unaliased (M : gmap string (option nat)) : Prop :=
  forall p q i, M !! p = Some (Some i) -> M !! q = Some (Some i) -> p = q.

(** X11.  A subscriber added under a path gets what is notified on that path,
    once: after [SubscribePath] and [addSubscription] for a token that
    is not in use under the path, [Notify] of the path leaves exactly
    one ["event;data"] in the queue of the new subscriber. *)
Theorem subscribe_then_notify fuel sh M ch rest token c1 c2 event data :
  wf_fabric sh M -> unaliased M ->
  Ascii.eqb ch "/"%char = false -> token <> "" ->
  is_Some (M !! String ch rest) \/ randomLevel c1 < MAX_LEVEL ->
  randomLevel c2 < MAX_LEVEL ->
  (forall a, ~ registered sh M (String ch rest) token a) ->
  exists sh1 sh2 sh3,
    SubscribePath (S fuel) sh (String ch rest) c1 = Done (sh1, None)
    /\ addSubscription (S fuel) sh1 (String ch rest) token c2 = Done (sh2, None)
    /\ Notify (S fuel) sh2 (String ch rest) event data = Done sh3
    /\ subscribers sh3 !! length (subscribers sh)
       = Some (mkSubscriber (String ch rest) [event_data event data]).
Proof.
  intros Hwf Hinj Hch Ht Hok Hlvl Hfree.
  destruct (SubscribePath_spec fuel sh M (String ch rest) c1 Hwf ltac:(done) Hok)
    as (sh1 & i & Hrun1 & Hwf1 & Hsubs1 & Hidx1 & Hi).
  set (M1 := <[String ch rest := Some i]> M) in *.
  assert (M1 !! String ch rest = Some (Some i)) as E1 by apply lookup_insert_eq.
  destruct (proj2 Hwf1 _ _ E1) as (i' & inner & m & [= <-] & Hinner & HAin & Hv).
  assert (unaliased M1) as Hinj1.
  { destruct (M !! String ch rest) as [v|] eqn:E.
    - subst v. unfold M1. by rewrite insert_id.
    - subst i. intros p q j Hp Hq. unfold M1 in Hp, Hq.
      assert (forall r, M !! r = Some (Some (length (indexes sh))) -> False) as Hfresh.
      { intros r Hr. destruct (proj2 Hwf _ _ Hr) as (j' & innerj & mj & [= <-] & Hj & _).
        apply lookup_lt_Some in Hj. lia. }
      apply lookup_insert_Some in Hp as [[<- Hp]|[Hnp Hp]];
        apply lookup_insert_Some in Hq as [[<- Hq]|[Hnq Hq]]; try done.
      + exfalso. apply (Hfresh q). by rewrite Hq, Hp.
      + exfalso. apply (Hfresh p). by rewrite Hp, Hq.
      + by apply (Hinj p q j). }
  assert (m !! token = None) as Hm.
  { destruct (m !! token) as [w|] eqn:Em; [|done]. exfalso.
    destruct (Hv token w Em) as (a & -> & _).
    destruct (M !! String ch rest) as [v|] eqn:E.
    - subst v. apply (Hfree a).
      destruct (proj2 Hwf _ _ E) as (i' & inner0 & m0 & [= <-] & Hinner0 & HA0 & _).
      assert (inner0 = inner) as ->.
      { rewrite Hidx1 in Hinner. rewrite (lookup_app_l_Some _ _ _ _ Hinner0) in Hinner.
        congruence. }
      assert (m0 = m) as -> by (by apply (Abs_unique None inner)).
      by exists i, inner, m.
    - subst i. rewrite Hidx1, list_lookup_middle in Hinner by done.
      injection Hinner as <-.
      assert (m = ∅) as -> by (apply (Abs_unique None NewSkipList); [done|apply NewSkipList_Abs]).
      by rewrite lookup_empty in Em. }
  destruct (addSubscription_spec fuel sh1 M1 (String ch rest) token c2 i inner m
              Hwf1 ltac:(done) Ht E1 Hinner HAin Hm Hlvl)
    as (sh2 & Hrun2 & Hwf2 & Hsubs2 & Hreg & _ & Honly).
  rewrite Hsubs1 in Hreg, Honly, Hsubs2. set (a0 := length (subscribers sh)) in *.
  pose proof (Notify_loop_deliver (S fuel) event data (Split (String ch rest) "/"%char)
                (Split_no_sep _ _) (Split (String ch rest) "/"%char) [] sh2 eq_refl) as HN.
  change (Notify (S fuel) sh2 (String ch rest) event data
          = deliver (S fuel) sh2 (notified_prefixes (String ch rest))
                    (event_data event data)) in HN.
  destruct (notified_prefixes_proper ch rest Hch) as [Hne Hself].
  destruct (deliver_exact fuel (event_data event data) M1 (notified_prefixes (String ch rest))
              sh2 Hwf2 Hne) as (sh3 & Hrun3 & Hex).
  assert (subscribers sh2 !! a0 = Some (mkSubscriber (String ch rest) [])) as Hnew.
  { rewrite Hsubs2. by rewrite list_lookup_middle. }
  exists sh1, sh2, sh3. split; [done|]. split; [done|]. split; [by rewrite HN|].
  rewrite (Hex a0 _ Hnew).
  assert (copies (S fuel) sh2 (notified_prefixes (String ch rest)) a0 = 1) as ->; [|done].
  (* the subscriptions registered before are older than the new one *)
  assert (forall r t, ~ registered sh1 M1 r t a0) as Hold.
  { intros r t (j & innerj & mj & Er & Hj & Hmj & Ha).
    destruct (proj2 Hwf1 _ _ Er) as (j' & innerj' & mj' & [= <-] & Hj' & Hmj' & Hvj).
    assert (innerj' = innerj) as -> by congruence.
    assert (mj' = mj) as -> by (by apply (Abs_unique None innerj)).
    destruct (Hvj t _ Ha) as (a & [= <-] & Hlt). rewrite Hsubs1 in Hlt. unfold a0 in Hlt. lia. }
  unfold copies.
  rewrite (sum_list_single _ (String ch rest));
    [|by apply notified_prefixes_NoDup|done|].
  - (* under the path itself: once *)
    destruct Hreg as (j & inner' & m' & Ej & Hj & Hm' & Ha).
    assert (j = i) as -> by congruence.
    unfold targets_at, subscriptions_at.
    rewrite (Find_Abs None _ M1 (String ch rest) (proj1 Hwf2) ltac:(done)). unfold result_of.
    rewrite E1, obind_Done. cbn [negb deref].
    rewrite obind_Done, (index_Some _ _ _ Hj), obind_Done.
    destruct (Query_all_perm inner' m' fuel Hm') as (l & -> & Hl).
    rewrite obind_Done. unfold occurrences. rewrite Hl.
    rewrite <- (insert_delete_id m' token (Some a0)) by done.
    rewrite map_to_list_insert by apply lookup_delete_eq.
    rewrite fmap_cons, filter_cons_True by done. cbn [length]. f_equal.
    apply length_zero_iff_nil, filter_none, Forall_forall.
    intros w Hw Heq. subst w. apply list_elem_of_fmap in Hw as ([t w] & Hw & Hin).
    simpl in Hw. subst w. apply elem_of_map_to_list in Hin.
    apply lookup_delete_Some in Hin as [Hnt Hin].
    destruct (Honly (String ch rest) t a0) as [Hr|(_ & Htok & _)].
    + by exists i, inner', m'.
    + by apply (Hold _ _ Hr).
    + done.
  - (* under the other paths: never *)
    intros q Hq Hnq. unfold occurrences. apply length_zero_iff_nil, filter_none, Forall_forall.
    intros w Hw Heq. subst w.
    assert (targets_of (S fuel) sh2 [q] a0) as Htg.
    { exists q. unfold targets_at in Hw.
      destruct (subscriptions_at (S fuel) sh2 q) as [targets| |] eqn:Hat;
        [|by apply elem_of_nil in Hw..].
      exists targets. split; [by left|]. done. }
    apply (targets_of_registered fuel sh2 M1 [q] a0 Hwf2) in Htg.
    2:{ constructor; [|constructor]. rewrite Forall_forall in Hne. by apply Hne. }
    destruct Htg as (q' & t & Hq' & Hr). apply list_elem_of_singleton in Hq' as ->.
    destruct (Honly q t a0 Hr) as [Hr1|(Eq & _)].
    + by apply (Hold _ _ Hr1).
    + apply Hnq. by apply (Hinj1 q (String ch rest) i).
Qed.

(** X12.  The errors of [addSubscription]: a path that is not registered, and
    a token that is in use under the path.  Neither changes a
    registration. *)
Theorem addSubscription_errors fuel sh M resource token c :
  wf_fabric sh M -> resource <> "" -> token <> "" ->
  (M !! resource = None ->
     addSubscription (S fuel) sh resource token c
     = Done (sh, Some "the given resource path is not yet subscribed"))
  /\ (forall a, registered sh M resource token a ->
        exists sh', addSubscription (S fuel) sh resource token c
                    = Done (sh', Some "the subscription already exists")
          /\ resourceToken sh' = resourceToken sh /\ indexes sh' = indexes sh).
Proof.
  intros [HA Hwf] Hr Ht. split.
  - intros E. unfold addSubscription. cbv zeta.
    rewrite (Find_Abs None _ M resource HA Hr). unfold result_of. by rewrite E.
  - intros a (i & inner & m & E & Hi & Hin & Hm). unfold addSubscription. cbv zeta.
    rewrite (Find_Abs None _ M resource HA Hr). unfold result_of. rewrite E, obind_Done.
    cbn [negb deref]. rewrite obind_Done, (index_Some _ _ _ Hi), obind_Done.
    erewrite (Upsert_error_of_Find None inner token _ c fuel (Some a)).
    + rewrite obind_Done. eexists. split; [done|]. split; [done|].
      simpl. by apply list_insert_id.
    + rewrite (Find_Abs None inner m token Hin Ht). unfold result_of. by rewrite Hm.
    + done.
Qed.

(** X13.  [deleteSubscription] takes the token out of the index of the path;
    the subscriptions under other tokens and paths stay. *)
Theorem deleteSubscription_unregisters fuel sh M resource token a :
  wf_fabric sh M -> resource <> "" -> token <> "" ->
  registered sh M resource token a ->
  exists sh', deleteSubscription (S fuel) sh resource token = Done (sh', None)
    /\ wf_fabric sh' M
    /\ subscribers sh' = subscribers sh
    /\ (forall b, ~ registered sh' M resource token b)
    /\ (forall t b, t <> token -> registered sh M resource t b ->
          registered sh' M resource t b).
Proof.
  intros [HA Hwf] Hr Ht (i & inner & m & E & Hi & Hin & Hm). unfold deleteSubscription. cbv zeta.
  rewrite (Find_Abs None _ M resource HA Hr). unfold result_of. rewrite E, obind_Done.
  cbn [negb deref]. rewrite obind_Done, (index_Some _ _ _ Hi), obind_Done.
  destruct (Remove_Abs None inner m token fuel Hin Ht) as (inner' & Hrun & Hin' & _).
  unfold result_of in Hrun. rewrite Hm in Hrun. rewrite Hrun, obind_Done. cbn [negb].
  eexists. split; [done|].
  pose proof (lookup_lt_Some _ _ _ Hi) as Hlt.
  split; [|split; [done|split]].
  - split; [done|]. intros p v Hp.
    destruct (Hwf p v Hp) as (j & innerj & mj & -> & Hj & Hmj & Hv).
    destruct (decide (j = i)) as [->|Hne].
    + assert (innerj = inner) as -> by congruence.
      assert (mj = m) as -> by (by apply (Abs_unique None inner)).
      exists i, inner', (delete token m). split; [done|].
      split; [simpl; by rewrite list_lookup_insert_eq|]. split; [done|].
      intros t w Hw. apply lookup_delete_Some in Hw as [_ Hw]. by apply (Hv t).
    + exists j, innerj, mj. split; [done|].
      split; [simpl; by rewrite list_lookup_insert_ne|]. done.
  - intros b (j & innerj & mj & Ej & Hj & Hmj & Hb).
    assert (j = i) as -> by congruence. simpl in Hj.
    rewrite list_lookup_insert_eq in Hj by done. injection Hj as <-.
    assert (mj = delete token m) as -> by (by apply (Abs_unique None inner')).
    by rewrite lookup_delete_eq in Hb.
  - intros t b Hne (j & innerj & mj & Ej & Hj & Hmj & Hb).
    assert (j = i) as -> by congruence.
    assert (innerj = inner) as -> by congruence.
    assert (mj = m) as -> by (by apply (Abs_unique None inner)).
    exists i, inner', (delete token m). split; [done|].
    split; [simpl; by rewrite list_lookup_insert_eq|]. split; [done|].
    by rewrite lookup_delete_ne.
Qed.

(** *** The notified paths of a path given by its segments *)

Lemma Split_single (x : string) sep : has_char sep x = false -> Split x sep = [x].
Proof.
  induction x as [|ch x IH]; [done|]. simpl. intros H.
  apply orb_false_iff in H as [Hch Hx]. rewrite Ascii.eqb_sym in Hch.
  rewrite Ascii.eqb_sym, Hch. by rewrite IH.
Qed.

Lemma Split_app (x y : string) sep : has_char sep x = false ->
  Split (String.append x (String sep y)) sep = x :: Split y sep.
Proof.
  induction x as [|ch x IH]; intros H.
  - rewrite append_nil_l. simpl. by rewrite Ascii.eqb_refl.
  - simpl in H. apply orb_false_iff in H as [Hch Hx].
    rewrite append_cons. cbn [Split]. rewrite Hch, IH by done. done.
Qed.



(** *** The properties on examples *)

Ltac nodup_strings :=
  simpl;
  repeat (apply NoDup_cons_2;
          [rewrite ?elem_of_cons, elem_of_nil; intuition discriminate|]);
  apply NoDup_nil_2.

Lemma wf_fabric_new : wf_fabric NewSubscriberHandler ∅.
Proof.
  split; [apply NewSkipList_Abs|]. intros p v Hp. by rewrite lookup_empty in Hp.
Qed.

(** A fabric with one subscriber under [db] and one under [db/doc]. *)
Definition fab : SubscriberHandler :=
  Eval vm_compute in
  match
    ('(sh, _) ← SubscribePath 1 NewSubscriberHandler "db" tails;
     '(sh, _) ← addSubscription 1 sh "db" "t0" tails;
     '(sh, _) ← SubscribePath 1 sh "db/doc" tails;
     '(sh, _) ← addSubscription 1 sh "db/doc" "t1" tails;
     Done sh)
  with
  | Done sh => sh
  | _ => NewSubscriberHandler
  end.

Definition fab_inner0 : SkipList (option nat) :=
  Eval vm_compute in default NewSkipList (indexes fab !! 0).

Definition fab_inner1 : SkipList (option nat) :=
  Eval vm_compute in default NewSkipList (indexes fab !! 1).

Definition M_fab : gmap string (option nat) :=
  list_to_map [("db", Some 0); ("db/doc", Some 1)].

Definition m_fab0 : gmap string (option nat) := list_to_map [("t0", Some 0)].
Definition m_fab1 : gmap string (option nat) := list_to_map [("t1", Some 1)].

Lemma fab_outer_Abs : Abs None (resourceToken fab) M_fab.
Proof.
  exists [2; 3]. split; [rep_by_computation|]. unfold M_fab. by f_equal.
Qed.

Lemma fab_inner0_Abs : Abs None fab_inner0 m_fab0.
Proof.
  exists [2]. split; [rep_by_computation|]. unfold m_fab0. by f_equal.
Qed.

Lemma fab_inner1_Abs : Abs None fab_inner1 m_fab1.
Proof.
  exists [2]. split; [rep_by_computation|]. unfold m_fab1. by f_equal.
Qed.

Lemma wf_fabric_fab : wf_fabric fab M_fab.
Proof.
  split; [apply fab_outer_Abs|]. intros p v Hp.
  apply elem_of_list_to_map in Hp; [|nodup_strings].
  apply elem_of_cons in Hp as [[= -> ->]|Hp]; [|apply elem_of_cons in Hp as [[= -> ->]|Hp]].
  - exists 0, fab_inner0, m_fab0. split; [done|]. split; [done|].
    split; [apply fab_inner0_Abs|]. intros t w Hw.
    apply elem_of_list_to_map in Hw; [|nodup_strings].
    apply list_elem_of_singleton in Hw as [= -> ->]. exists 0. split; [done|]. simpl. lia.
  - exists 1, fab_inner1, m_fab1. split; [done|]. split; [done|].
    split; [apply fab_inner1_Abs|]. intros t w Hw.
    apply elem_of_list_to_map in Hw; [|nodup_strings].
    apply list_elem_of_singleton in Hw as [= -> ->]. exists 1. split; [done|]. simpl. lia.
  - by apply elem_of_nil in Hp.
Qed.

Lemma registered_fab_t0 : registered fab M_fab "db" "t0" 0.
Proof.
  exists 0, fab_inner0, m_fab0. split; [by vm_compute|]. split; [done|].
  split; [apply fab_inner0_Abs|]. by vm_compute.
Qed.

Lemma Notify_on_well_formed_fabric_witness :
  exists sh', Notify 1 fab "db/doc/col/doc2" "update" "x" = Done sh'
    /\ resourceToken sh' = resourceToken fab /\ indexes sh' = indexes fab
    /\ wf_fabric sh' M_fab
    /\ sent (event_data "update" "x")
            (fun b => exists p token, p ∈ notified_prefixes "db/doc/col/doc2"
                                      /\ registered fab M_fab p token b)
            (subscribers fab) (subscribers sh')
    /\ forall p token a s,
         p ∈ notified_prefixes "db/doc/col/doc2" -> registered fab M_fab p token a ->
         subscribers fab !! a = Some s -> length (event s) < event_capacity ->
         exists s' k, subscribers sh' !! a = Some s'
                      /\ event s' = event s ++ replicate (S k) (event_data "update" "x").
Proof.
  apply (Notify_on_well_formed_fabric 0 fab M_fab "d"%char "b/doc/col/doc2" "update" "x"
           wf_fabric_fab).
  reflexivity.
Defined.

(** On that fabric, a change of [db/doc/col/doc2] reaches the subscriber
    of [db] and not the one of [db/doc]. *)
Example Notify_passes_over_document :
  (sh' ← Notify 1 fab "db/doc/col/doc2" "update" "x"; Done (subscribers sh'))
  = Done [mkSubscriber "db" ["update;x"]; mkSubscriber "db/doc" []].
Proof. vm_compute. reflexivity. Qed.

Lemma Notify_leading_slash_panics_witness :
  Notify 1 NewSubscriberHandler "/db" "update" "x" = Panic.
Proof.
  apply (Notify_leading_slash_panics 1 NewSubscriberHandler [] "/db" "update" "x").
  - apply NewSkipList_Rep.
  - constructor.
  - right. by exists "db".
Defined.

Lemma subscribe_then_notify_witness :
  exists sh1 sh2 sh3,
    SubscribePath 1 NewSubscriberHandler "db/doc" tails = Done (sh1, None)
    /\ addSubscription 1 sh1 "db/doc" "tok" tails = Done (sh2, None)
    /\ Notify 1 sh2 "db/doc" "update" "x" = Done sh3
    /\ subscribers sh3 !! length (subscribers NewSubscriberHandler)
       = Some (mkSubscriber "db/doc" [event_data "update" "x"]).
Proof.
  apply (subscribe_then_notify 0 NewSubscriberHandler ∅ "d"%char "b/doc" "tok" tails tails
           "update" "x" wf_fabric_new).
  - intros p q i Hp. by rewrite lookup_empty in Hp.
  - reflexivity.
  - done.
  - right. vm_compute. lia.
  - vm_compute. lia.
  - intros a (i & inner & m & E & _). by rewrite lookup_empty in E.
Defined.

Lemma addSubscription_errors_witness :
  (M_fab !! "db" = None ->
     addSubscription 1 fab "db" "t0" tails
     = Done (fab, Some "the given resource path is not yet subscribed"))
  /\ (forall a, registered fab M_fab "db" "t0" a ->
        exists sh', addSubscription 1 fab "db" "t0" tails
                    = Done (sh', Some "the subscription already exists")
          /\ resourceToken sh' = resourceToken fab /\ indexes sh' = indexes fab).
Proof.
  apply (addSubscription_errors 0 fab M_fab "db" "t0" tails wf_fabric_fab); done.
Defined.

Lemma deleteSubscription_unregisters_witness :
  exists sh', deleteSubscription 1 fab "db" "t0" = Done (sh', None)
    /\ wf_fabric sh' M_fab
    /\ subscribers sh' = subscribers fab
    /\ (forall b, ~ registered sh' M_fab "db" "t0" b)
    /\ (forall t b, t <> "t0" -> registered fab M_fab "db" t b ->
          registered sh' M_fab "db" t b).
Proof.
  apply (deleteSubscription_unregisters 0 fab M_fab "db" "t0" 0 wf_fabric_fab);
    [done|done|apply registered_fab_t0].
Defined.


End sse_spec.

Module contents_spec.
Import skiplist skiplist_rep skiplist_abs skiplist_spec skiplist_found skiplist_map
       sse contents.

Implicit Types (m : gmap string Document).

(** [GetDocument] reads the map of the documents. *)
Lemma GetDocument_Abs documentList m documentName :
  Abs zeroDocument documentList m -> documentName <> "" ->
  GetDocument documentList documentName
  = Done (match m !! documentName with
          | Some d => (d, None)
          | None => (zeroDocument, Some "failed to find document")
          end).
Proof.
  intros HA Hk. unfold GetDocument.
  rewrite (Find_Abs zeroDocument _ m _ HA Hk). unfold result_of.
  by destruct (m !! documentName).
Qed.

(** X14.  If [Find] finds the document name, [PutDocument] in mode
    [nooverwrite] returns an error and no success, and the container is
    left as it was, so the stored document keeps its body and its
    metadata.  The error is the conflict error, unless the schema
    rejects the body, whose error then comes first.  No invariant of the
    container is needed. *)
Theorem PutDocument_nooverwrite_conflict fuel documentList documentName
    documentContent user schema now1 now2 fresh c d :
  Find zeroDocument documentList documentName = Done (d, true) ->
  exists err,
    PutDocument (S fuel) documentList documentName documentContent user
                "nooverwrite" schema now1 now2 fresh c
    = Done (documentList, false, Some err)
    /\ err = match snd (schema documentContent) with
             | Some e => e
             | None => "document exists and mode is nooverwrite"
             end
    /\ GetDocument documentList documentName = Done (d, None).
Proof.
  intros HF.
  eexists. split; [|split; [reflexivity|]].
  - unfold PutDocument. eapply Upsert_error_of_Find; [exact HF|].
    unfold PutDocument_updateCheck. simpl.
    by destruct (snd (schema documentContent)).
  - unfold GetDocument. by rewrite HF.
Qed.


(** X16.  [PutDocument] of a name that is in the container, in a mode other
    than [nooverwrite] and with a body that the schema accepts: the
    stored document keeps its creator and creation time, has the user
    and the clock as last modification, and the new body; its path, its
    index of collections and its subscribers are those of a zero
    [Document]: the existing index of collections is not carried over.
    The other documents are as they were. *)
Theorem PutDocument_overwrites fuel documentList m documentName documentContent
    user mode schema now1 now2 fresh c d :
  Abs zeroDocument documentList m -> documentName <> "" ->
  m !! documentName = Some d ->
  String.eqb mode "nooverwrite" = false ->
  snd (schema documentContent) = None ->
  let d' := mkDocument documentName "" documentContent
              (mkMetadata (CreatedBy (DocMetadata d)) (CreatedAt (DocMetadata d))
                          user now1) None [] in
  exists documentList',
    PutDocument (S fuel) documentList documentName documentContent user mode
                schema now1 now2 fresh c
    = Done (documentList', true, None)
    /\ Abs zeroDocument documentList' (<[documentName := d']> m)
    /\ GetDocument documentList' documentName = Done (d', None)
    /\ count documentList' = count documentList.
Proof.
  intros HA Hk E Hmode Hs d'.
  destruct (Upsert_Abs_present zeroDocument documentList m documentName
              (PutDocument_updateCheck documentContent user mode schema now1 now2 fresh)
              c fuel d d' HA Hk E) as (dl' & Hrun & HA' & Hc).
  { unfold PutDocument_updateCheck. simpl. by rewrite Hs, Hmode. }
  exists dl'. split; [exact Hrun|]. split; [done|]. split; [|done].
  rewrite (GetDocument_Abs dl' _ documentName HA' Hk). by rewrite lookup_insert_eq.
Qed.




(** [DeleteCollection], like [DeleteDocument]: an error and nothing else
    for a name that is not in the container; the ["delete"] notification
    and the removal for a name that is. *)
Theorem DeleteCollection_spec Quote fuel collectionList (mc : gmap string Collection)
    collectionName sh fullPath :
  Abs zeroCollection collectionList mc -> collectionName <> "" ->
  match mc !! collectionName with
  | None =>
      DeleteCollection Quote (S fuel) collectionList collectionName sh fullPath
      = Done (sh, (collectionList, false,
                   Some (String.append "could not find collection named " collectionName)))
  | Some col =>
      forall sh', Notify (S fuel) sh fullPath "delete" (Quote fullPath) = Done sh' ->
      exists collectionList',
        DeleteCollection Quote (S fuel) collectionList collectionName sh fullPath
        = Done (sh', (collectionList', true, None))
        /\ Abs zeroCollection collectionList' (delete collectionName mc)
        /\ GetCollection collectionList' collectionName
           = Done (zeroCollection, Some "failed to find database")
  end.
Proof.
  intros HA Hk. unfold DeleteCollection.
  rewrite (Find_Abs zeroCollection _ mc _ HA Hk). unfold result_of.
  destruct (mc !! collectionName) as [col|] eqn:E; rewrite obind_Done; cbn [negb]; [|done].
  intros sh' HN. rewrite HN, obind_Done.
  destruct (Remove_Abs zeroCollection collectionList mc collectionName fuel HA Hk)
    as (cl' & Hrun & HA' & _).
  unfold result_of in Hrun. rewrite E in Hrun. rewrite Hrun, obind_Done. cbn [negb].
  exists cl'. split; [done|]. split; [done|]. unfold GetCollection.
  rewrite (Find_Abs zeroCollection cl' _ _ HA' Hk). unfold result_of.
  by rewrite lookup_delete_eq.
Qed.

(** *** The properties on examples *)

Definition accept : ValidSchema := fun _ => (true, None).

Definition doc1 : Document :=
  mkDocument "doc1" "" "{}" (mkMetadata "alice" 100 "alice" 101) (Some 7) [].

(** A container with the document [doc1]. *)
Definition docs1 : SkipList Document :=
  Eval vm_compute in
  match PutDocument 1 NewSkipList "doc1" "{}" "alice" "overwrite" accept 100 101 7 tails with
  | Done (s, _, _) => s
  | _ => NewSkipList
  end.

Definition m_docs1 : gmap string Document := list_to_map [("doc1", doc1)].

Lemma docs1_Abs : Abs zeroDocument docs1 m_docs1.
Proof. exists [2]. split; [rep_by_computation|]. unfold m_docs1. by f_equal. Qed.

Lemma m_docs1_doc1 : m_docs1 !! "doc1" = Some doc1.
Proof. by vm_compute. Qed.


Lemma PutDocument_nooverwrite_conflict_witness :
  exists err,
    PutDocument 1 docs1 "doc1" "[1]" "bob" "nooverwrite" accept 200 201 8 tails
    = Done (docs1, false, Some err)
    /\ err = match snd (accept "[1]") with
             | Some e => e
             | None => "document exists and mode is nooverwrite"
             end
    /\ GetDocument docs1 "doc1" = Done (doc1, None).
Proof.
  apply (PutDocument_nooverwrite_conflict 0 docs1 "doc1" "[1]" "bob" accept 200 201 8
           tails doc1).
  vm_compute. reflexivity.
Defined.


Lemma PutDocument_overwrites_witness :
  let d' := mkDocument "doc1" "" "[1]"
              (mkMetadata (CreatedBy (DocMetadata doc1)) (CreatedAt (DocMetadata doc1))
                          "bob" 200) None [] in
  exists documentList',
    PutDocument 1 docs1 "doc1" "[1]" "bob" "overwrite" accept 200 201 8 tails
    = Done (documentList', true, None)
    /\ Abs zeroDocument documentList' (<["doc1" := d']> m_docs1)
    /\ GetDocument documentList' "doc1" = Done (d', None)
    /\ count documentList' = count docs1.
Proof.
  apply (PutDocument_overwrites 0 docs1 m_docs1 "doc1" "[1]" "bob" "overwrite" accept
           200 201 8 tails doc1 docs1_Abs).
  - done.
  - apply m_docs1_doc1.
  - reflexivity.
  - reflexivity.
Defined.



Definition cols0 : SkipList Collection := NewSkipList.


Lemma DeleteCollection_spec_witness :
  match (∅ : gmap string Collection) !! "col" with
  | None =>
      DeleteCollection id 1 cols0 "col" NewSubscriberHandler "db/doc/col"
      = Done (NewSubscriberHandler,
              (cols0, false, Some (String.append "could not find collection named " "col")))
  | Some col =>
      forall sh', Notify 1 NewSubscriberHandler "db/doc/col" "delete" (id "db/doc/col")
                  = Done sh' ->
      exists collectionList',
        DeleteCollection id 1 cols0 "col" NewSubscriberHandler "db/doc/col"
        = Done (sh', (collectionList', true, None))
        /\ Abs zeroCollection collectionList' (delete "col" ∅)
        /\ GetCollection collectionList' "col"
           = Done (zeroCollection, Some "failed to find database")
  end.
Proof.
  apply (DeleteCollection_spec id 0 cols0 ∅ "col" NewSubscriberHandler "db/doc/col"
           (NewSkipList_Abs zeroCollection)).
  done.
Defined.

End contents_spec.

Module database_spec.
Import skiplist skiplist_rep skiplist_abs skiplist_spec skiplist_found skiplist_map
       sse sse_spec database.

(** The data of the notification of [PutDatabase]: the JSON object with
    the path. *)
Definition path_data (fullPath : string) : string :=
  String.concat "" ["{"; quote; "path"; quote; ":"; quote; fullPath; quote; "}"].

(** X20.  [PutDatabase] notifies before it looks at the list: for a name that
    is in the list it returns the conflict error and leaves the list as
    it was, and still the subscribers of the full path have got the
    ["update"] event. *)
Theorem PutDatabase_conflict_still_notifies fuel databaseList
    (m : gmap string Database) databaseName sh M ch rest fresh c db :
  Abs zeroDatabase databaseList m -> databaseName <> "" ->
  m !! databaseName = Some db ->
  wf_fabric sh M -> Ascii.eqb ch "/"%char = false ->
  exists sh',
    PutDatabase (S fuel) databaseList databaseName sh (String ch rest) fresh c
    = Done (sh', (databaseList, false, Some "database already exists"))
    /\ Notify (S fuel) sh (String ch rest) "update" (path_data (String ch rest)) = Done sh'
    /\ forall token a s,
         registered sh M (String ch rest) token a ->
         subscribers sh !! a = Some s -> length (event s) < event_capacity ->
         exists s' k, subscribers sh' !! a = Some s'
           /\ event s' = event s
                ++ replicate (S k) (event_data "update" (path_data (String ch rest))).
Proof.
  intros HA Hk E Hwf Hch.
  destruct (Notify_wf fuel sh M ch rest "update" (path_data (String ch rest)) Hwf Hch)
    as (sh' & HN & _ & _ & _ & _ & Hgot).
  exists sh'. split; [|split; [done|]].
  - unfold PutDatabase. fold (path_data (String ch rest)). rewrite HN, obind_Done.
    rewrite (Upsert_Abs_error zeroDatabase databaseList m databaseName _ c fuel
               "database already exists" HA Hk).
    + done.
    + left. by rewrite E.
    + unfold result_of. by rewrite E.
  - intros token a s Hreg. apply (Hgot (String ch rest) token).
    + by destruct (notified_prefixes_proper ch rest Hch).
    + done.
Qed.

(** [PutDatabase] of a new name: after the notification, the database
    is stored under its name with a new index of documents. *)
Theorem PutDatabase_creates fuel databaseList (m : gmap string Database)
    databaseName sh fullPath fresh c sh' :
  Abs zeroDatabase databaseList m -> databaseName <> "" ->
  m !! databaseName = None -> randomLevel c < MAX_LEVEL ->
  Notify (S fuel) sh fullPath "update" (path_data fullPath) = Done sh' ->
  exists databaseList',
    PutDatabase (S fuel) databaseList databaseName sh fullPath fresh c
    = Done (sh', (databaseList', true, None))
    /\ Abs zeroDatabase databaseList'
         (<[databaseName := mkDatabase databaseName (Some fresh)]> m)
    /\ Find zeroDatabase databaseList' databaseName
       = Done (mkDatabase databaseName (Some fresh), true).
Proof.
  intros HA Hk E Ht HN.
  destruct (Upsert_Abs_absent zeroDatabase databaseList m databaseName
              (PutDatabase_updateCheck fresh) c fuel (mkDatabase databaseName (Some fresh))
              HA Hk E Ht eq_refl) as (dbl' & Hrun & HA' & _).
  exists dbl'. split; [|split; [done|]].
  - unfold PutDatabase. fold (path_data fullPath). by rewrite HN, obind_Done, Hrun.
  - rewrite (Find_Abs zeroDatabase dbl' _ _ HA' Hk). unfold result_of.
    by rewrite lookup_insert_eq.
Qed.


(** *** The properties on examples *)

Definition dbs1 : SkipList Database :=
  Eval vm_compute in
  match PutDatabase 1 NewSkipList "db" NewSubscriberHandler "db" 5 tails with
  | Done (_, (s, _, _)) => s
  | _ => NewSkipList
  end.

Definition m_dbs1 : gmap string Database := list_to_map [("db", mkDatabase "db" (Some 5))].

Lemma dbs1_Abs : Abs zeroDatabase dbs1 m_dbs1.
Proof. exists [2]. split; [rep_by_computation|]. unfold m_dbs1. by f_equal. Qed.

Lemma PutDatabase_conflict_still_notifies_witness :
  exists sh',
    PutDatabase 1 dbs1 "db" fab "db" 6 tails
    = Done (sh', (dbs1, false, Some "database already exists"))
    /\ Notify 1 fab "db" "update" (path_data "db") = Done sh'
    /\ forall token a s,
         registered fab M_fab "db" token a ->
         subscribers fab !! a = Some s -> length (event s) < event_capacity ->
         exists s' k, subscribers sh' !! a = Some s'
           /\ event s' = event s ++ replicate (S k) (event_data "update" (path_data "db")).
Proof.
  apply (PutDatabase_conflict_still_notifies 0 dbs1 m_dbs1 "db" fab M_fab "d"%char "b" 6
           tails (mkDatabase "db" (Some 5)) dbs1_Abs).
  - done.
  - by vm_compute.
  - apply wf_fabric_fab.
  - reflexivity.
Defined.

Lemma PutDatabase_creates_witness :
  exists databaseList',
    PutDatabase 1 dbs1 "db2" NewSubscriberHandler "db2" 6 tails
    = Done (NewSubscriberHandler, (databaseList', true, None))
    /\ Abs zeroDatabase databaseList' (<["db2" := mkDatabase "db2" (Some 6)]> m_dbs1)
    /\ Find zeroDatabase databaseList' "db2" = Done (mkDatabase "db2" (Some 6), true).
Proof.
  apply (PutDatabase_creates 0 dbs1 m_dbs1 "db2" NewSubscriberHandler "db2" 6 tails
           NewSubscriberHandler dbs1_Abs).
  - done.
  - by vm_compute.
  - vm_compute. lia.
  - vm_compute. reflexivity.
Defined.


End database_spec.

(** ** Users and tokens (package auth) *)

Module auth.

(** [time.Time] and [time.Duration] as numbers of nanoseconds. *)
Definition Time : Type := Z.
Definition Duration : Type := Z.

(** [t.After(u)] *)
Definition After (t u : Time) : bool := (u <? t)%Z.

(** [t.Add(d)] *)
Definition Add (t : Time) (d : Duration) : Time := (t + d)%Z.

(** [type Token]; the field [Token] is [Token_]. *)
Record Token : Type := mkToken {
  Username : string;
  Token_ : string;
  Expiration : Time
}.

(** [type AuthManager], without its mutex: one call runs at a time. *)
Record AuthManager : Type := mkAuthManager {
  tokenDuration : Duration;
  tokens : gmap string Token;
  userTokens : gmap string string
}.

(** [NewAuthManager] *)
Definition NewAuthManager (tokenDuration : Duration) : AuthManager :=
  mkAuthManager tokenDuration ∅ ∅.

(** [Login].  [generated] is what [generateToken()] returns: the
    encoding of 16 random bytes, or the error of the random source;
    [now] is the reading of the clock. *)
Definition Login (am : AuthManager) (username : string)
    (generated : string * option error) (now : Time)
  : AuthManager * (string * option error) :=
  let tokens1 :=
    match userTokens am !! username with
    | Some oldToken => delete oldToken (tokens am)
    | None => tokens am
    end in
  match generated with
  | (_, Some err) =>
      (mkAuthManager (tokenDuration am) tokens1 (userTokens am),
       ("", Some (String.append "failed to generate token: " err)))
  | (token, None) =>
      let expiration := Add now (tokenDuration am) in
      let newToken := mkToken username token expiration in
      (mkAuthManager (tokenDuration am) (<[token := newToken]> tokens1)
                     (<[username := token]> (userTokens am)),
       (token, None))
  end.

(** [Logout] *)
Definition Logout (am : AuthManager) (token : string) : AuthManager * option error :=
  match tokens am !! token with
  | None => (am, Some "invalid token")
  | Some _ =>
      (mkAuthManager (tokenDuration am) (delete token (tokens am)) (userTokens am), None)
  end.

(** [Authenticate]; [now1] and [now2] are the two readings of the
    clock, the second one made only when the token is accepted. *)
Definition Authenticate (am : AuthManager) (token : string) (now1 now2 : Time)
  : AuthManager * (string * option error) :=
  match tokens am !! token with
  | None => (am, ("", Some "missing or invalid bearer token"))
  | Some t =>
      if After now1 (Expiration t)
      then (am, ("", Some "missing or invalid bearer token"))
      else
        let t' := mkToken (Username t) (Token_ t) (Add now2 (tokenDuration am)) in
        (mkAuthManager (tokenDuration am) (<[token := t']> (tokens am)) (userTokens am),
         (Username t, None))
  end.

(** The operations on an [AuthManager] and the state after a sequence
    of them. *)
Inductive op : Type :=
| OpLogin (username : string) (generated : string * option error) (now : Time)
| OpLogout (token : string)
| OpAuthenticate (token : string) (now1 now2 : Time).

Definition step (am : AuthManager) (o : op) : AuthManager :=
  match o with
  | OpLogin username generated now => (Login am username generated now).1
  | OpLogout token => (Logout am token).1
  | OpAuthenticate token now1 now2 => (Authenticate am token now1 now2).1
  end.

Definition run (am : AuthManager) (ops : list op) : AuthManager :=
  foldl step am ops.

End auth.

Module auth_spec.
Import auth.

Definition rejected : string * option error :=
  ("", Some "missing or invalid bearer token").

(** X22.  A user who logs in can authenticate with the token received until
    it expires, and the token the user had before is revoked: after
    [Login] returns [token], [Authenticate] of [token] at a time not
    after the issue time plus [tokenDuration] returns the user name and
    moves the expiry to the time of the call plus [tokenDuration];
    [Authenticate] of the token that the user had, if it is another
    one, is refused. *)
Theorem Login_then_Authenticate am username token now now1 now2 :
  (now1 <= now + tokenDuration am)%Z ->
  let am' := (Login am username (token, None) now).1 in
  (Login am username (token, None) now).2 = (token, None)
  /\ (Authenticate am' token now1 now2).2 = (username, None)
  /\ tokens (Authenticate am' token now1 now2).1 !! token
     = Some (mkToken username token (now2 + tokenDuration am)%Z)
  /\ (forall old, userTokens am !! username = Some old -> old <> token ->
        forall t1 t2, Authenticate am' old t1 t2 = (am', rejected)).
Proof.
  intros Hnow am'. split; [done|].
  assert (tokens am' !! token
          = Some (mkToken username token (now + tokenDuration am)%Z)) as Htok.
  { unfold am', Login. simpl. by rewrite lookup_insert_eq. }
  assert (After now1 (now + tokenDuration am)%Z = false) as Hafter.
  { unfold After. apply Z.ltb_ge. lia. }
  split; [|split].
  - unfold Authenticate. rewrite Htok. simpl. by rewrite Hafter.
  - unfold Authenticate. rewrite Htok. simpl. rewrite Hafter. simpl.
    by rewrite lookup_insert_eq.
  - intros old Hold Hne t1 t2. unfold Authenticate.
    assert (tokens am' !! old = None) as ->; [|done].
    unfold am', Login. simpl. rewrite Hold.
    rewrite lookup_insert_ne by done. by rewrite lookup_delete_eq.
Qed.

(** A [Login] that fails to generate a token has already revoked the
    token the user had: it returns the error, and that token is
    refused afterwards. *)
Theorem Login_failure_revokes am username tok err now old :
  userTokens am !! username = Some old ->
  let am' := (Login am username (tok, Some err) now).1 in
  (Login am username (tok, Some err) now).2
  = ("", Some (String.append "failed to generate token: " err))
  /\ userTokens am' = userTokens am
  /\ forall t1 t2, Authenticate am' old t1 t2 = (am', rejected).
Proof.
  intros Hold am'. split; [done|]. split; [done|]. intros t1 t2.
  unfold Authenticate.
  assert (tokens am' !! old = None) as ->; [|done].
  unfold am', Login. simpl. rewrite Hold. by rewrite lookup_delete_eq.
Qed.

(** X23.  [Logout] of a token that is not known returns an error and changes
    nothing.  [Logout] of a known token returns no error; the token is
    then refused by [Authenticate] and by a second [Logout], the other
    tokens are as they were, and so is the table of the users' tokens
    (the user still points to the token that was revoked). *)
Theorem Logout_spec am token :
  match tokens am !! token with
  | None => Logout am token = (am, Some "invalid token")
  | Some _ =>
      let am' := (Logout am token).1 in
      (Logout am token).2 = None
      /\ (forall t1 t2, Authenticate am' token t1 t2 = (am', rejected))
      /\ Logout am' token = (am', Some "invalid token")
      /\ (forall other, other <> token -> tokens am' !! other = tokens am !! other)
      /\ userTokens am' = userTokens am
  end.
Proof.
  destruct (tokens am !! token) as [t|] eqn:E.
  - intros am'.
    assert (tokens am' !! token = None) as Hgone.
    { unfold am', Logout. rewrite E. simpl. by rewrite lookup_delete_eq. }
    split; [unfold Logout; by rewrite E|]. split; [|split; [|split]].
    + intros t1 t2. unfold Authenticate. by rewrite Hgone.
    + unfold Logout at 1. by rewrite Hgone.
    + intros other Hne. unfold am', Logout. rewrite E. simpl.
      by rewrite lookup_delete_ne.
    + unfold am', Logout. by rewrite E.
  - unfold Logout. by rewrite E.
Qed.

(** [Authenticate] accepts a token exactly when it is known and the
    time of the call is not after its expiry.  When it accepts, it
    returns the user of the token and sets the expiry to the time of
    the call plus [tokenDuration], whatever the expiry was, and changes
    nothing else; when it refuses, nothing changes: an expired token
    stays in the table. *)
Theorem Authenticate_spec am token now1 now2 :
  match tokens am !! token with
  | Some t =>
      if decide (now1 <= Expiration t)%Z
      then Authenticate am token now1 now2
           = (mkAuthManager (tokenDuration am)
                (<[token := mkToken (Username t) (Token_ t)
                                    (now2 + tokenDuration am)%Z]> (tokens am))
                (userTokens am),
              (Username t, None))
      else Authenticate am token now1 now2 = (am, rejected)
  | None => Authenticate am token now1 now2 = (am, rejected)
  end.
Proof.
  unfold Authenticate, After. destruct (tokens am !! token) as [t|]; [|done].
  destruct (decide (now1 <= Expiration t)%Z) as [Hle|Hgt].
  - by rewrite (proj2 (Z.ltb_ge _ _) Hle).
  - by rewrite (proj2 (Z.ltb_lt _ _)) by lia.
Qed.

(** [issued ops am]: every token of the table is filed under its own
    string and belongs to the user of a [Login] of [ops] that returned
    it. *)
Definition issued (ops : list op) (am : AuthManager) : Prop :=
  forall tok t, tokens am !! tok = Some t ->
    Token_ t = tok /\ exists now, OpLogin (Username t) (tok, None) now ∈ ops.

Lemma issued_mono ops o am : issued ops am -> issued (ops ++ [o]) am.
Proof.
  intros HI tok t H. destruct (HI tok t H) as [? [now ?]]. split; [done|].
  exists now. apply elem_of_app. by left.
Qed.

Lemma step_issued ops am o : issued ops am -> issued (ops ++ [o]) (step am o).
Proof.
  intros HI tok t. pose proof (issued_mono ops o am HI) as HI'.
  destruct o as [username [token [err|]] now|token|token now1 now2]; simpl.
  - destruct (userTokens am !! username) as [old|]; simpl; [|apply HI'].
    intros H. apply lookup_delete_Some in H as [_ H]. by apply HI'.
  - intros H. apply lookup_insert_Some in H as [[<- <-]|[_ H]].
    + split; [done|]. exists now. apply elem_of_app. right. by left.
    + destruct (userTokens am !! username) as [old|]; simpl in H; [|by apply HI'].
      apply lookup_delete_Some in H as [_ H]. by apply HI'.
  - unfold Logout. destruct (tokens am !! token) as [t0|] eqn:E; simpl; [|apply HI'].
    intros H. apply lookup_delete_Some in H as [_ H]. by apply HI'.
  - unfold Authenticate. destruct (tokens am !! token) as [t0|] eqn:E; simpl; [|apply HI'].
    destruct (After now1 (Expiration t0)); simpl; [apply HI'|].
    intros H. apply lookup_insert_Some in H as [[<- <-]|[_ H]]; [|by apply HI'].
    simpl. by apply HI'.
Qed.

Lemma run_issued d ops : issued ops (run (NewAuthManager d) ops).
Proof.
  induction ops as [|o ops IH] using rev_ind.
  - intros tok t. simpl. by rewrite lookup_empty.
  - unfold run. rewrite foldl_app. simpl. by apply step_issued.
Qed.

(** X24.  No token is accepted that was not issued: whatever was done since
    the manager was made, if [Authenticate] accepts a token and returns
    a user, then a [Login] of that user returned that token. *)
Theorem Authenticate_only_issued_tokens d ops token now1 now2 username :
  (Authenticate (run (NewAuthManager d) ops) token now1 now2).2 = (username, None) ->
  exists now, OpLogin username (token, None) now ∈ ops.
Proof.
  intros H. unfold Authenticate in H.
  destruct (tokens (run (NewAuthManager d) ops) !! token) as [t|] eqn:E; [|done].
  destruct (After now1 (Expiration t)); [done|]. simpl in H. injection H as <-.
  by destruct (run_issued d ops token t E) as [_ ?].
Qed.

(** *** The properties on an example *)

Definition am1 : AuthManager :=
  (Login (NewAuthManager 3600%Z) "alice" ("tok1", None) 1000%Z).1.

Lemma Login_then_Authenticate_witness :
  let am' := (Login am1 "alice" ("tok2", None) 2000%Z).1 in
  (Login am1 "alice" ("tok2", None) 2000%Z).2 = ("tok2", None)
  /\ (Authenticate am' "tok2" 2500%Z 2501%Z).2 = ("alice", None)
  /\ tokens (Authenticate am' "tok2" 2500%Z 2501%Z).1 !! "tok2"
     = Some (mkToken "alice" "tok2" (2501 + tokenDuration am1)%Z)
  /\ (forall old, userTokens am1 !! "alice" = Some old -> old <> "tok2" ->
        forall t1 t2, Authenticate am' old t1 t2 = (am', rejected)).
Proof.
  apply (Login_then_Authenticate am1 "alice" "tok2" 2000%Z 2500%Z 2501%Z).
  vm_compute. discriminate.
Defined.

Lemma Login_failure_revokes_witness :
  let am' := (Login am1 "alice" ("", Some "no entropy") 2000%Z).1 in
  (Login am1 "alice" ("", Some "no entropy") 2000%Z).2
  = ("", Some (String.append "failed to generate token: " "no entropy"))
  /\ userTokens am' = userTokens am1
  /\ forall t1 t2, Authenticate am' "tok1" t1 t2 = (am', rejected).
Proof.
  apply (Login_failure_revokes am1 "alice" "" "no entropy" 2000%Z "tok1").
  unfold am1, Login. simpl. by rewrite lookup_insert_eq.
Defined.

Lemma Authenticate_only_issued_tokens_witness :
  exists now, OpLogin "alice" ("tok1", None) now
              ∈ [OpLogin "alice" ("tok1", None) 1000%Z; OpLogout "nobody"].
Proof.
  apply (Authenticate_only_issued_tokens 3600%Z
           [OpLogin "alice" ("tok1", None) 1000%Z; OpLogout "nobody"]
           "tok1" 1500%Z 1501%Z "alice").
  vm_compute. reflexivity.
Defined.

End auth_spec.

(** ** The patch engine (package handlers) *)

Module handlers.
Import skiplist sse contents.

(** [strings.ReplaceAll(s, old, new)] for an [old] of the two bytes
    [a], [b]: the instances of [old] that do not overlap are replaced
    from left to right. *)
Fixpoint ReplaceAll2 (a b : Ascii.ascii) (new s : string) : string :=
  match s with
  | String c ((String d s'') as s') =>
      if Ascii.eqb c a && Ascii.eqb d b
      then String.append new (ReplaceAll2 a b new s'')
      else String c (ReplaceAll2 a b new s')
  | _ => s
  end.

(** [decodeJSONPointerToken] *)
Definition decodeJSONPointerToken (token : string) : string :=
  let token := ReplaceAll2 "~" "1" "/" token in
  let token := ReplaceAll2 "~" "0" "~" token in
  token.

Definition digit_of (c : Ascii.ascii) : option Z :=
  let n := Ascii.nat_of_ascii c in
  if Nat.leb 48 n && Nat.leb n 57 then Some (Z.of_nat (n - 48)) else None.

Fixpoint digits (s : string) (acc : Z) : option Z :=
  match s with
  | "" => Some acc
  | String c s' =>
      match digit_of c with
      | Some d => digits s' (10 * acc + d)%Z
      | None => None
      end
  end.

(** [strconv.Atoi]: an optional sign and decimal digits, in the range
    of a 64-bit [int]; [None] is a non-nil error. *)
Definition Atoi (s : string) : option Z :=
  let '(neg, body) :=
    match s with
    | String "+" r => (false, r)
    | String "-" r => (true, r)
    | _ => (false, s)
    end in
  match body with
  | "" => None
  | _ =>
      match digits body 0 with
      | Some v =>
          let v := if neg then (- v)%Z else v in
          if Z.leb (- 2 ^ 63) v && Z.leb v (2 ^ 63 - 1) then Some v else None
      | None => None
      end
  end.

(** [type PatchResponse] *)
Record PatchResponse : Type := mkPatchResponse {
  URI : string;
  PatchFailed : bool;
  Message : string
}.

(** The readings of the clock, the address of the new index of
    collections and the coins that one call of [PutDocument] uses. *)
Record PutEnv : Type := mkPutEnv {
  env_now1 : Z;
  env_now2 : Z;
  env_fresh : nat;
  env_coins : coins
}.

Section Patch.
(** Go's [float64] and the type [jsondata.JSONValue]. *)
Context {float64 JSONValue : Type}.

(** The values of type [interface{}] in a decoded document: what
    [json.Unmarshal] builds, and the values of the patches. *)
#[warnings="-register-all"]
Inductive interface : Type :=
| Inil
| Ibool (b : bool)
| Ifloat64 (x : float64)
| Istring (s : string)
| Islice (l : list interface)
| Imap (m : gmap string interface)
| IJSONValue (v : JSONValue).

(** [jsondata.NewJSONValue] and [(JSONValue) Equal] *)
Context (NewJSONValue : interface -> JSONValue * option error).
Context (Equal : JSONValue -> JSONValue -> bool).

(** [json.Unmarshal(content, &jsonContent)] for a nil
    [jsonContent map[string]interface{}]: the map, [None] when it is
    left nil, and the error; and [json.Marshal(jsonContent)]. *)
Context (Unmarshal : string -> option (gmap string interface) * option error).
Context (Marshal : gmap string interface -> string * option error).

(** [type PatchOperation] *)
Record PatchOperation : Type := mkPatchOperation {
  Op : string;
  Path : string;
  Value : JSONValue
}.

(** What a visitor returns: the map as it has changed it, or an
    error, the map being then as it was. *)
Definition visited : Type := outcome (gmap string interface + error).

(** strings.Split(strings.TrimPrefix(v.Path, "/"), "/") *)
Definition pathParts (Path : string) : list string :=
  Split (TrimPrefix Path "/") "/"%char.

(** The traversal that the three visitors share: the loop over
    [pathParts] from [curr], and then [final] on the map reached, with
    the last part decoded.  After an array the next part is its index,
    and the loop passes over it; when that index was the last part, it
    is the final key as well. *)
Fixpoint visit (final : gmap string interface -> string -> visited)
    (Path : string) (curr : gmap string interface) (parts : list string) : visited :=
  match parts with
  | [] => Panic
  | [last] => final curr (decodeJSONPointerToken last)
  | p :: ((next :: rest') as rest) =>
      let part := decodeJSONPointerToken p in
      match curr !! part with
      | Some (Imap nextMap) =>
          r ← visit final Path nextMap rest;
          match r with
          | inl nextMap' => Done (inl (<[part := Imap nextMap']> curr))
          | inr err => Done (inr err)
          end
      | Some (Islice nextArray) =>
          match Atoi next with
          | None => Done (inr (String.append "invalid array index at path " Path))
          | Some index =>
              if Z.ltb index 0 || Z.leb (Z.of_nat (length nextArray)) index
              then Done (inr (String.append "invalid array index at path " Path))
              else
                match nextArray !! Z.to_nat index with
                | Some (Imap nextMap) =>
                    r ← match rest' with
                        | [] => final nextMap (decodeJSONPointerToken next)
                        | _ => visit final Path nextMap rest'
                        end;
                    match r with
                    | inl nextMap' =>
                        Done (inl (<[part := Islice (<[Z.to_nat index := Imap nextMap']>
                                                       nextArray)]> curr))
                    | inr err => Done (inr err)
                    end
                | _ =>
                    Done (inr (String.concat ""
                                 ["element at path "; Path; " is not a valid object"]))
                end
          end
      | _ =>
          Done (inr (String.concat ""
                       ["path "; Path; " does not resolve to an object or array"]))
      end
  end.

(** A visitor on [data], which is nil when it is [None]: reading a nil
    map finds nothing, writing to it panics. *)
Definition VisitMap (final : gmap string interface -> string -> visited)
    (writes : bool) (Path : string) (data : option (gmap string interface)) : visited :=
  match data with
  | Some m => visit final Path m (pathParts Path)
  | None =>
      visit (fun curr finalKey => if writes then Panic else final curr finalKey)
            Path ∅ (pathParts Path)
  end.

(** [(v *ObjectAddVisitor) VisitMap] *)
Definition ObjectAdd_final (value : JSONValue) : gmap string interface -> string -> visited :=
  fun curr finalKey => Done (inl (<[finalKey := IJSONValue value]> curr)).

Definition ObjectAddVisitor_VisitMap (Path : string) (value : JSONValue)
    (data : option (gmap string interface)) : visited :=
  VisitMap (ObjectAdd_final value) true Path data.

(** [(v *ArrayAddVisitor) VisitMap] *)
Definition not_an_array (Path : string) : error :=
  String.concat "" ["value at path "; Path; " is not an array"].

Definition ArrayAdd_final (Path : string) (value : JSONValue)
  : gmap string interface -> string -> visited :=
  fun curr finalKey =>
    match curr !! finalKey with
    | Some (Islice arr) =>
        Done (inl (<[finalKey := Islice (arr ++ [IJSONValue value])]> curr))
    | _ => Done (inr (not_an_array Path))
    end.

Definition ArrayAddVisitor_VisitMap (Path : string) (value : JSONValue)
    (data : option (gmap string interface)) : visited :=
  VisitMap (ArrayAdd_final Path value) false Path data.

(** The loop of [(v *ArrayRemoveVisitor) VisitMap] over the elements
    from index [i] on: the index of the first one equal to the value,
    [inl None] when there is none, or the error of a conversion. *)
Fixpoint ArrayRemove_scan (value : JSONValue) (elems : list interface) (i : nat)
  : option nat + error :=
  match elems with
  | [] => inl None
  | elem :: elems' =>
      match NewJSONValue elem with
      | (_, Some err) =>
          inr (String.append "failed to convert element to JSONValue: " err)
      | (elemJSONValue, None) =>
          if Equal value elemJSONValue then inl (Some i)
          else ArrayRemove_scan value elems' (S i)
      end
  end.

(** [(v *ArrayRemoveVisitor) VisitMap] *)
Definition ArrayRemove_final (Path : string) (value : JSONValue)
  : gmap string interface -> string -> visited :=
  fun curr finalKey =>
    match curr !! finalKey with
    | Some (Islice arr) =>
        match ArrayRemove_scan value arr 0 with
        | inr err => Done (inr err)
        | inl (Some i) =>
            Done (inl (<[finalKey := Islice (take i arr ++ drop (S i) arr)]> curr))
        | inl None =>
            Done (inr (String.append "value not found in array at path " Path))
        end
    | _ => Done (inr (not_an_array Path))
    end.

Definition ArrayRemoveVisitor_VisitMap (Path : string) (value : JSONValue)
    (data : option (gmap string interface)) : visited :=
  VisitMap (ArrayRemove_final Path value) false Path data.

(** What [applyObjectAdd], [applyArrayAdd] and [applyArrayRemove] have
    in common, [VisitMap] being the method of the visitor and [failed]
    the message for its error: unmarshal the body, visit, marshal,
    store with [PutDocument] in mode [overwrite].  The result is the
    document of the caller, the container and the error. *)
Definition apply_visitor
    (VisitMap : string -> JSONValue -> option (gmap string interface) -> visited)
    (failed : string) (fuel : nat) (document : Document) (path : string)
    (value : JSONValue) (documentList : SkipList Document) (user : string)
    (schema : ValidSchema) (e : PutEnv)
  : outcome (Document * SkipList Document * option error) :=
  let '(jsonContent, err) := Unmarshal (Content document) in
  match err with
  | Some err =>
      Done (document, documentList,
            Some (String.append "failed to unmarshal document content: " err))
  | None =>
      r ← VisitMap path value jsonContent;
      match r with
      | inr err => Done (document, documentList, Some (String.append failed err))
      | inl jsonContent' =>
          let '(bytes, err) := Marshal jsonContent' in
          let document :=
            mkDocument (Name document) (contents.Path document) bytes
                       (DocMetadata document) (Collections document)
                       (Subscribers document) in
          match err with
          | Some err =>
              Done (document, documentList,
                    Some (String.append "failed to marshal modified document content: " err))
          | None =>
              '(documentList', _, err) ←
                PutDocument fuel documentList (Name document) (Content document) user
                            "overwrite" schema (env_now1 e) (env_now2 e) (env_fresh e)
                            (env_coins e);
              match err with
              | Some err =>
                  Done (document, documentList',
                        Some (String.append "failed to update document in skiplist: " err))
              | None => Done (document, documentList', None)
              end
          end
      end
  end.

(** [applyObjectAdd] *)
Definition applyObjectAdd := apply_visitor ObjectAddVisitor_VisitMap "failed to add object: ".

(** [applyArrayAdd] *)
Definition applyArrayAdd :=
  apply_visitor ArrayAddVisitor_VisitMap "failed to add array element: ".

(** [applyArrayRemove] *)
Definition applyArrayRemove :=
  apply_visitor ArrayRemoveVisitor_VisitMap "failed to remove array element: ".

(** [applyPatch] *)
Definition applyPatch (fuel : nat) (document : Document) (patch : PatchOperation)
    (documentList : SkipList Document) (user : string) (schema : ValidSchema)
    (e : PutEnv) : outcome (Document * SkipList Document * option error) :=
  if String.eqb (Op patch) "ArrayAdd"
  then applyArrayAdd fuel document (Path patch) (Value patch) documentList user schema e
  else if String.eqb (Op patch) "ArrayRemove"
  then applyArrayRemove fuel document (Path patch) (Value patch) documentList user schema e
  else if String.eqb (Op patch) "ObjectAdd"
  then applyObjectAdd fuel document (Path patch) (Value patch) documentList user schema e
  else Done (document, documentList,
             Some (String.append "unsupported patch operation: " (Op patch))).

(** supportedOps[patch.Op] *)
Definition supportedOps (op : string) : bool :=
  String.eqb op "ArrayAdd" || String.eqb op "ArrayRemove" || String.eqb op "ObjectAdd".

(** The loop of [PatchHandler] over the operations, from the [i]-th
    one on: it stops at the first one that fails.  The result is the
    document found, the container, [patchFailed] and [message]. *)
Fixpoint PatchHandler_loop (fuel : nat) (patchOps : list PatchOperation) (i : nat)
    (documentFound : Document) (documentList : SkipList Document)
    (username : string) (schema : ValidSchema) (env : nat -> PutEnv)
  : outcome (Document * SkipList Document * bool * string) :=
  match patchOps with
  | [] => Done (documentFound, documentList, false, "")
  | patch :: rest =>
      if negb (supportedOps (Op patch))
      then Done (documentFound, documentList, true,
                 String.append "Invalid operation type: " (Op patch))
      else
        '(documentFound', documentList', err) ←
          applyPatch fuel documentFound patch documentList username schema (env i);
        match err with
        | Some err =>
            Done (documentFound', documentList', true,
                  String.append "Patch failed: " err)
        | None =>
            PatchHandler_loop fuel rest (S i) documentFound' documentList'
                              username schema env
        end
  end.

(** [PatchHandler], from the point where the document has been found
    and the operations have been decoded: [documentList] is the
    container of the document ([collectionFound.Documents] or
    [databaseFound.Documents]).  The result is the document found, the
    container and the response. *)
Definition PatchHandler_patches (fuel : nat) (pathToReturn : string)
    (patchOps : list PatchOperation) (documentFound : Document)
    (documentList : SkipList Document) (username : string) (schema : ValidSchema)
    (env : nat -> PutEnv)
  : outcome (Document * SkipList Document * PatchResponse) :=
  let originalContent := Content documentFound in
  '(documentFound', documentList', patchFailed, message) ←
    PatchHandler_loop fuel patchOps 0 documentFound documentList username schema env;
  if (patchFailed : bool)
  then
    let documentFound' :=
      mkDocument (Name documentFound') (contents.Path documentFound') originalContent
                 (DocMetadata documentFound') (Collections documentFound')
                 (Subscribers documentFound') in
    Done (documentFound', documentList', mkPatchResponse pathToReturn patchFailed message)
  else
    Done (documentFound', documentList',
          mkPatchResponse pathToReturn patchFailed "patch applied").

End Patch.

End handlers.

Module handlers_spec.
Import skiplist skiplist_rep skiplist_abs skiplist_spec skiplist_found skiplist_map
       sse sse_spec contents handlers.

(** *** JSON pointer tokens *)

(** The escaping of RFC 6901, which [decodeJSONPointerToken] undoes:
    [~] is written [~0] and [/] is written [~1]. *)
Fixpoint escape (s : string) : string :=
  match s with
  | "" => ""
  | String c s' =>
      if Ascii.eqb c "~" then String "~" (String "0" (escape s'))
      else if Ascii.eqb c "/" then String "~" (String "1" (escape s'))
      else String c (escape s')
  end.

(** The escaping of [~] alone. *)
Fixpoint escape_tilde (s : string) : string :=
  match s with
  | "" => ""
  | String c s' =>
      if Ascii.eqb c "~" then String "~" (String "0" (escape_tilde s'))
      else String c (escape_tilde s')
  end.

Lemma ReplaceAll2_other a b new c (s : string) : Ascii.eqb c a = false ->
  ReplaceAll2 a b new (String c s) = String c (ReplaceAll2 a b new s).
Proof. intros H. destruct s as [|d s]; [done|]. simpl. by rewrite H. Qed.

Lemma ReplaceAll2_hit a b new (s : string) :
  ReplaceAll2 a b new (String a (String b s)) = String.append new (ReplaceAll2 a b new s).
Proof. simpl. by rewrite !Ascii.eqb_refl. Qed.

Lemma ReplaceAll2_miss a b new d (s : string) : Ascii.eqb d b = false ->
  ReplaceAll2 a b new (String a (String d s))
  = String a (ReplaceAll2 a b new (String d s)).
Proof.
  intros H. change (ReplaceAll2 a b new (String a (String d s)))
    with (if Ascii.eqb a a && Ascii.eqb d b
          then String.append new (ReplaceAll2 a b new s)
          else String a (ReplaceAll2 a b new (String d s))).
  by rewrite H, andb_false_r.
Qed.

Lemma escape_step1 (s : string) : ReplaceAll2 "~" "1" "/" (escape s) = escape_tilde s.
Proof.
  induction s as [|c s IH]; [done|]. cbn [escape escape_tilde].
  destruct (Ascii.eqb_spec c "~"%char) as [->|Hc].
  - rewrite ReplaceAll2_miss by done. rewrite ReplaceAll2_other by done. by rewrite IH.
  - destruct (Ascii.eqb_spec c "/"%char) as [->|Hs].
    + rewrite ReplaceAll2_hit. by rewrite IH.
    + rewrite ReplaceAll2_other by (by apply Ascii.eqb_neq). by rewrite IH.
Qed.

Lemma escape_step2 (s : string) : ReplaceAll2 "~" "0" "~" (escape_tilde s) = s.
Proof.
  induction s as [|c s IH]; [done|]. cbn [escape_tilde].
  destruct (Ascii.eqb_spec c "~"%char) as [->|Hc].
  - rewrite ReplaceAll2_hit. by rewrite IH.
  - rewrite ReplaceAll2_other by (by apply Ascii.eqb_neq). by rewrite IH.
Qed.

Lemma decode_escape (s : string) : decodeJSONPointerToken (escape s) = s.
Proof. unfold decodeJSONPointerToken. by rewrite escape_step1, escape_step2. Qed.

Lemma escape_no_slash (s : string) : has_char "/" (escape s) = false.
Proof.
  induction s as [|c s IH]; [done|]. cbn [escape].
  destruct (Ascii.eqb_spec c "~"%char) as [->|Hc]; [by simpl|].
  destruct (Ascii.eqb_spec c "/"%char) as [->|Hs]; [by simpl|].
  simpl. rewrite IH. by apply Ascii.eqb_neq in Hs as ->.
Qed.

(** The path of a member of the root object. *)
Definition member_path (key : string) : string := String "/" (escape key).

Lemma pathParts_member (key : string) : pathParts (member_path key) = [escape key].
Proof.
  unfold pathParts, member_path.
  change (TrimPrefix (String "/" (escape key)) "/") with (escape key).
  apply Split_single, escape_no_slash.
Qed.

(** X25.  [decodeJSONPointerToken] undoes the escaping of RFC 6901, for every
    key; so a pointer with one escaped token names the member of that
    key, slashes and tildes included. *)
Theorem decodeJSONPointerToken_undoes_escape (key : string) :
  decodeJSONPointerToken (escape key) = key
  /\ pathParts (member_path key) = [escape key].
Proof. split; [apply decode_escape|apply pathParts_member]. Qed.

Section Patch.
Context {float64 JSONValue : Type}.
Local Abbreviation interface := (@handlers.interface float64 JSONValue).
Local Abbreviation nil_map := (@None (gmap string interface)).
Context (NewJSONValue : interface -> JSONValue * option error).
Context (Equal : JSONValue -> JSONValue -> bool).
Context (Unmarshal : string -> option (gmap string interface) * option error).
Context (Marshal : gmap string interface -> string * option error).
Implicit Types (data curr : gmap string interface) (value : JSONValue).

(** *** The visitors on the members of the root object *)

(** X26.  [ObjectAdd] of a member of the root object never fails: the member
    is set to the value, whether or not the object had it, and the other
    members stay.  On a nil map (a body that is the JSON [null]) the
    assignment panics. *)
Theorem ObjectAdd_sets_member key value data :
  ObjectAddVisitor_VisitMap (member_path key) value (Some data)
  = Done (inl (<[key := IJSONValue value]> data))
  /\ ObjectAddVisitor_VisitMap (member_path key) value nil_map = Panic.
Proof.
  unfold ObjectAddVisitor_VisitMap, VisitMap. rewrite pathParts_member. cbn [visit].
  by rewrite decode_escape.
Qed.

(** X27.  [ArrayAdd] on a member of the root object: when the member is an
    array the value is appended at its end; when the object has no such
    member or the member is not an array, the error says so and
    nothing changes.  A nil map gives that error too. *)
Theorem ArrayAdd_appends key value data :
  ArrayAddVisitor_VisitMap (member_path key) value (Some data)
  = Done (match data !! key with
          | Some (Islice arr) => inl (<[key := Islice (arr ++ [IJSONValue value])]> data)
          | _ => inr (not_an_array (member_path key))
          end)
  /\ ArrayAddVisitor_VisitMap (member_path key) value nil_map
     = Done (inr (not_an_array (member_path key))).
Proof.
  unfold ArrayAddVisitor_VisitMap, VisitMap. rewrite pathParts_member. cbn [visit].
  rewrite decode_escape. unfold ArrayAdd_final. split.
  - by destruct (data !! key) as [[| | | | | |]|].
  - by rewrite lookup_empty.
Qed.

Lemma ArrayRemove_scan_spec value (arr : list interface) : forall i,
  Forall (fun elem => (NewJSONValue elem).2 = None) arr ->
  ArrayRemove_scan NewJSONValue Equal value arr i
  = inl (match list_find (fun elem => Equal value (NewJSONValue elem).1 = true) arr with
         | Some (j, _) => Some (i + j)
         | None => None
         end).
Proof.
  induction arr as [|elem arr IH]; intros i Hok; [done|].
  apply Forall_cons in Hok as [Helem Hok]. cbn [ArrayRemove_scan list_find].
  destruct (NewJSONValue elem) as [ej err] eqn:E. simpl in Helem. subst err.
  simpl. destruct (Equal value ej) eqn:Heq.
  - rewrite decide_True by done. simpl. by rewrite Nat.add_0_r.
  - rewrite decide_False by done. rewrite IH by done.
    destruct (list_find _ arr) as [[j x]|]; simpl; [|done].
    do 2 f_equal. lia.
Qed.

(** X28.  [ArrayRemove] on a member of the root object that is an array whose
    elements all convert to [JSONValue]: the first element equal to the
    value is taken out, the elements before and after it stay in order;
    when no element is equal, the error is "value not found" and
    nothing changes. *)
Theorem ArrayRemove_removes_first key value data arr :
  data !! key = Some (Islice arr) ->
  Forall (fun elem => (NewJSONValue elem).2 = None) arr ->
  ArrayRemoveVisitor_VisitMap NewJSONValue Equal (member_path key) value (Some data)
  = Done (match list_find (fun elem => Equal value (NewJSONValue elem).1 = true) arr with
          | Some (i, _) => inl (<[key := Islice (take i arr ++ drop (S i) arr)]> data)
          | None => inr (String.append "value not found in array at path "
                                       (member_path key))
          end).
Proof.
  intros Hkey Hok. unfold ArrayRemoveVisitor_VisitMap, VisitMap.
  rewrite pathParts_member. cbn [visit]. rewrite decode_escape.
  unfold ArrayRemove_final. rewrite Hkey, (ArrayRemove_scan_spec value arr 0 Hok).
  by destruct (list_find _ arr) as [[i x]|].
Qed.

(** X29.  When the path goes through an array, the part after the array is
    its index, and the index is the last part: the value is stored in
    the object at that index, under the key that spells the index. *)
Theorem ObjectAdd_at_array_index key idx n value data arr obj :
  data !! key = Some (Islice arr) ->
  Atoi idx = Some (Z.of_nat n) -> has_char "/" idx = false ->
  arr !! n = Some (Imap obj) ->
  ObjectAddVisitor_VisitMap (String.append (member_path key) (String "/" idx)) value
                            (Some data)
  = Done (inl (<[key := Islice (<[n := Imap (<[decodeJSONPointerToken idx
                                                := IJSONValue value]> obj)]> arr)]> data)).
Proof.
  intros Hkey Hidx Hslash Hn. unfold ObjectAddVisitor_VisitMap, VisitMap.
  assert (pathParts (String.append (member_path key) (String "/" idx))
          = [escape key; idx]) as ->.
  { unfold pathParts, member_path. rewrite append_cons.
    change (TrimPrefix (String "/" ?s) "/") with s.
    rewrite (Split_app (escape key) idx "/") by apply escape_no_slash.
    by rewrite (Split_single idx) by done. }
  cbn [visit]. rewrite decode_escape, Hkey, Hidx.
  pose proof (lookup_lt_Some _ _ _ Hn) as Hlt.
  assert (Z.ltb (Z.of_nat n) 0 || Z.leb (Z.of_nat (length arr)) (Z.of_nat n) = false) as ->.
  { apply orb_false_iff. split; [apply Z.ltb_ge|apply Z.leb_gt]; lia. }
  rewrite Nat2Z.id, Hn. done.
Qed.

(** *** The batch of a PATCH request *)

(** The visitor of an operation that is supported. *)
Definition visitor_of (patch : @PatchOperation JSONValue)
  : option (gmap string interface) -> visited :=
  if String.eqb (Op patch) "ArrayAdd"
  then ArrayAddVisitor_VisitMap (Path patch) (Value patch)
  else if String.eqb (Op patch) "ArrayRemove"
  then ArrayRemoveVisitor_VisitMap NewJSONValue Equal (Path patch) (Value patch)
  else ObjectAddVisitor_VisitMap (Path patch) (Value patch).

(** What one operation makes of a body, the container left aside: the
    new body, or [None] when the operation fails: it is not supported,
    the body does not unmarshal, the visitor fails, the result does
    not marshal, or the schema rejects it. *)
Definition op_content (schema : ValidSchema) (patch : @PatchOperation JSONValue)
    (content : string) : outcome (option string) :=
  if negb (supportedOps (Op patch)) then Done None
  else
    match Unmarshal content with
    | (_, Some _) => Done None
    | (jsonContent, None) =>
        r ← visitor_of patch jsonContent;
        match r with
        | inr _ => Done None
        | inl jsonContent' =>
            match Marshal jsonContent' with
            | (_, Some _) => Done None
            | (bytes, None) =>
                match snd (schema bytes) with
                | Some _ => Done None
                | None => Done (Some bytes)
                end
            end
        end
    end.

(** The body after the operations of a batch up to the first one that
    fails, and whether one fails. *)
Fixpoint batch_content (schema : ValidSchema) (patchOps : list (@PatchOperation JSONValue))
    (content : string) : outcome (string * bool) :=
  match patchOps with
  | [] => Done (content, false)
  | patch :: rest =>
      r ← op_content schema patch content;
      match r with
      | Some content' => batch_content schema rest content'
      | None => Done (content, true)
      end
  end.

Definition with_content (d : Document) (bytes : string) : Document :=
  mkDocument (Name d) (contents.Path d) bytes (DocMetadata d) (Collections d)
             (Subscribers d).

Lemma applyPatch_supported fuel document patch documentList user schema e :
  supportedOps (Op patch) = true ->
  exists failed,
    applyPatch NewJSONValue Equal Unmarshal Marshal fuel document patch documentList
               user schema e
    = apply_visitor Unmarshal Marshal (fun _ _ => visitor_of patch) failed fuel document
                    (Path patch) (Value patch) documentList user schema e.
Proof.
  intros Hs. unfold applyPatch, visitor_of, supportedOps in *.
  destruct (String.eqb (Op patch) "ArrayAdd"); [by eexists|].
  destruct (String.eqb (Op patch) "ArrayRemove"); [by eexists|].
  destruct (String.eqb (Op patch) "ObjectAdd"); [by eexists|done].
Qed.

(** One operation on a document that is in the container with the same
    body: when the operation succeeds the new body is in the container
    at once. *)
Lemma applyPatch_spec fuel document patch documentList (m : gmap string Document)
    user schema e d :
  Abs zeroDocument documentList m -> Name document <> "" ->
  m !! Name document = Some d -> Content d = Content document ->
  supportedOps (Op patch) = true ->
  match op_content schema patch (Content document) with
  | Done (Some bytes) =>
      exists documentList' m' d',
        applyPatch NewJSONValue Equal Unmarshal Marshal (S fuel) document patch
                   documentList user schema e
        = Done (with_content document bytes, documentList', None)
        /\ Abs zeroDocument documentList' m' /\ m' !! Name document = Some d'
        /\ Content d' = bytes
  | Done None =>
      exists document' err,
        applyPatch NewJSONValue Equal Unmarshal Marshal (S fuel) document patch
                   documentList user schema e
        = Done (document', documentList, Some err)
        /\ Name document' = Name document
  | Panic =>
      applyPatch NewJSONValue Equal Unmarshal Marshal (S fuel) document patch
                 documentList user schema e = Panic
  | Timeout =>
      applyPatch NewJSONValue Equal Unmarshal Marshal (S fuel) document patch
                 documentList user schema e = Timeout
  end.
Proof.
  intros HA Hk Hm Hsync Hs.
  destruct (applyPatch_supported (S fuel) document patch documentList user schema e Hs)
    as [failed ->].
  unfold op_content, apply_visitor. rewrite Hs. cbn [negb].
  destruct (Unmarshal (Content document)) as [jsonContent [err|]]; [by eexists _, _|].
  destruct (visitor_of patch jsonContent) as [[jsonContent'|err]| |]; simpl;
    [|by eexists _, _|done|done].
  destruct (Marshal jsonContent') as [bytes [err|]]; [by eexists _, _|].
  cbn [Name Content]. unfold PutDocument.
  destruct (snd (schema bytes)) as [serr|] eqn:Hschema.
  - rewrite (Upsert_Abs_error zeroDocument documentList m (Name document) _ _ fuel serr
               HA Hk).
    + rewrite obind_Done. by eexists _, _.
    + left. by rewrite Hm.
    + unfold result_of. rewrite Hm. unfold PutDocument_updateCheck. simpl.
      by rewrite Hschema.
  - destruct (Upsert_Abs_present zeroDocument documentList m (Name document)
                (PutDocument_updateCheck bytes user "overwrite" schema (env_now1 e)
                   (env_now2 e) (env_fresh e))
                (env_coins e) fuel d
                (mkDocument (Name document) "" bytes
                   (mkMetadata (CreatedBy (DocMetadata d)) (CreatedAt (DocMetadata d))
                               user (env_now1 e)) None [])
                HA Hk Hm) as (dl' & Hrun & HA' & _).
    { unfold PutDocument_updateCheck. simpl. by rewrite Hschema. }
    rewrite Hrun, obind_Done. eexists dl', _, _. split; [done|]. split; [exact HA'|].
    split; [apply lookup_insert_eq|done].
Qed.

Lemma PatchHandler_loop_spec fuel user schema env : forall patchOps i documentFound
    documentList (m : gmap string Document) d,
  Abs zeroDocument documentList m -> Name documentFound <> "" ->
  m !! Name documentFound = Some d -> Content d = Content documentFound ->
  match batch_content schema patchOps (Content documentFound) with
  | Done (stored, failed) =>
      exists documentFound' documentList' message m' d',
        PatchHandler_loop NewJSONValue Equal Unmarshal Marshal (S fuel) patchOps i
                          documentFound documentList user schema env
        = Done (documentFound', documentList', failed, message)
        /\ Name documentFound' = Name documentFound
        /\ Abs zeroDocument documentList' m'
        /\ m' !! Name documentFound = Some d' /\ Content d' = stored
        /\ (failed = false -> Content documentFound' = stored)
  | Panic =>
      PatchHandler_loop NewJSONValue Equal Unmarshal Marshal (S fuel) patchOps i
                        documentFound documentList user schema env = Panic
  | Timeout =>
      PatchHandler_loop NewJSONValue Equal Unmarshal Marshal (S fuel) patchOps i
                        documentFound documentList user schema env = Timeout
  end.
Proof.
  induction patchOps as [|patch rest IH]; intros i doc dl m d HA Hk Hm Hsync.
  - simpl. by eexists doc, dl, _, m, d.
  - cbn [batch_content PatchHandler_loop].
    destruct (supportedOps (Op patch)) eqn:Hs; cbn [negb].
    + pose proof (applyPatch_spec fuel doc patch dl m user schema (env i) d
                    HA Hk Hm Hsync Hs) as Hone.
      destruct (op_content schema patch (Content doc)) as [[bytes|]| |]; simpl.
      * destruct Hone as (dl' & m' & d' & -> & HA' & Hm' & Hc').
        rewrite obind_Done.
        specialize (IH (S i) (with_content doc bytes) dl' m' d' HA' Hk Hm'
                      ltac:(by rewrite Hc')).
        cbn [with_content Content Name] in IH.
        destruct (batch_content schema rest bytes) as [[stored failed]| |]; [|done|done].
        destruct IH as (doc2 & dl2 & msg & m2 & d2 & -> & Hn2 & HA2 & Hm2 & Hc2 & Hf2).
        by eexists doc2, dl2, msg, m2, d2.
      * destruct Hone as (doc' & err & -> & Hn'). rewrite obind_Done.
        eexists doc', dl, _, m, d. split; [done|]. split; [done|]. split; [done|].
        split; [done|]. split; [done|]. done.
      * by rewrite Hone.
      * by rewrite Hone.
    + unfold op_content. rewrite Hs. simpl.
      eexists doc, dl, _, m, d. split; [done|]. split; [done|]. split; [done|].
      split; [done|]. split; [done|]. done.
Qed.

(** X30.  A PATCH batch is not undone when it fails.  For a document that is
    in the container with the body the handler has read: the handler
    returns, it reports [patchFailed] exactly when an operation of the
    batch fails, and the body then in the container is the body after
    the operations that precede the first failure, each of them having
    been stored as it succeeded; the body that the handler puts back
    is that of its own copy of the document. *)
Theorem PatchHandler_stores_successful_prefix fuel pathToReturn patchOps
    documentFound documentList (m : gmap string Document) user schema env d :
  Abs zeroDocument documentList m -> Name documentFound <> "" ->
  m !! Name documentFound = Some d -> Content d = Content documentFound ->
  match batch_content schema patchOps (Content documentFound) with
  | Done (stored, failed) =>
      exists documentFound' documentList' message d',
        PatchHandler_patches NewJSONValue Equal Unmarshal Marshal (S fuel) pathToReturn
                             patchOps documentFound documentList user schema env
        = Done (documentFound', documentList',
                mkPatchResponse pathToReturn failed message)
        /\ GetDocument documentList' (Name documentFound) = Done (d', None)
        /\ Content d' = stored
        /\ Content documentFound'
           = (if failed then Content documentFound else stored)
  | Panic =>
      PatchHandler_patches NewJSONValue Equal Unmarshal Marshal (S fuel) pathToReturn
                           patchOps documentFound documentList user schema env = Panic
  | Timeout =>
      PatchHandler_patches NewJSONValue Equal Unmarshal Marshal (S fuel) pathToReturn
                           patchOps documentFound documentList user schema env = Timeout
  end.
Proof.
  intros HA Hk Hm Hsync. unfold PatchHandler_patches.
  pose proof (PatchHandler_loop_spec fuel user schema env patchOps 0 documentFound
                documentList m d HA Hk Hm Hsync) as Hloop.
  destruct (batch_content schema patchOps (Content documentFound))
    as [[stored failed]| |]; [|by rewrite Hloop..].
  destruct Hloop as (doc' & dl' & msg & m' & d' & -> & Hn & HA' & Hm' & Hc' & Hf).
  rewrite obind_Done.
  assert (GetDocument dl' (Name documentFound) = Done (d', None)) as HG.
  { unfold GetDocument. rewrite (Find_Abs zeroDocument dl' m' _ HA' Hk).
    unfold result_of. by rewrite Hm'. }
  destruct failed.
  - eexists _, dl', msg, d'. split; [done|]. by split.
  - eexists doc', dl', _, d'. split; [done|]. split; [done|]. split; [done|]. by apply Hf.
Qed.

End Patch.

(** *** The properties on an example *)

(** For the example: values that are strings, compared as strings, and
    a codec for the two bodies [{}] and [{a}], the second one standing
    for an object with a member [a]; [null] unmarshals to the nil
    map. *)
Definition ex_interface : Type := @interface Z string.

Definition ex_NewJSONValue (x : ex_interface) : string * option error :=
  match x with
  | Istring s => (s, None)
  | IJSONValue v => (v, None)
  | _ => ("", Some "unsupported value")
  end.

Definition ex_Unmarshal (content : string)
  : option (gmap string ex_interface) * option error :=
  if String.eqb content "null" then (None, None)
  else if String.eqb content "{}" then (Some ∅, None)
  else if String.eqb content "{a}" then (Some {[ "a" := Istring "1" ]}, None)
  else (None, Some "invalid character").

Definition ex_Marshal (m : gmap string ex_interface) : string * option error :=
  match m !! "a" with
  | Some _ => ("{a}", None)
  | None => ("{}", None)
  end.

Definition ex_env : nat -> PutEnv := fun i => mkPutEnv 300 301 9 tails.

Definition ex_batch : list (@PatchOperation string) :=
  [mkPatchOperation "ObjectAdd" "/a" "1"; mkPatchOperation "Move" "/a" "1"].

Lemma ArrayRemove_removes_first_witness :
  let arr : list ex_interface := [Istring "x"; Istring "y"; Istring "x"] in
  let data : gmap string ex_interface := {[ "tags" := Islice arr ]} in
  ArrayRemoveVisitor_VisitMap ex_NewJSONValue String.eqb (member_path "tags") "x"
                              (Some data)
  = Done (match list_find (fun elem => String.eqb "x" (ex_NewJSONValue elem).1 = true) arr
          with
          | Some (i, _) => inl (<["tags" := Islice (take i arr ++ drop (S i) arr)]> data)
          | None => inr (String.append "value not found in array at path "
                                       (member_path "tags"))
          end).
Proof.
  intros arr data.
  apply (ArrayRemove_removes_first ex_NewJSONValue String.eqb "tags" "x" data arr).
  - apply lookup_singleton_eq.
  - by repeat constructor.
Defined.

Lemma ObjectAdd_at_array_index_witness :
  let arr : list ex_interface := [Imap ∅] in
  let data : gmap string ex_interface := {[ "items" := Islice arr ]} in
  ObjectAddVisitor_VisitMap (String.append (member_path "items") (String "/" "0")) "v"
                            (Some data)
  = Done (inl (<["items" := Islice (<[0 := Imap (<[decodeJSONPointerToken "0"
                                                    := IJSONValue "v"]> ∅)]> arr)]> data)).
Proof.
  intros arr data.
  apply (ObjectAdd_at_array_index "items" "0" 0 "v" data arr ∅).
  - apply lookup_singleton_eq.
  - reflexivity.
  - reflexivity.
  - reflexivity.
Defined.

(** The batch of the example: an [ObjectAdd] that succeeds and then an
    operation that is not supported.  The body after the first
    operation is [{a}], and the batch fails. *)
Example ex_batch_content :
  batch_content ex_NewJSONValue String.eqb ex_Unmarshal ex_Marshal contents_spec.accept
                ex_batch "{}"
  = Done ("{a}", true).
Proof. vm_compute. reflexivity. Qed.

Lemma PatchHandler_stores_successful_prefix_witness :
  match batch_content ex_NewJSONValue String.eqb ex_Unmarshal ex_Marshal
                      contents_spec.accept ex_batch (Content contents_spec.doc1) with
  | Done (stored, failed) =>
      exists documentFound' documentList' message d',
        PatchHandler_patches ex_NewJSONValue String.eqb ex_Unmarshal ex_Marshal 1 "/doc1"
                             ex_batch contents_spec.doc1 contents_spec.docs1 "bob"
                             contents_spec.accept ex_env
        = Done (documentFound', documentList', mkPatchResponse "/doc1" failed message)
        /\ GetDocument documentList' (Name contents_spec.doc1) = Done (d', None)
        /\ Content d' = stored
        /\ Content documentFound'
           = (if failed then Content contents_spec.doc1 else stored)
  | Panic =>
      PatchHandler_patches ex_NewJSONValue String.eqb ex_Unmarshal ex_Marshal 1 "/doc1"
                           ex_batch contents_spec.doc1 contents_spec.docs1 "bob"
                           contents_spec.accept ex_env = Panic
  | Timeout =>
      PatchHandler_patches ex_NewJSONValue String.eqb ex_Unmarshal ex_Marshal 1 "/doc1"
                           ex_batch contents_spec.doc1 contents_spec.docs1 "bob"
                           contents_spec.accept ex_env = Timeout
  end.
Proof.
  apply (PatchHandler_stores_successful_prefix ex_NewJSONValue String.eqb ex_Unmarshal
           ex_Marshal 0 "/doc1" ex_batch contents_spec.doc1 contents_spec.docs1
           contents_spec.m_docs1 "bob" contents_spec.accept ex_env contents_spec.doc1).
  - apply contents_spec.docs1_Abs.
  - done.
  - apply contents_spec.m_docs1_doc1.
  - reflexivity.
Defined.

(** The request of the example answers [patchFailed] and leaves the
    body [{a}] in the container, where the body [{}] was. *)
Example PatchHandler_failed_batch_is_stored :
  ('(_, documentList', response) ←
     PatchHandler_patches ex_NewJSONValue String.eqb ex_Unmarshal ex_Marshal 1 "/doc1"
                          ex_batch contents_spec.doc1 contents_spec.docs1 "bob"
                          contents_spec.accept ex_env;
   '(d', _) ← GetDocument documentList' "doc1";
   Done (PatchFailed response, Message response, Content d'))
  = Done (true, "Invalid operation type: Move", "{a}").
Proof. vm_compute. reflexivity. Qed.

End handlers_spec.
